(** * pixi-editor: selection, transform gestures, z-order and undo recording

    A shallow embedding of the editor core (BaseElement and its subclasses,
    ElementManager, ZOrderManager, SelectionManager, TransformController,
    UndoRedoPlugin) together with the properties stated about it.

    Conventions of the embedding.
    - A JavaScript [number] is an exact rational ([Q]); [===] on numbers is
      [Qeq_bool].  Rounding, NaN and the infinities are outside the model.
    - Objects live in a store ([heap]) indexed by reference; every class
      that holds a [BaseElement] holds its reference, so a mutation made
      through one holder is seen by all of them.
    - A JavaScript array is a list in array order ([push] appends, [pop]
      takes the last entry, [shift] drops the first); a [Set] is the list of
      its members in insertion order; a [Map] keyed by a string is a [gmap]
      when only lookups matter and an association list when the iteration
      order matters.
    - The event bus is the log of the events emitted on it, oldest first,
      together with the listeners of [SelectionManager.init] and of the
      undo plugin when it is registered; the grid, autosave, viewport and
      keyboard plugins are not registered.
    - Drawing (pixi Graphics, the selection box geometry, the marquee
      rectangle on screen) is not state that any operation reads back and is
      left out, except for the visibility of the selection box. *)

From Stdlib Require Import QArith Qabs Qminmax Lqa Permutation Sorted.
From Stdlib Require Import Qround.
From stdpp Require Import gmap strings list sorting.

Local Open Scope Q_scope.

(** ** JavaScript numbers and arrays *)

Definition Qltb (a b : Q) : bool := negb (Qle_bool b a).

(** [Array.prototype.pop]: the last entry and the array without it. *)
Definition pop {A} (l : list A) : option (list A * A) :=
  match rev l with
  | [] => None
  | a :: r => Some (rev r, a)
  end.


(** [clamp] of [utils/math.ts]. *)
Definition clamp (value min max : Q) : Q := Qmin (Qmax value min) max.

(** ** Elements *)

Record Bounds := { b_x : Q; b_y : Q; b_width : Q; b_height : Q }.

(** The right and the bottom edge of a rectangle. *)
Definition right_ (a : Bounds) : Q := b_x a + b_width a.
Definition bottom_ (a : Bounds) : Q := b_y a + b_height a.

(** [ShapeElement._shapeType] with the [_shapeParams] the static builders
    give each type. *)
Inductive ShapeParams :=
| line (lx1 ly1 lx2 ly2 : Q)
| circle (radius : Q)
| rectangle (w h : Q)
| arc (radius startAngle endAngle : Q).

(** The subclass part of an element that decides its width and height.  A
    text or an image reads and writes the width and height of its pixi
    display object, taken here to return what it was last given. *)
Inductive Subclass :=
| TextElement (width height : Q)
| ImageElement (width height : Q)
| ShapeElement (_shapeParams : ShapeParams).

Record BaseElement := {
  el_id : string;
  engine : bool;          (* [this.engine !== null] *)
  _x : Q;
  _y : Q;
  _rotation : Q;
  _zIndex : Q;
  _visible : bool;
  _interactable : bool;
  _opacity : Q;
  subclass : Subclass
}.

Definition el_type (e : BaseElement) : string :=
  match subclass e with
  | TextElement _ _ => "text"
  | ImageElement _ _ => "image"
  | ShapeElement _ => "shape"
  end.

(** [Math.abs(d) || 1] *)
Definition absOr1 (d : Q) : Q :=
  if Qeq_bool (Qabs d) 0 then 1 else Qabs d.

Definition getLocalBounds (s : ShapeParams) : Bounds :=
  match s with
  | circle r => {| b_x := 0; b_y := 0; b_width := r * 2; b_height := r * 2 |}
  | rectangle w h => {| b_x := 0; b_y := 0; b_width := w; b_height := h |}
  | line lx1 ly1 lx2 ly2 =>
      {| b_x := 0; b_y := 0;
         b_width := absOr1 (lx2 - lx1); b_height := absOr1 (ly2 - ly1) |}
  | arc r _ _ => {| b_x := 0; b_y := 0; b_width := r * 2; b_height := r * 2 |}
  end.

Definition width (e : BaseElement) : Q :=
  match subclass e with
  | TextElement w _ => w
  | ImageElement w _ => w
  | ShapeElement s => b_width (getLocalBounds s)
  end.

Definition height (e : BaseElement) : Q :=
  match subclass e with
  | TextElement _ h => h
  | ImageElement _ h => h
  | ShapeElement s => b_height (getLocalBounds s)
  end.

(** Field updates. *)
Definition with_x (v : Q) (e : BaseElement) : BaseElement :=
  {| el_id := el_id e; engine := engine e; _x := v; _y := _y e;
     _rotation := _rotation e; _zIndex := _zIndex e; _visible := _visible e;
     _interactable := _interactable e; _opacity := _opacity e;
     subclass := subclass e |}.
Definition with_y (v : Q) (e : BaseElement) : BaseElement :=
  {| el_id := el_id e; engine := engine e; _x := _x e; _y := v;
     _rotation := _rotation e; _zIndex := _zIndex e; _visible := _visible e;
     _interactable := _interactable e; _opacity := _opacity e;
     subclass := subclass e |}.
Definition with_rotation (v : Q) (e : BaseElement) : BaseElement :=
  {| el_id := el_id e; engine := engine e; _x := _x e; _y := _y e;
     _rotation := v; _zIndex := _zIndex e; _visible := _visible e;
     _interactable := _interactable e; _opacity := _opacity e;
     subclass := subclass e |}.
Definition with_zIndex (v : Q) (e : BaseElement) : BaseElement :=
  {| el_id := el_id e; engine := engine e; _x := _x e; _y := _y e;
     _rotation := _rotation e; _zIndex := v; _visible := _visible e;
     _interactable := _interactable e; _opacity := _opacity e;
     subclass := subclass e |}.
Definition with_visible (v : bool) (e : BaseElement) : BaseElement :=
  {| el_id := el_id e; engine := engine e; _x := _x e; _y := _y e;
     _rotation := _rotation e; _zIndex := _zIndex e; _visible := v;
     _interactable := _interactable e; _opacity := _opacity e;
     subclass := subclass e |}.
Definition with_interactable (v : bool) (e : BaseElement) : BaseElement :=
  {| el_id := el_id e; engine := engine e; _x := _x e; _y := _y e;
     _rotation := _rotation e; _zIndex := _zIndex e; _visible := _visible e;
     _interactable := v; _opacity := _opacity e;
     subclass := subclass e |}.
Definition with_opacity (v : Q) (e : BaseElement) : BaseElement :=
  {| el_id := el_id e; engine := engine e; _x := _x e; _y := _y e;
     _rotation := _rotation e; _zIndex := _zIndex e; _visible := _visible e;
     _interactable := _interactable e; _opacity := v;
     subclass := subclass e |}.
Definition with_subclass (v : Subclass) (e : BaseElement) : BaseElement :=
  {| el_id := el_id e; engine := engine e; _x := _x e; _y := _y e;
     _rotation := _rotation e; _zIndex := _zIndex e; _visible := _visible e;
     _interactable := _interactable e; _opacity := _opacity e;
     subclass := v |}.
Definition with_engine (v : bool) (e : BaseElement) : BaseElement :=
  {| el_id := el_id e; engine := v; _x := _x e; _y := _y e;
     _rotation := _rotation e; _zIndex := _zIndex e; _visible := _visible e;
     _interactable := _interactable e; _opacity := _opacity e;
     subclass := subclass e |}.

(** ** Reactive properties *)

(** The reactive properties every element has.  (The subclasses add
    text, colour and fill properties of the same form; they play no part in
    selection, transform or stacking.) *)
Inductive Property :=
| P_x | P_y | P_rotation | P_zIndex | P_visible | P_interactable
| P_opacity | P_width | P_height.

Definition propertyName (p : Property) : string :=
  match p with
  | P_x => "x" | P_y => "y" | P_rotation => "rotation"
  | P_zIndex => "zIndex" | P_visible => "visible"
  | P_interactable => "interactable" | P_opacity => "opacity"
  | P_width => "width" | P_height => "height"
  end.

(** The [unknown] old and new values of a change. *)
Inductive Value := VNum (q : Q) | VBool (b : bool).


Definition Veq (a b : Value) : Prop :=
  match a, b with
  | VNum p, VNum q => p == q
  | VBool p, VBool q => p = q
  | _, _ => False
  end.

(** The getters. *)
Definition read (p : Property) (e : BaseElement) : Value :=
  match p with
  | P_x => VNum (_x e)
  | P_y => VNum (_y e)
  | P_rotation => VNum (_rotation e)
  | P_zIndex => VNum (_zIndex e)
  | P_visible => VBool (_visible e)
  | P_interactable => VBool (_interactable e)
  | P_opacity => VNum (_opacity e)
  | P_width => VNum (width e)
  | P_height => VNum (height e)
  end.

(** [set width] of the three subclasses, up to the call of [emitChange]:
    [None] when the setter returns early. *)
Definition write_width (value : Q) (s : Subclass) : option Subclass :=
  match s with
  | TextElement old h =>
      if Qeq_bool old value then None else Some (TextElement value h)
  | ImageElement old h =>
      if Qeq_bool old value then None else Some (ImageElement value h)
  | ShapeElement params =>
      let old := b_width (getLocalBounds params) in
      if Qeq_bool old value || Qeq_bool old 0 then None
      else Some (ShapeElement
        match params with
        | rectangle _ h => rectangle value h
        | circle _ => circle (value / 2)
        | arc _ sa ea => arc (value / 2) sa ea
        | line lx1 ly1 _ ly2 => line lx1 ly1 value ly2
        end)
  end.

Definition write_height (value : Q) (s : Subclass) : option Subclass :=
  match s with
  | TextElement w old =>
      if Qeq_bool old value then None else Some (TextElement w value)
  | ImageElement w old =>
      if Qeq_bool old value then None else Some (ImageElement w value)
  | ShapeElement params =>
      let old := b_height (getLocalBounds params) in
      if Qeq_bool old value || Qeq_bool old 0 then None
      else Some (ShapeElement
        match params with
        | rectangle w _ => rectangle w value
        | circle _ => circle (value / 2)
        | arc _ sa ea => arc (value / 2) sa ea
        | line lx1 ly1 lx2 _ => line lx1 ly1 lx2 value
        end)
  end.

(** The body of a setter up to the call of [emitChange]: the guard and the
    field write.  [None] when the setter returns early; a value of the wrong
    type is excluded by the TypeScript signatures and is given no effect. *)
Definition write (p : Property) (v : Value) (e : BaseElement)
  : option BaseElement :=
  match p, v with
  | P_x, VNum value =>
      if Qeq_bool (_x e) value then None else Some (with_x value e)
  | P_y, VNum value =>
      if Qeq_bool (_y e) value then None else Some (with_y value e)
  | P_rotation, VNum value =>
      if Qeq_bool (_rotation e) value then None
      else Some (with_rotation value e)
  | P_zIndex, VNum value =>
      if Qeq_bool (_zIndex e) value then None else Some (with_zIndex value e)
  | P_visible, VBool value =>
      if Bool.eqb (_visible e) value then None
      else Some (with_visible value e)
  | P_interactable, VBool value =>
      if Bool.eqb (_interactable e) value then None
      else Some (with_interactable value e)
  | P_opacity, VNum value =>
      if Qeq_bool (_opacity e) value then None
      else Some (with_opacity value e)
  | P_width, VNum value =>
      match write_width value (subclass e) with
      | Some s => Some (with_subclass s e)
      | None => None
      end
  | P_height, VNum value =>
      match write_height value (subclass e) with
      | Some s => Some (with_subclass s e)
      | None => None
      end
  | _, _ => None
  end.

(** The object after [element[property] = value]. *)
Definition assign (p : Property) (v : Value) (e : BaseElement)
  : BaseElement :=
  default e (write p v e).



(** A mutation that its action can take back: any one except a size
    mutation of a line, or of another shape to the extent 0 (which the
    guard above then keeps). *)
Definition restorable (p : Property) (e : BaseElement) (newValue : Value)
  : bool :=
  match p, subclass e, newValue with
  | (P_width | P_height), ShapeElement (line _ _ _ _), _ => false
  | (P_width | P_height), ShapeElement _, VNum value =>
      negb (Qeq_bool value 0)
  | _, _, _ => true
  end.

(** A value of the type the property has. *)
Definition wellTyped (p : Property) (v : Value) : bool :=
  match p, v with
  | (P_visible | P_interactable), VBool _ => true
  | (P_visible | P_interactable), VNum _ => false
  | _, VNum _ => true
  | _, VBool _ => false
  end.

(** ** Actions and events *)

(** The action built by [emitChange].  Its [undo] and [redo] closures
    capture the element, the property and the two values; they are
    interpreted by [action_undo] and [action_redo] below. *)
Record UndoableAction := {
  a_type : string;
  description : string;
  a_element : nat;
  a_property : Property;
  a_oldValue : Value;
  a_newValue : Value
}.

Inductive Event :=
| element_added (element : nat)
| element_removed (element : nat)
| element_changed (element : nat) (property : Property)
    (oldValue newValue : Value)
| element_zChanged (element : nat) (oldZ newZ : Q)
| selection_changed (selected : list nat)
| selection_cleared
| interaction_dragStart (element : nat) (px py : Q)
| interaction_dragMove (elements : list nat) (dx dy : Q)
| interaction_dragEnd (elements : list nat)
| interaction_resizeStart (element : nat)
| interaction_resizeEnd (element : nat)
| interaction_rotateStart (element : nat)
| interaction_rotateEnd (element : nat)
| action_performed (action : UndoableAction).

(** ** Component state *)

Record UndoRedoPlugin := {
  undoStack : list UndoableAction;
  redoStack : list UndoableAction;
  maxHistory : nat
}.

Inductive HandlePosition :=
| top_left | top_center | top_right | middle_right | bottom_right
| bottom_center | bottom_left | middle_left | rotate.

Definition handleName (h : HandlePosition) : string :=
  match h with
  | top_left => "top-left" | top_center => "top-center"
  | top_right => "top-right" | middle_right => "middle-right"
  | bottom_right => "bottom-right" | bottom_center => "bottom-center"
  | bottom_left => "bottom-left" | middle_left => "middle-left"
  | rotate => "rotate"
  end.

(** [handle.includes(part)] *)
Definition includes (h : HandlePosition) (part : string) : bool :=
  match String.index 0 part (handleName h) with
  | Some _ => true
  | None => false
  end.

Inductive TransformMode := mode_none | mode_move | mode_resize | mode_rotate.

Record StartProps := {
  start_x : Q; start_y : Q; start_width : Q; start_height : Q;
  start_rotation : Q
}.

Record DragState := {
  mode : TransformMode;
  startX : Q;
  startY : Q;
  handlePosition : option HandlePosition;
  elementStartProps : gmap string StartProps
}.

Record FederatedPointerEvent := {
  globalX : Q; globalY : Q; shiftKey : bool
}.

(** What [toJSON] writes.  [JSON.parse (JSON.stringify v)] is taken to give
    [v] back, so the clipboard holds these records. *)
Record SerializedElement := {
  s_type : string;
  s_id : string;
  s_x : Q;
  s_y : Q;
  s_width : Q;
  s_height : Q;
  s_rotation : Q;
  s_scaleX : Q;
  s_scaleY : Q;
  s_zIndex : Q;
  s_visible : bool;
  s_interactable : bool;
  s_opacity : Q;
  s_shapeParams : option ShapeParams
}.

(** The constructors an [ElementRegistry] can hold. *)
Inductive ElementConstructor := TextCtor | ImageCtor | ShapeCtor.

(** What the editor takes from outside the repository sources at hand:
    [Math.atan2], the size pixi gives the display object of a text or an
    image built from serialized data, and [generateUid] of
    [utils/uid.ts], given as the identifier returned by its n-th call. *)
Record Platform := {
  Math_atan2 : Q -> Q -> Q;
  displaySize : SerializedElement -> Q * Q;
  generateUid : nat -> string
}.

(** The engine with its managers, the selection and the undo plugin. *)
Record World := {
  platform : Platform;
  heap : gmap nat BaseElement;
  nextRef : nat;                       (* next fresh reference *)
  uidCalls : nat;                      (* calls of [generateUid] so far *)
  (* EngineRef *)
  _suppressActions : bool;
  eventBus : list Event;
  (* UndoRedoPlugin, when registered *)
  undoRedo : option UndoRedoPlugin;
  (* ElementManager.elements *)
  elements : list (string * nat);
  (* SelectionManager *)
  selected : list nat;
  clipboard : list SerializedElement;
  serializationManager : option (gmap string ElementConstructor);
  selectionBoxVisible : bool;
  (* TransformController *)
  contentRoot : option (Q -> Q -> Q * Q);
  dragState : option DragState;
  activeElements : list nat
}.

Definition with_heap (v : gmap nat BaseElement) (w : World) : World :=
  {| platform := platform w; heap := v; nextRef := nextRef w;
     uidCalls := uidCalls w; _suppressActions := _suppressActions w;
     eventBus := eventBus w; undoRedo := undoRedo w; elements := elements w;
     selected := selected w; clipboard := clipboard w;
     serializationManager := serializationManager w;
     selectionBoxVisible := selectionBoxVisible w;
     contentRoot := contentRoot w; dragState := dragState w;
     activeElements := activeElements w |}.
Definition with_nextRef (v : nat) (w : World) : World :=
  {| platform := platform w; heap := heap w; nextRef := v;
     uidCalls := uidCalls w; _suppressActions := _suppressActions w;
     eventBus := eventBus w; undoRedo := undoRedo w; elements := elements w;
     selected := selected w; clipboard := clipboard w;
     serializationManager := serializationManager w;
     selectionBoxVisible := selectionBoxVisible w;
     contentRoot := contentRoot w; dragState := dragState w;
     activeElements := activeElements w |}.
Definition with_uidCalls (v : nat) (w : World) : World :=
  {| platform := platform w; heap := heap w; nextRef := nextRef w;
     uidCalls := v; _suppressActions := _suppressActions w;
     eventBus := eventBus w; undoRedo := undoRedo w; elements := elements w;
     selected := selected w; clipboard := clipboard w;
     serializationManager := serializationManager w;
     selectionBoxVisible := selectionBoxVisible w;
     contentRoot := contentRoot w; dragState := dragState w;
     activeElements := activeElements w |}.
Definition with_suppressActions (v : bool) (w : World) : World :=
  {| platform := platform w; heap := heap w; nextRef := nextRef w;
     uidCalls := uidCalls w; _suppressActions := v;
     eventBus := eventBus w; undoRedo := undoRedo w; elements := elements w;
     selected := selected w; clipboard := clipboard w;
     serializationManager := serializationManager w;
     selectionBoxVisible := selectionBoxVisible w;
     contentRoot := contentRoot w; dragState := dragState w;
     activeElements := activeElements w |}.
Definition with_eventBus (v : list Event) (w : World) : World :=
  {| platform := platform w; heap := heap w; nextRef := nextRef w;
     uidCalls := uidCalls w; _suppressActions := _suppressActions w;
     eventBus := v; undoRedo := undoRedo w; elements := elements w;
     selected := selected w; clipboard := clipboard w;
     serializationManager := serializationManager w;
     selectionBoxVisible := selectionBoxVisible w;
     contentRoot := contentRoot w; dragState := dragState w;
     activeElements := activeElements w |}.
Definition with_undoRedo (v : option UndoRedoPlugin) (w : World) : World :=
  {| platform := platform w; heap := heap w; nextRef := nextRef w;
     uidCalls := uidCalls w; _suppressActions := _suppressActions w;
     eventBus := eventBus w; undoRedo := v; elements := elements w;
     selected := selected w; clipboard := clipboard w;
     serializationManager := serializationManager w;
     selectionBoxVisible := selectionBoxVisible w;
     contentRoot := contentRoot w; dragState := dragState w;
     activeElements := activeElements w |}.
Definition with_elements (v : list (string * nat)) (w : World) : World :=
  {| platform := platform w; heap := heap w; nextRef := nextRef w;
     uidCalls := uidCalls w; _suppressActions := _suppressActions w;
     eventBus := eventBus w; undoRedo := undoRedo w; elements := v;
     selected := selected w; clipboard := clipboard w;
     serializationManager := serializationManager w;
     selectionBoxVisible := selectionBoxVisible w;
     contentRoot := contentRoot w; dragState := dragState w;
     activeElements := activeElements w |}.
Definition with_selected (v : list nat) (w : World) : World :=
  {| platform := platform w; heap := heap w; nextRef := nextRef w;
     uidCalls := uidCalls w; _suppressActions := _suppressActions w;
     eventBus := eventBus w; undoRedo := undoRedo w; elements := elements w;
     selected := v; clipboard := clipboard w;
     serializationManager := serializationManager w;
     selectionBoxVisible := selectionBoxVisible w;
     contentRoot := contentRoot w; dragState := dragState w;
     activeElements := activeElements w |}.
Definition with_clipboard (v : list SerializedElement) (w : World) : World :=
  {| platform := platform w; heap := heap w; nextRef := nextRef w;
     uidCalls := uidCalls w; _suppressActions := _suppressActions w;
     eventBus := eventBus w; undoRedo := undoRedo w; elements := elements w;
     selected := selected w; clipboard := v;
     serializationManager := serializationManager w;
     selectionBoxVisible := selectionBoxVisible w;
     contentRoot := contentRoot w; dragState := dragState w;
     activeElements := activeElements w |}.
Definition with_selectionBoxVisible (v : bool) (w : World) : World :=
  {| platform := platform w; heap := heap w; nextRef := nextRef w;
     uidCalls := uidCalls w; _suppressActions := _suppressActions w;
     eventBus := eventBus w; undoRedo := undoRedo w; elements := elements w;
     selected := selected w; clipboard := clipboard w;
     serializationManager := serializationManager w;
     selectionBoxVisible := v;
     contentRoot := contentRoot w; dragState := dragState w;
     activeElements := activeElements w |}.
Definition with_gesture (d : option DragState) (a : list nat) (w : World)
  : World :=
  {| platform := platform w; heap := heap w; nextRef := nextRef w;
     uidCalls := uidCalls w; _suppressActions := _suppressActions w;
     eventBus := eventBus w; undoRedo := undoRedo w; elements := elements w;
     selected := selected w; clipboard := clipboard w;
     serializationManager := serializationManager w;
     selectionBoxVisible := selectionBoxVisible w;
     contentRoot := contentRoot w; dragState := d;
     activeElements := a |}.

(** ** EventBus and the listeners installed by the editor *)

(** [SelectionManager.updateSelectionVisuals]: the selection box is hidden
    for an empty selection and shown around the selection otherwise. *)
Definition updateSelectionVisuals (w : World) : World :=
  with_selectionBoxVisible
    (match selected w with [] => false | _ => true end) w.

(** The listener of [UndoRedoPlugin.init]. *)
Definition onActionPerformed (action : UndoableAction) (p : UndoRedoPlugin)
  : UndoRedoPlugin :=
  let pushed := undoStack p ++ [action] in
  {| undoStack :=
       if (maxHistory p <? length pushed)%nat then tail pushed else pushed;
     redoStack := [];
     maxHistory := maxHistory p |}.

(** [EventBus.emit]: the event reaches the listeners registered for it, the
    one of the undo plugin (['action:performed']) and the two of
    [SelectionManager.init] (['element:removed'], ['element:changed']). *)
Definition emit (ev : Event) (w : World) : World :=
  let w := with_eventBus (eventBus w ++ [ev]) w in
  match ev with
  | action_performed action =>
      match undoRedo w with
      | Some p => with_undoRedo (Some (onActionPerformed action p)) w
      | None => w
      end
  | element_removed element =>
      updateSelectionVisuals
        (with_selected (filter (λ r, r ≠ element) (selected w)) w)
  | element_changed element _ _ _ =>
      if bool_decide (element ∈ selected w)
      then updateSelectionVisuals w else w
  | _ => w
  end.

(** ** BaseElement: emitChange and the setters *)

Definition mkAction (el : nat) (e : BaseElement) (property : Property)
    (oldValue newValue : Value) : UndoableAction :=
  {| a_type := "property-change";
     description := "Change " +:+ propertyName property +:+ " on "
                    +:+ el_type e +:+ " " +:+ el_id e;
     a_element := el;
     a_property := property;
     a_oldValue := oldValue;
     a_newValue := newValue |}.

Definition emitChange (el : nat) (property : Property)
    (oldValue newValue : Value) (w : World) : World :=
  match heap w !! el with
  | None => w
  | Some e =>
      if negb (engine e) then w
      else
        let w1 := emit (element_changed el property oldValue newValue) w in
        if _suppressActions w1 then w1
        else emit (action_performed
                     (mkAction el e property oldValue newValue)) w1
  end.

(** [element[property] = value]: the setter of [property] on the object
    [el]. *)
Definition setProperty (el : nat) (property : Property) (value : Value)
    (w : World) : World :=
  match heap w !! el with
  | None => w
  | Some e =>
      match write property value e with
      | None => w
      | Some e' =>
          let w1 := emitChange el property (read property e) value
                      (with_heap (<[el := e']> (heap w)) w) in
          match property, value with
          | P_zIndex, VNum newZ =>
              if engine e'
              then emit (element_zChanged el (_zIndex e) newZ) w1
              else w1
          | _, _ => w1
          end
      end
  end.

Definition set_x (el : nat) (value : Q) := setProperty el P_x (VNum value).
Definition set_y (el : nat) (value : Q) := setProperty el P_y (VNum value).
Definition set_rotation (el : nat) (value : Q) :=
  setProperty el P_rotation (VNum value).
Definition set_zIndex (el : nat) (value : Q) :=
  setProperty el P_zIndex (VNum value).
Definition set_visible (el : nat) (value : bool) :=
  setProperty el P_visible (VBool value).
Definition set_interactable (el : nat) (value : bool) :=
  setProperty el P_interactable (VBool value).
Definition set_opacity (el : nat) (value : Q) :=
  setProperty el P_opacity (VNum value).
Definition set_width (el : nat) (value : Q) :=
  setProperty el P_width (VNum value).
Definition set_height (el : nat) (value : Q) :=
  setProperty el P_height (VNum value).

(** The getters through a reference; a dangling reference does not occur. *)
Definition get (p : Property) (el : nat) (w : World) : option Value :=
  read p <$> heap w !! el.

Definition attached (el : nat) (w : World) : bool :=
  match heap w !! el with
  | Some e => engine e
  | None => false
  end.

(** The [undo] and [redo] closures of an action. *)
Definition action_undo (a : UndoableAction) (w : World) : World :=
  let el := a_element a in
  let w1 := if attached el w then with_suppressActions true w else w in
  let w2 := setProperty el (a_property a) (a_oldValue a) w1 in
  if attached el w2 then with_suppressActions false w2 else w2.

Definition action_redo (a : UndoableAction) (w : World) : World :=
  let el := a_element a in
  let w1 := if attached el w then with_suppressActions true w else w in
  let w2 := setProperty el (a_property a) (a_newValue a) w1 in
  if attached el w2 then with_suppressActions false w2 else w2.

(** ** UndoRedoPlugin *)

Module UndoRedo.

Definition with_undoStack (v : list UndoableAction) (p : UndoRedoPlugin) :=
  {| undoStack := v; redoStack := redoStack p; maxHistory := maxHistory p |}.
Definition with_redoStack (v : list UndoableAction) (p : UndoRedoPlugin) :=
  {| undoStack := undoStack p; redoStack := v; maxHistory := maxHistory p |}.

Definition undo (w : World) : World :=
  match undoRedo w with
  | None => w
  | Some p =>
      match pop (undoStack p) with
      | None => w
      | Some (rest, action) =>
          let w := with_undoRedo (Some (with_undoStack rest p)) w in
          let w := with_suppressActions true w in
          let w := action_undo action w in
          let w := with_suppressActions false w in
          match undoRedo w with
          | Some p =>
              with_undoRedo
                (Some (with_redoStack (redoStack p ++ [action]) p)) w
          | None => w
          end
      end
  end.

Definition redo (w : World) : World :=
  match undoRedo w with
  | None => w
  | Some p =>
      match pop (redoStack p) with
      | None => w
      | Some (rest, action) =>
          let w := with_undoRedo (Some (with_redoStack rest p)) w in
          let w := with_suppressActions true w in
          let w := action_redo action w in
          let w := with_suppressActions false w in
          match undoRedo w with
          | Some p =>
              with_undoRedo
                (Some (with_undoStack (undoStack p ++ [action]) p)) w
          | None => w
          end
      end
  end.

End UndoRedo.

(** ** ElementManager *)

Module ElementManager.

Definition has (id : string) (w : World) : bool :=
  bool_decide (id ∈ (elements w).*1).

Definition add (element : nat) (w : World) : World :=
  match heap w !! element with
  | None => w
  | Some e =>
      if has (el_id e) w then w
      else
        let w := with_elements (elements w ++ [(el_id e, element)]) w in
        let w := with_heap (<[element := with_engine true e]> (heap w)) w in
        emit (element_added element) w
  end.

Definition remove (element : nat) (w : World) : World :=
  match heap w !! element with
  | None => w
  | Some e =>
      if negb (has (el_id e) w) then w
      else
        let w := with_elements
                   (filter (λ kv, kv.1 ≠ el_id e) (elements w)) w in
        let w := with_heap (<[element := with_engine false e]> (heap w)) w in
        emit (element_removed element) w
  end.

Definition getAll (w : World) : list nat := (elements w).*2.

Definition getById (id : string) (w : World) : option nat :=
  snd <$> find (λ kv, bool_decide (kv.1 = id)) (elements w).

(** [clear]: every element is detached and the map is emptied; nothing is
    emitted. *)
Definition clear (w : World) : World :=
  let w := foldl (λ w element,
                    match heap w !! element with
                    | Some e =>
                        with_heap
                          (<[element := with_engine false e]> (heap w)) w
                    | None => w
                    end) w (getAll w) in
  with_elements [] w.

Definition count (w : World) : nat := length (elements w).

End ElementManager.

(** ** ZOrderManager *)

Module ZOrderManager.

Definition zIndex (w : World) (el : nat) : Q :=
  match heap w !! el with
  | Some e => _zIndex e
  | None => 0
  end.

(** [Array.prototype.sort] with the comparator [a.zIndex - b.zIndex]: a
    stable sort, ascending by key. *)
Fixpoint insertByZ (z : nat -> Q) (a : nat) (l : list nat) : list nat :=
  match l with
  | [] => [a]
  | b :: l' => if Qle_bool (z a) (z b) then a :: l else b :: insertByZ z a l'
  end.

Fixpoint sortByZ (z : nat -> Q) (l : list nat) : list nat :=
  match l with
  | [] => []
  | a :: l' => insertByZ z a (sortByZ z l')
  end.

Definition getSortedByZ (w : World) : list nat :=
  sortByZ (zIndex w) (ElementManager.getAll w).

(** [Array.prototype.indexOf]; [None] stands for -1. *)
Fixpoint indexOf (el : nat) (l : list nat) : option nat :=
  match l with
  | [] => None
  | a :: l' => if (a =? el)%nat then Some O else S <$> indexOf el l'
  end.





Definition moveForward (element : nat) (w : World) : World :=
  let all := getSortedByZ w in
  match indexOf element all with
  | None => w
  | Some idx =>
      if (length all - 1 <=? idx)%nat then w
      else
        match all !! (idx + 1)%nat with
        | None => w
        | Some nextEl =>
            let nextZ := zIndex w nextEl in
            let w1 := set_zIndex nextEl (zIndex w element) w in
            set_zIndex element nextZ w1
        end
  end.

Definition moveBackward (element : nat) (w : World) : World :=
  let all := getSortedByZ w in
  match indexOf element all with
  | None => w
  | Some O => w
  | Some (S idx') =>
      match all !! idx' with
      | None => w
      | Some prevEl =>
          let prevZ := zIndex w prevEl in
          let w1 := set_zIndex prevEl (zIndex w element) w in
          set_zIndex element prevZ w1
      end
  end.

(** The z-order sequence of the scene: its objects in ascending key order. *)
Definition zOrder (w : World) : list nat := getSortedByZ w.

End ZOrderManager.

(** ** TransformController *)

Module TransformController.

Definition isDragging (w : World) : bool :=
  match dragState w with Some _ => true | None => false end.

Definition currentMode (w : World) : TransformMode :=
  match dragState w with Some d => mode d | None => mode_none end.

Definition toWorld (event : FederatedPointerEvent) (w : World) : Q * Q :=
  match contentRoot w with
  | Some toLocal => toLocal (globalX event) (globalY event)
  | None => (globalX event, globalY event)
  end.

Definition startProps (e : BaseElement) : StartProps :=
  {| start_x := _x e; start_y := _y e; start_width := width e;
     start_height := height e; start_rotation := _rotation e |}.

(** The [startProps] map filled by the three [start...] methods. *)
Definition snapshot (els : list nat) (w : World) : gmap string StartProps :=
  foldl (λ m el,
           match heap w !! el with
           | Some e => <[el_id e := startProps e]> m
           | None => m
           end) ∅ els.

Definition startMove (els : list nat) (event : FederatedPointerEvent)
    (w : World) : World :=
  let world := toWorld event w in
  let w1 := with_gesture
              (Some {| mode := mode_move; startX := world.1;
                       startY := world.2; handlePosition := None;
                       elementStartProps := snapshot els w |}) els w in
  match els with
  | el0 :: _ => emit (interaction_dragStart el0 world.1 world.2) w1
  | [] => w1
  end.

Definition startResize (els : list nat) (handle : HandlePosition)
    (event : FederatedPointerEvent) (w : World) : World :=
  let world := toWorld event w in
  let w1 := with_gesture
              (Some {| mode := mode_resize; startX := world.1;
                       startY := world.2; handlePosition := Some handle;
                       elementStartProps := snapshot els w |}) els w in
  match els with
  | el0 :: _ => emit (interaction_resizeStart el0) w1
  | [] => w1
  end.

Definition startRotate (els : list nat) (event : FederatedPointerEvent)
    (w : World) : World :=
  let world := toWorld event w in
  let w1 := with_gesture
              (Some {| mode := mode_rotate; startX := world.1;
                       startY := world.2; handlePosition := None;
                       elementStartProps := snapshot els w |}) els w in
  match els with
  | el0 :: _ => emit (interaction_rotateStart el0) w1
  | [] => w1
  end.

(** One turn of a [for (const el of this.activeElements)] loop whose body
    starts with [const start = ...elementStartProps.get(el.id)] and skips
    the element when there is none. *)
Definition withStart (d : DragState)
    (body : nat -> StartProps -> World -> World) (w : World) (el : nat)
  : World :=
  match heap w !! el with
  | None => w
  | Some e =>
      match elementStartProps d !! el_id e with
      | Some start => body el start w
      | None => w
      end
  end.

Definition onPointerUp (w : World) : World :=
  match dragState w with
  | None => w
  | Some d =>
      let w1 :=
        match mode d, activeElements w with
        | mode_move, _ :: _ => emit (interaction_dragEnd (activeElements w)) w
        | mode_resize, el0 :: _ => emit (interaction_resizeEnd el0) w
        | mode_rotate, el0 :: _ => emit (interaction_rotateEnd el0) w
        | _, _ => w
        end in
      with_gesture None [] w1
  end.

Definition cancel (w : World) : World :=
  match dragState w with
  | None => w
  | Some d =>
      let w1 := foldl (withStart d (λ el start w,
                         set_y el (start_y start)
                           (set_x el (start_x start) w)))
                  w (activeElements w) in
      with_gesture None [] w1
  end.

Definition handleMove (event : FederatedPointerEvent) (w : World) : World :=
  match dragState w with
  | None => w
  | Some d =>
      let world := toWorld event w in
      let dx := world.1 - startX d in
      let dy := world.2 - startY d in
      let w1 := foldl (withStart d (λ el start w,
                         set_y el (start_y start + dy)
                           (set_x el (start_x start + dx) w)))
                  w (activeElements w) in
      emit (interaction_dragMove (activeElements w) dx dy) w1
  end.

(** The body of the loop of [handleResize] up to the minimum-size lines:
    the values of [newX], [newY], [newW] and [newH] after the handle
    decomposition and the aspect-ratio constraint. *)
Definition proportioned (handle : HandlePosition) (constrain : bool)
    (dx dy : Q) (start : StartProps) : Q * Q * Q * Q :=
  let aspect := if Qeq_bool (start_height start) 0 then 1
                else start_width start / start_height start in
  let newX := start_x start in
  let newY := start_y start in
  let newW := start_width start in
  let newH := start_height start in
  let '(newX, newW) :=
    if includes handle "left"
    then (start_x start + dx, start_width start - dx) else (newX, newW) in
  let newW :=
    if includes handle "right" then start_width start + dx else newW in
  let '(newY, newH) :=
    if includes handle "top"
    then (start_y start + dy, start_height start - dy) else (newY, newH) in
  let newH :=
    if includes handle "bottom" then start_height start + dy else newH in
  if constrain && Qltb 0 (start_width start) && Qltb 0 (start_height start)
  then
    let isCorner :=
      (includes handle "left" || includes handle "right") &&
      (includes handle "top" || includes handle "bottom") in
    if isCorner then
      let absDx := Qabs (newW - start_width start) in
      let absDy := Qabs (newH - start_height start) in
      if Qle_bool absDy (absDx / aspect) then
        let newH := newW / aspect in
        let newY := if includes handle "top"
                    then start_y start + start_height start - newH
                    else newY in
        (newX, newY, newW, newH)
      else
        let newW := newH * aspect in
        let newX := if includes handle "left"
                    then start_x start + start_width start - newW
                    else newX in
        (newX, newY, newW, newH)
    else
      match handle with
      | middle_left | middle_right =>
          let centerY := start_y start + start_height start / 2 in
          let newH := newW / aspect in
          let newY := centerY - newH / 2 in
          (newX, newY, newW, newH)
      | _ =>
          let centerX := start_x start + start_width start / 2 in
          let newW := newH * aspect in
          let newX := centerX - newW / 2 in
          (newX, newY, newW, newH)
      end
  else (newX, newY, newW, newH).

(** The two minimum-size lines, [if (newW < 5) ...] and
    [if (newH < 5) ...]. *)
Definition minimumSize (handle : HandlePosition) (start : StartProps)
    (box : Q * Q * Q * Q) : Q * Q * Q * Q :=
  let '(newX, newY, newW, newH) := box in
  let '(newX, newW) :=
    if Qltb newW 5
    then ((if includes handle "left"
           then start_x start + start_width start - 5 else newX), 5)
    else (newX, newW) in
  let '(newY, newH) :=
    if Qltb newH 5
    then ((if includes handle "top"
           then start_y start + start_height start - 5 else newY), 5)
    else (newY, newH) in
  (newX, newY, newW, newH).

(** The values the loop of [handleResize] assigns. *)
Definition resized (handle : HandlePosition) (constrain : bool)
    (dx dy : Q) (start : StartProps) : Q * Q * Q * Q :=
  minimumSize handle start (proportioned handle constrain dx dy start).

Definition handleResize (event : FederatedPointerEvent) (w : World) : World :=
  match dragState w with
  | None => w
  | Some d =>
      match handlePosition d with
      | None => w
      | Some handle =>
          let world := toWorld event w in
          let dx := world.1 - startX d in
          let dy := world.2 - startY d in
          let constrain := shiftKey event in
          foldl (withStart d (λ el start w,
                   let '(newX, newY, newW, newH) :=
                     resized handle constrain dx dy start in
                   set_height el newH
                     (set_width el newW
                        (set_y el newY
                           (set_x el newX w)))))
            w (activeElements w)
      end
  end.

(** [angleBetweenPoints] of [utils/math.ts]. *)
Definition angleBetweenPoints (w : World) (cx cy px py : Q) : Q :=
  Math_atan2 (platform w) (py - cy) (px - cx).

Definition handleRotate (event : FederatedPointerEvent) (w : World) : World :=
  match dragState w with
  | None => w
  | Some d =>
      let world := toWorld event w in
      foldl (withStart d (λ el start w,
               match heap w !! el with
               | None => w
               | Some e =>
                   let cx := _x e + width e / 2 in
                   let cy := _y e + height e / 2 in
                   let angle := angleBetweenPoints w cx cy world.1 world.2 in
                   let startAngle :=
                     angleBetweenPoints w cx cy (startX d) (startY d) in
                   set_rotation el
                     (start_rotation start + (angle - startAngle)) w
               end))
        w (activeElements w)
  end.

Definition onPointerMove (event : FederatedPointerEvent) (w : World) : World :=
  match dragState w with
  | None => w
  | Some d =>
      match mode d with
      | mode_move => handleMove event w
      | mode_resize => handleResize event w
      | mode_rotate => handleRotate event w
      | mode_none => w
      end
  end.

End TransformController.

(** ** Construction and serialization *)

(** The constructor of [BaseElement]: a new object, not attached to an
    engine, with a generated id and the default field values. *)
Definition constructed (id : string) (s : Subclass) : BaseElement :=
  {| el_id := id; engine := false; _x := 0; _y := 0; _rotation := 0;
     _zIndex := 0; _visible := true; _interactable := true; _opacity := 1;
     subclass := s |}.

Definition newElement (s : Subclass) (w : World) : nat * World :=
  let el := nextRef w in
  let e := constructed (generateUid (platform w) (uidCalls w)) s in
  (el, with_heap (<[el := e]> (heap w))
         (with_nextRef (S el) (with_uidCalls (S (uidCalls w)) w))).

(** [BaseElement.toJSON] with the override of [ShapeElement];
    [container.scale] is never written and stays at 1. *)
Definition toJSON (e : BaseElement) : SerializedElement :=
  {| s_type := el_type e; s_id := el_id e; s_x := _x e; s_y := _y e;
     s_width := width e; s_height := height e; s_rotation := _rotation e;
     s_scaleX := 1; s_scaleY := 1; s_zIndex := _zIndex e;
     s_visible := _visible e; s_interactable := _interactable e;
     s_opacity := _opacity e;
     s_shapeParams := match subclass e with
                      | ShapeElement params => Some params
                      | _ => None
                      end |}.

Module SerializationManager.

(** What [deserializeElement] comes back with: an element, [null], or a
    [TypeError] raised while the element is built. *)
Inductive Deserialized :=
| Built (element : nat) (w : World)
| Null (w : World)
| Threw (w : World).

(** The assignments shared by the three [fromJSON]. *)
Definition applyCommon (el : nat) (data : SerializedElement) (w : World)
  : World :=
  let w := set_x el (s_x data) w in
  let w := set_y el (s_y data) w in
  let w := set_rotation el (s_rotation data) w in
  let w := set_zIndex el (s_zIndex data) w in
  let w := set_visible el (s_visible data) w in
  let w := set_interactable el (s_interactable data) w in
  set_opacity el (s_opacity data) w.

(** [TextElement.fromJSON], [ImageElement.fromJSON] and
    [ShapeElement.fromJSON].  A shape built from data without
    [shapeParams] has no bounds, and [updateMask] raises on them in the
    constructor, after the identifier was generated. *)
Definition fromJSON (ctor : ElementConstructor) (data : SerializedElement)
    (w : World) : Deserialized :=
  match ctor with
  | TextCtor =>
      let '(wd, ht) := displaySize (platform w) data in
      let '(el, w) := newElement (TextElement wd ht) w in
      Built el (applyCommon el data w)
  | ImageCtor =>
      let '(wd, ht) := displaySize (platform w) data in
      let '(el, w) := newElement (ImageElement wd ht) w in
      Built el (applyCommon el data w)
  | ShapeCtor =>
      match s_shapeParams data with
      | None => Threw (with_uidCalls (S (uidCalls w)) w)
      | Some params =>
          let '(el, w) := newElement (ShapeElement params) w in
          Built el (applyCommon el data w)
      end
  end.

(** [SerializationManager.deserializeElement] on the registry it holds. *)
Definition deserializeElement (registry : gmap string ElementConstructor)
    (data : SerializedElement) (w : World) : Deserialized :=
  match registry !! s_type data with
  | None => Null w
  | Some ctor => fromJSON ctor data w
  end.

(** The state [serialize] hands to [JSON.stringify]. *)
Record WatchfaceState := {
  ws_version : Q;
  ws_width : Q;
  ws_height : Q;
  ws_elements : list SerializedElement
}.

(** [SerializationManager.serialize], up to the call of [JSON.stringify];
    [getCanvasSize] is what the function of that name returns. *)
Definition serialize (getCanvasSize : Q * Q) (w : World) : WatchfaceState :=
  let size := getCanvasSize in
  {| ws_version := 1;
     ws_width := size.1;
     ws_height := size.2;
     ws_elements :=
       omap (λ el, toJSON <$> heap w !! el)
            (ZOrderManager.sortByZ (ZOrderManager.zIndex w)
               (ElementManager.getAll w)) |}.

End SerializationManager.

(** ** SelectionManager *)

Module SelectionManager.
Import SerializationManager.

Definition getSelected (w : World) : list nat := selected w.

Definition isSelected (element : nat) (w : World) : bool :=
  bool_decide (element ∈ selected w).

(** [Set.prototype.add] and [Set.prototype.delete]. *)
Definition set_add (element : nat) (s : list nat) : list nat :=
  if bool_decide (element ∈ s) then s else s ++ [element].

Definition set_delete (element : nat) (s : list nat) : list nat :=
  filter (λ r, r ≠ element) s.

Definition addToSelection (element : nat) (w : World) : World :=
  let w := with_selected (set_add element (selected w)) w in
  let w := updateSelectionVisuals w in
  emit (selection_changed (getSelected w)) w.

Definition deselect (element : nat) (w : World) : World :=
  let w := with_selected (set_delete element (selected w)) w in
  let w := updateSelectionVisuals w in
  emit (selection_changed (getSelected w)) w.

Definition clearSelection (w : World) : World :=
  match selected w with
  | [] => w
  | _ :: _ =>
      emit selection_cleared
        (with_selectionBoxVisible false (with_selected [] w))
  end.

Definition select (element : nat) (w : World) : World :=
  addToSelection element (clearSelection w).

Definition selectOnly (element : nat) (w : World) : World := select element w.

Definition deselectAll (w : World) : World := clearSelection w.

Definition selectAll (w : World) : World :=
  let w := foldl (λ w el,
                    match heap w !! el with
                    | Some e =>
                        if _interactable e
                        then with_selected (set_add el (selected w)) w else w
                    | None => w
                    end) w (ElementManager.getAll w) in
  let w := updateSelectionVisuals w in
  emit (selection_changed (getSelected w)) w.

Definition copySelected (w : World) : World :=
  with_clipboard (omap (λ el, toJSON <$> heap w !! el) (getSelected w)) w.

(** [data.id = generateUid(); data.x += 20; data.y += 20] *)
Definition pasted (id : string) (json : SerializedElement)
  : SerializedElement :=
  {| s_type := s_type json; s_id := id; s_x := s_x json + 20;
     s_y := s_y json + 20; s_width := s_width json;
     s_height := s_height json; s_rotation := s_rotation json;
     s_scaleX := s_scaleX json; s_scaleY := s_scaleY json;
     s_zIndex := s_zIndex json; s_visible := s_visible json;
     s_interactable := s_interactable json; s_opacity := s_opacity json;
     s_shapeParams := s_shapeParams json |}.

(** The loop of [pasteClipboard]; an exception leaves it. *)
Fixpoint pasteEntries (registry : gmap string ElementConstructor)
    (entries : list SerializedElement) (w : World) : World :=
  match entries with
  | [] => w
  | json :: rest =>
      let data := pasted (generateUid (platform w) (uidCalls w)) json in
      let w := with_uidCalls (S (uidCalls w)) w in
      match deserializeElement registry data w with
      | Threw w => w
      | Null w => pasteEntries registry rest w
      | Built el w =>
          pasteEntries registry rest
            (addToSelection el (ElementManager.add el w))
      end
  end.

Definition pasteClipboard (w : World) : World :=
  match clipboard w, serializationManager w with
  | [], _ => w
  | _ :: _, None => w
  | _ :: _, Some registry =>
      pasteEntries registry (clipboard w) (clearSelection w)
  end.

Definition deleteSelected (w : World) : World :=
  clearSelection (foldl (λ w el, ElementManager.remove el w) w (getSelected w)).



Definition boundsOverlap (a b : Bounds) : bool :=
  negb (Qltb (b_x a + b_width a) (b_x b)
        || Qltb (b_x b + b_width b) (b_x a)
        || Qltb (b_y a + b_height a) (b_y b)
        || Qltb (b_y b + b_height b) (b_y a)).

End SelectionManager.

(** ** FillMask *)


Module FillMask.


End FillMask.

(** ** GridPlugin *)


Module GridPlugin.



End GridPlugin.

(** ** Building scenes *)

(** The static builders of [ShapeElement]. *)
Definition ShapeElement_line (x1 y1 x2 y2 : Q) (w : World) : nat * World :=
  let minX := Qmin x1 x2 in
  let minY := Qmin y1 y2 in
  let '(el, w) := newElement
                    (ShapeElement (line (x1 - minX) (y1 - minY)
                                        (x2 - minX) (y2 - minY))) w in
  (el, set_y el minY (set_x el minX w)).


Definition ShapeElement_rectangle (x y width height : Q) (w : World)
  : nat * World :=
  let '(el, w) := newElement
                    (ShapeElement (rectangle width height)) w in
  (el, set_y el y (set_x el x w)).

(** The registry a [SerializationManager] is constructed with. *)
Definition standardRegistry : gmap string ElementConstructor :=
  <["shape" := ShapeCtor]> (<["image" := ImageCtor]> (<["text" := TextCtor]> ∅)).

(** An engine after [init], with no element and no plugin. *)
Definition newEngine (pl : Platform) : World :=
  {| platform := pl; heap := ∅; nextRef := 0%nat; uidCalls := 0%nat;
     _suppressActions := false; eventBus := []; undoRedo := None;
     elements := []; selected := []; clipboard := [];
     serializationManager := Some standardRegistry;
     selectionBoxVisible := false; contentRoot := None; dragState := None;
     activeElements := [] |}.

(** [engine.plugins.register(new UndoRedoPlugin())] *)
Definition registerUndoRedo (w : World) : World :=
  with_undoRedo
    (Some {| undoStack := []; redoStack := []; maxHistory := 100 |}) w.

(** The platform of the worked examples below: identifiers [e0], [e1], ...
    and a display object sized as serialized.  No example rotates, so the
    arc tangent is never asked for and is given a placeholder. *)
Definition examplePlatform : Platform :=
  {| Math_atan2 := λ _ _, 0;
     displaySize := λ data, (s_width data, s_height data);
     generateUid :=
       λ n, "e" +:+ String (Ascii.ascii_of_nat (48 + n)) EmptyString |}.

Definition pointer (x y : Q) : FederatedPointerEvent :=
  {| globalX := x; globalY := y; shiftKey := false |}.

(** Worked scenes.  [rectScene]: one 100 by 50 rectangle at (10, 10), added
    to the engine; it is object 0.  [selectedScene]: the same with the
    rectangle selected. *)
Definition rectScene : World := Eval vm_compute in
  ElementManager.add 0
    (ShapeElement_rectangle 10 10 100 50 (newEngine examplePlatform)).2.

Definition selectedScene : World := Eval vm_compute in
  SelectionManager.select 0 rectScene.

(** The rectangle of [rectScene]. *)
Definition rect0 : BaseElement :=
  {| el_id := "e0"; engine := true; _x := 10; _y := 10; _rotation := 0;
     _zIndex := 0; _visible := true; _interactable := true; _opacity := 1;
     subclass := ShapeElement (rectangle 100 50) |}.



(** What the loop bodies of [cancel], [handleMove] and [handleResize] do to
    the object they are at. *)
Definition restoredElement (start : StartProps) (e : BaseElement)
  : BaseElement :=
  assign P_y (VNum (start_y start)) (assign P_x (VNum (start_x start)) e).

Definition movedElement (dx dy : Q) (start : StartProps) (e : BaseElement)
  : BaseElement :=
  assign P_y (VNum (start_y start + dy))
    (assign P_x (VNum (start_x start + dx)) e).

Definition resizedElement (handle : HandlePosition) (constrain : bool)
    (dx dy : Q) (start : StartProps) (e : BaseElement) : BaseElement :=
  let '(newX, newY, newW, newH) :=
    TransformController.resized handle constrain dx dy start in
  assign P_height (VNum newH)
    (assign P_width (VNum newW)
       (assign P_y (VNum newY) (assign P_x (VNum newX) e))).



(** [resizeScene h]: the rectangle of [rectScene], selected, with a resize
    gesture started on handle [h] at the pointer position (0, 0). *)
Definition resizeScene (h : HandlePosition) : World :=
  TransformController.startResize [0%nat] h (pointer 0 0) rectScene.

(** The snapshot of that rectangle. *)
Definition rectStart : StartProps :=
  {| start_x := 10; start_y := 10; start_width := 100; start_height := 50;
     start_rotation := 0 |}.




(** [pairScene]: two rectangles, object 0 with stacking key 0 and object 1
    with stacking key 1.  [tieScene]: three rectangles added in the order
    0, 1, 2 with the stacking keys 1, 1 and 0. *)
Definition pairScene : World := Eval vm_compute in
  let w := (ShapeElement_rectangle 0 0 10 10 (newEngine examplePlatform)).2 in
  let w := ElementManager.add 0 w in
  let w := (ShapeElement_rectangle 20 0 10 10 w).2 in
  let w := ElementManager.add 1 w in
  set_zIndex 1 1 w.

Definition tieScene : World := Eval vm_compute in
  let w := (ShapeElement_rectangle 0 0 10 10 (newEngine examplePlatform)).2 in
  let w := ElementManager.add 0 w in
  let w := (ShapeElement_rectangle 20 0 10 10 w).2 in
  let w := ElementManager.add 1 w in
  let w := (ShapeElement_rectangle 40 0 10 10 w).2 in
  let w := ElementManager.add 2 w in
  set_zIndex 1 1 (set_zIndex 0 1 w).

(** Ascending order of stacking keys. *)
Definition leZ (z : nat -> Q) : relation nat := λ a b, z a <= z b.

(** The exchange of stacking keys at the end of [moveForward] and
    [moveBackward]: [other.zIndex = element.zIndex; element.zIndex = z]
    with [z] the key [other] had. *)
Definition swapKeys (element other : nat) (w : World) : World :=
  set_zIndex element (ZOrderManager.zIndex w other)
    (set_zIndex other (ZOrderManager.zIndex w element) w).

(** A scene in which every registered reference is a live object and no
    object is registered twice, and one whose stacking keys are pairwise
    distinct. *)
Definition sceneOk (w : World) : Prop :=
  NoDup (ElementManager.getAll w) /\
  forall r, r ∈ ElementManager.getAll w -> is_Some (heap w !! r).

Definition distinctKeys (w : World) : Prop :=
  forall a b,
    a ∈ ElementManager.getAll w -> b ∈ ElementManager.getAll w ->
    ZOrderManager.zIndex w a == ZOrderManager.zIndex w b -> a = b.

(** The object a [fromJSON] ends with: the constructed object after the
    assignments all three make. *)
Definition commonApplied (data : SerializedElement) (e : BaseElement)
  : BaseElement :=
  assign P_opacity (VNum (s_opacity data))
    (assign P_interactable (VBool (s_interactable data))
       (assign P_visible (VBool (s_visible data))
          (assign P_zIndex (VNum (s_zIndex data))
             (assign P_rotation (VNum (s_rotation data))
                (assign P_y (VNum (s_y data))
                   (assign P_x (VNum (s_x data)) e)))))).

(** The subclass part a constructor builds from serialized data, when it
    does not raise. *)
Definition builtSubclass (pl : Platform) (ctor : ElementConstructor)
    (data : SerializedElement) : option Subclass :=
  match ctor with
  | TextCtor => Some (TextElement (displaySize pl data).1
                                  (displaySize pl data).2)
  | ImageCtor => Some (ImageElement (displaySize pl data).1
                                    (displaySize pl data).2)
  | ShapeCtor => ShapeElement <$> s_shapeParams data
  end.

(** The clipboard entries a paste turns into objects, each with the
    reference of its object: the entries whose type the registry knows,
    numbered from the next fresh reference on. *)
Fixpoint pastedObjects (registry : gmap string ElementConstructor)
    (entries : list SerializedElement) (next : nat)
  : list (nat * SerializedElement) :=
  match entries with
  | [] => []
  | json :: rest =>
      match registry !! s_type json with
      | None => pastedObjects registry rest next
      | Some _ => (next, json) :: pastedObjects registry rest (S next)
      end
  end.

(** Entries as [copySelected] writes them: one that a registry resolves to
    [ShapeElement] carries shape parameters. *)
Definition entriesOk (registry : gmap string ElementConstructor)
    (entries : list SerializedElement) : Prop :=
  forall json, json ∈ entries ->
    registry !! s_type json = Some ShapeCtor -> is_Some (s_shapeParams json).

(** The identifiers [generateUid] returns from its call number [from] up to
    (not including) its call number [upto] are new to the scene and differ
    from one another. *)
Definition uidsFresh (w : World) (from upto : nat) : Prop :=
  (forall k, (from <= k < upto)%nat ->
             generateUid (platform w) k ∉ (elements w).*1) /\
  (forall j k, (from <= j < upto)%nat -> (from <= k < upto)%nat ->
               generateUid (platform w) j = generateUid (platform w) k ->
               j = k).


(** [lineScene]: the line from (10, 60) to (110, 10), added to the engine;
    its bounds are (10, 10, 100, 50). *)
Definition lineScene : World := Eval vm_compute in
  ElementManager.add 0
    (ShapeElement_line 10 60 110 10 (newEngine examplePlatform)).2.

(** The events a world has emitted since an earlier one. *)
Definition emittedSince (w0 w : World) : list Event :=
  drop (length (eventBus w0)) (eventBus w).

Definition isAction (ev : Event) : bool :=
  match ev with action_performed _ => true | _ => false end.

(** The end events of the three gestures. *)
Definition isEnd (ev : Event) : bool :=
  match ev with
  | interaction_dragEnd _ | interaction_resizeEnd _
  | interaction_rotateEnd _ => true
  | _ => false
  end.

(** The events of one setter call. *)
Definition setterEvents (el : nat) (p : Property) (v : Value) (w : World)
  : list Event :=
  match heap w !! el with
  | None => []
  | Some e =>
      match write p v e with
      | None => []
      | Some e' =>
          if engine e' then
            [element_changed el p (read p e) v]
            ++ (if _suppressActions w then []
                else [action_performed (mkAction el e' p (read p e) v)])
            ++ match p, v with
               | P_zIndex, VNum newZ => [element_zChanged el (_zIndex e) newZ]
               | _, _ => []
               end
          else []
      end
  end.

(** The map of [ElementManager] as its methods keep it: no id twice, and
    under each id a live object that has this id and is attached to the
    engine. *)
Definition keyedById (w : World) : Prop :=
  NoDup (elements w).*1 /\
  forall id r, (id, r) ∈ elements w ->
    exists e, heap w !! r = Some e /\ el_id e = id /\ engine e = true.

(** [strayScene]: [rectScene] and a second rectangle, object 1, built and
    not added to the engine. *)
Definition strayScene : World := Eval vm_compute in
  (ShapeElement_rectangle 20 0 10 10 rectScene).2.

(** The second rectangle of [strayScene]. *)
Definition stray1 : BaseElement :=
  {| el_id := "e1"; engine := false; _x := 20; _y := 0; _rotation := 0;
     _zIndex := 0; _visible := true; _interactable := true; _opacity := 1;
     subclass := ShapeElement (rectangle 10 10) |}.

(** The history of the undo plugin, both stacks together, is within
    [maxHistory]. *)
Definition historyBounded (w : World) : Prop :=
  match undoRedo w with
  | Some p =>
      (length (undoStack p) + length (redoStack p) <= maxHistory p)%nat
  | None => True
  end.

(** What the listener of the undo plugin makes of the events of a list. *)
Definition recorded (evs : list Event) (u : option UndoRedoPlugin)
  : option UndoRedoPlugin :=
  foldl (λ u ev,
           match ev with
           | action_performed a => onActionPerformed a <$> u
           | _ => u
           end) u evs.

(** [undoScene]: [rectScene] with the undo plugin registered. *)
Definition undoScene : World := Eval vm_compute in registerUndoRedo rectScene.

(** The objects of a list that are live have ids that differ from one
    another. *)
Definition distinctIds (els : list nat) (w : World) : Prop :=
  forall a b ea eb,
    a ∈ els -> b ∈ els ->
    heap w !! a = Some ea -> heap w !! b = Some eb ->
    el_id ea = el_id eb -> a = b.

(** The ['interaction:...'] events. *)
Definition isInteraction (ev : Event) : bool :=
  match ev with
  | interaction_dragStart _ _ _ | interaction_dragMove _ _ _
  | interaction_dragEnd _ | interaction_resizeStart _
  | interaction_resizeEnd _ | interaction_rotateStart _
  | interaction_rotateEnd _ => true
  | _ => false
  end.

(** The object a rotate step makes of an affected object: the rotation of
    the snapshot plus the angle the pointer has turned about the centre
    of the object since the start of the gesture. *)
Definition rotatedElement (atan2 : Q -> Q -> Q) (d : DragState)
    (px py : Q) (start : StartProps) (e : BaseElement) : BaseElement :=
  let cx := _x e + width e / 2 in
  let cy := _y e + height e / 2 in
  assign P_rotation
    (VNum (start_rotation start
           + (atan2 (py - cy) (px - cx)
              - atan2 (startY d - cy) (startX d - cx)))) e.


(** The properties [BaseElement] itself stores. *)
Definition baseProperty (p : Property) : bool :=
  match p with
  | P_width | P_height => false
  | _ => true
  end.

(** An object is the copy a paste makes of a clipboard entry: attached,
    moved by (20, 20), and otherwise with the fields of the entry. *)
Definition pastedFrom (json : SerializedElement) (e : BaseElement) : Prop :=
  engine e = true /\
  _x e == s_x json + 20 /\ _y e == s_y json + 20 /\
  _rotation e == s_rotation json /\ _zIndex e == s_zIndex json /\
  _visible e = s_visible json /\ _interactable e = s_interactable json /\
  _opacity e == s_opacity json.


(** * Properties *)

#[local] Arguments Qplus : simpl never.
#[local] Arguments Qminus : simpl never.
#[local] Arguments Qmult : simpl never.
#[local] Arguments Qdiv : simpl never.
#[local] Arguments Qopp : simpl never.
#[local] Arguments Qinv : simpl never.
#[local] Arguments Qabs : simpl never.
#[local] Arguments Qeq_bool : simpl never.
#[local] Arguments Qle_bool : simpl never.
#[local] Arguments Qltb : simpl never.

(** ** Numbers and arrays *)

Lemma Qltb_true a b : Qltb a b = true <-> a < b.
Proof.
  unfold Qltb. rewrite negb_true_iff. split; intros H.
  - apply Qnot_le_lt. intros Hle. apply Qle_bool_iff in Hle. congruence.
  - destruct (Qle_bool b a) eqn:E; [|reflexivity].
    apply Qle_bool_iff in E. lra.
Qed.

Lemma Qltb_false a b : Qltb a b = false <-> b <= a.
Proof.
  unfold Qltb. rewrite negb_false_iff. apply Qle_bool_iff.
Qed.

Lemma Qeq_bool_false a b : Qeq_bool a b = false <-> ~ a == b.
Proof.
  split.
  - intros H Heq. apply Qeq_bool_iff in Heq. congruence.
  - intros H. destruct (Qeq_bool a b) eqn:E; [|reflexivity].
    apply Qeq_bool_iff in E. contradiction.
Qed.

Lemma pop_push {A} (l : list A) a : pop (l ++ [a]) = Some (l, a).
Proof. unfold pop. rewrite rev_app_distr. simpl. by rewrite rev_involutive. Qed.

(** ** The marquee overlap test *)

Section Overlap.
Import SelectionManager.

Lemma boundsOverlap_true (a b : Bounds) :
  boundsOverlap a b = true <->
  ~ (right_ a < b_x b \/ right_ b < b_x a \/
     bottom_ a < b_y b \/ bottom_ b < b_y a).
Proof.
  unfold boundsOverlap, right_, bottom_.
  rewrite negb_true_iff, !orb_false_iff, !Qltb_false.
  split.
  - intros [[[H1 H2] H3] H4] [H|[H|[H|H]]]; lra.
  - intros H. repeat split; apply Qnot_lt_le; intros Hlt; apply H; auto.
Qed.

Lemma boundsOverlap_false (a b : Bounds) :
  boundsOverlap a b = false <->
  (right_ a < b_x b \/ right_ b < b_x a \/
   bottom_ a < b_y b \/ bottom_ b < b_y a).
Proof.
  unfold boundsOverlap, right_, bottom_.
  rewrite negb_false_iff, !orb_true_iff, !Qltb_true. tauto.
Qed.

(** C4, counterexample.  Two 10 by 10 rectangles side by side, the right
    edge of the first on the left edge of the second: the test answers
    that they overlap. *)
Lemma boundsOverlap_touching_counterexample :
  let a := {| b_x := 0; b_y := 0; b_width := 10; b_height := 10 |} in
  let b := {| b_x := 10; b_y := 0; b_width := 10; b_height := 10 |} in
  right_ a == b_x b /\ boundsOverlap a b = true.
Proof. split; reflexivity. Qed.

(** C4, as amended.  [boundsOverlap a b] holds exactly when none of the
    four separations [a.right < b.left], [b.right < a.left],
    [a.bottom < b.top], [b.bottom < a.top] holds.  Rectangles apart
    ([a.right < b.left]) do not overlap; rectangles with a positive-area
    intersection do; and the test is inclusive: rectangles of non-negative
    extent that touch exactly at an edge ([a.right == b.left]) and whose
    vertical extents meet do overlap. *)
Theorem boundsOverlap_inclusive (a b : Bounds) :
  (boundsOverlap a b = true <->
   ~ (right_ a < b_x b \/ right_ b < b_x a \/
      bottom_ a < b_y b \/ bottom_ b < b_y a))
  /\ (right_ a < b_x b -> boundsOverlap a b = false)
  /\ (Qmax (b_x a) (b_x b) < Qmin (right_ a) (right_ b) ->
      Qmax (b_y a) (b_y b) < Qmin (bottom_ a) (bottom_ b) ->
      boundsOverlap a b = true)
  /\ (right_ a == b_x b -> 0 <= b_width a -> 0 <= b_width b ->
      b_y a <= bottom_ b -> b_y b <= bottom_ a ->
      boundsOverlap a b = true).
Proof.
  split; [apply boundsOverlap_true|].
  split; [intros H; apply boundsOverlap_false; auto|].
  split.
  - intros Hx Hy. apply boundsOverlap_true.
    pose proof (Q.le_max_l (b_x a) (b_x b)).
    pose proof (Q.le_max_r (b_x a) (b_x b)).
    pose proof (Q.le_min_l (right_ a) (right_ b)).
    pose proof (Q.le_min_r (right_ a) (right_ b)).
    pose proof (Q.le_max_l (b_y a) (b_y b)).
    pose proof (Q.le_max_r (b_y a) (b_y b)).
    pose proof (Q.le_min_l (bottom_ a) (bottom_ b)).
    pose proof (Q.le_min_r (bottom_ a) (bottom_ b)).
    intros [?|[?|[?|?]]]; lra.
  - intros Ht Hwa Hwb H1 H2. apply boundsOverlap_true.
    unfold right_, bottom_ in *.
    intros [?|[?|[?|?]]]; lra.
Qed.

Lemma boundsOverlap_inclusive_witness :
  let a := {| b_x := 0; b_y := 0; b_width := 10; b_height := 10 |} in
  let b := {| b_x := 10; b_y := 0; b_width := 10; b_height := 10 |} in
  let c := {| b_x := 5; b_y := 5; b_width := 10; b_height := 10 |} in
  let d := {| b_x := 11; b_y := 0; b_width := 10; b_height := 10 |} in
  boundsOverlap a b = true /\ boundsOverlap a c = true /\
  boundsOverlap a d = false.
Proof.
  intros a b c d. split; [|split].
  - apply (proj2 (proj2 (proj2 (boundsOverlap_inclusive a b))));
      vm_compute; congruence.
  - apply (proj1 (proj2 (proj2 (boundsOverlap_inclusive a c))));
      vm_compute; reflexivity.
  - apply (proj1 (proj2 (boundsOverlap_inclusive a d)));
      vm_compute; reflexivity.
Defined.

End Overlap.

(** ** What [emit] leaves alone *)

Arguments emit : simpl never.

Ltac emit_frame :=
  intros; unfold emit, updateSelectionVisuals;
  repeat (case_match; simpl); reflexivity.

Lemma emit_heap ev w : heap (emit ev w) = heap w.
Proof. emit_frame. Qed.
Lemma emit_platform ev w : platform (emit ev w) = platform w.
Proof. emit_frame. Qed.
Lemma emit_nextRef ev w : nextRef (emit ev w) = nextRef w.
Proof. emit_frame. Qed.
Lemma emit_uidCalls ev w : uidCalls (emit ev w) = uidCalls w.
Proof. emit_frame. Qed.
Lemma emit_suppressActions ev w :
  _suppressActions (emit ev w) = _suppressActions w.
Proof. emit_frame. Qed.
Lemma emit_eventBus ev w : eventBus (emit ev w) = eventBus w ++ [ev].
Proof. emit_frame. Qed.
Lemma emit_elements ev w : elements (emit ev w) = elements w.
Proof. emit_frame. Qed.
Lemma emit_clipboard ev w : clipboard (emit ev w) = clipboard w.
Proof. emit_frame. Qed.
Lemma emit_serializationManager ev w :
  serializationManager (emit ev w) = serializationManager w.
Proof. emit_frame. Qed.
Lemma emit_contentRoot ev w : contentRoot (emit ev w) = contentRoot w.
Proof. emit_frame. Qed.
Lemma emit_dragState ev w : dragState (emit ev w) = dragState w.
Proof. emit_frame. Qed.
Lemma emit_activeElements ev w : activeElements (emit ev w) = activeElements w.
Proof. emit_frame. Qed.
Lemma emit_selected ev w :
  selected (emit ev w) =
  match ev with
  | element_removed element => filter (λ r, r ≠ element) (selected w)
  | _ => selected w
  end.
Proof. emit_frame. Qed.
Lemma emit_undoRedo ev w :
  undoRedo (emit ev w) =
  match ev with
  | action_performed action => onActionPerformed action <$> undoRedo w
  | _ => undoRedo w
  end.
Proof.
  unfold emit, updateSelectionVisuals.
  destruct ev; simpl; repeat (case_match; simpl); try reflexivity; congruence.
Qed.

(** ** Selecting twice, deselecting what is not selected *)

Section Selection.
Import SelectionManager.

Lemma set_add_member (el : nat) (s : list nat) : el ∈ s -> set_add el s = s.
Proof. intros H. unfold set_add. by rewrite bool_decide_eq_true_2. Qed.

Lemma set_delete_absent (el : nat) (s : list nat) :
  el ∉ s -> set_delete el s = s.
Proof.
  unfold set_delete. induction s as [|a s IH]; intros H; [reflexivity|].
  apply not_elem_of_cons in H as [Hne Hs].
  rewrite filter_cons_True by congruence. by rewrite IH.
Qed.

(** C5, counterexample.  The rectangle of [selectedScene] is selected;
    selecting it again leaves the selection as it is and puts a further
    ['selection:changed'] on the bus. *)
Lemma addToSelection_event_counterexample :
  0%nat ∈ selected selectedScene /\
  selected (addToSelection 0 selectedScene) = selected selectedScene /\
  eventBus (addToSelection 0 selectedScene) =
    eventBus selectedScene ++ [selection_changed [0%nat]] /\
  eventBus (addToSelection 0 selectedScene) <> eventBus selectedScene.
Proof.
  split; [vm_compute; apply list_elem_of_here|].
  split; [vm_compute; reflexivity|]. split; [vm_compute; reflexivity|].
  vm_compute. discriminate.
Qed.

(** C5, as amended.  [addToSelection] of an element that is selected, and
    [deselect] of one that is not, leave the selection set as it is; each
    still emits one ['selection:changed'] event, carrying the unchanged
    selection. *)
Theorem selection_idempotent_but_notified (w : World) (el : nat) :
  (el ∈ selected w ->
   selected (addToSelection el w) = selected w /\
   eventBus (addToSelection el w) =
     eventBus w ++ [selection_changed (selected w)])
  /\
  (el ∉ selected w ->
   selected (deselect el w) = selected w /\
   eventBus (deselect el w) =
     eventBus w ++ [selection_changed (selected w)]).
Proof.
  split; intros H.
  - unfold addToSelection, getSelected.
    rewrite emit_selected, emit_eventBus. simpl.
    rewrite set_add_member by done. done.
  - unfold deselect, getSelected.
    rewrite emit_selected, emit_eventBus. simpl.
    rewrite set_delete_absent by done. done.
Qed.

Lemma selection_idempotent_but_notified_witness :
  (selected (addToSelection 0 selectedScene) = selected selectedScene /\
   eventBus (addToSelection 0 selectedScene) =
     eventBus selectedScene ++ [selection_changed (selected selectedScene)])
  /\
  (selected (deselect 7 selectedScene) = selected selectedScene /\
   eventBus (deselect 7 selectedScene) =
     eventBus selectedScene ++ [selection_changed (selected selectedScene)]).
Proof.
  split.
  - apply (proj1 (selection_idempotent_but_notified selectedScene 0)).
    vm_compute. apply list_elem_of_here.
  - apply (proj2 (selection_idempotent_but_notified selectedScene 7)).
    apply (bool_decide_unpack _). vm_compute. exact I.
Defined.

(** ** Pasting from an empty clipboard *)

(** C10.  With an empty clipboard, or with no serializer configured,
    [pasteClipboard] changes nothing: selection, scene, clipboard and every
    other part of the state are as before and nothing is emitted. *)
Theorem pasteClipboard_empty_noop (w : World) :
  clipboard w = [] \/ serializationManager w = None ->
  pasteClipboard w = w.
Proof.
  unfold pasteClipboard. intros [H|H]; rewrite H; [reflexivity|].
  by destruct (clipboard w).
Qed.

Lemma pasteClipboard_empty_noop_witness :
  selected selectedScene = [0%nat] /\
  pasteClipboard selectedScene = selectedScene.
Proof.
  split; [reflexivity|].
  apply pasteClipboard_empty_noop. left. reflexivity.
Defined.

End Selection.

(** ** The setters *)

Create Rewrite HintDb frame.
#[local] Hint Rewrite emit_heap emit_platform emit_nextRef emit_uidCalls
  emit_suppressActions emit_eventBus emit_elements emit_clipboard
  emit_serializationManager emit_contentRoot emit_dragState
  emit_activeElements emit_selected emit_undoRedo : frame.

Ltac setter_frame :=
  intros; unfold setProperty, emitChange;
  repeat (case_match; simpl); autorewrite with frame; simpl;
  try reflexivity.

Lemma write_identity p v e e' :
  write p v e = Some e' -> el_id e' = el_id e /\ engine e' = engine e.
Proof.
  destruct p, v; simpl; try discriminate; repeat case_match;
    intros [= <-]; done.
Qed.

Lemma assign_el_id p v e : el_id (assign p v e) = el_id e.
Proof.
  unfold assign. destruct (write p v e) eqn:E; simpl; [|done].
  by apply write_identity in E as [-> _].
Qed.

Lemma assign_engine p v e : engine (assign p v e) = engine e.
Proof.
  unfold assign. destruct (write p v e) eqn:E; simpl; [|done].
  by apply write_identity in E as [_ ->].
Qed.

Lemma emitChange_heap el p o n w : heap (emitChange el p o n w) = heap w.
Proof. setter_frame. Qed.

Lemma setProperty_heap el p v w :
  heap (setProperty el p v w) =
  match heap w !! el with
  | Some e => <[el := assign p v e]> (heap w)
  | None => heap w
  end.
Proof.
  unfold setProperty, assign.
  destruct (heap w !! el) as [e|] eqn:He; [|done].
  destruct (write p v e) as [e'|] eqn:Hw; simpl.
  - assert (heap (emitChange el p (read p e) v
                    (with_heap (<[el:=e']> (heap w)) w))
            = <[el:=e']> (heap w)) as H by (by rewrite emitChange_heap).
    repeat case_match; by rewrite ?emit_heap.
  - by rewrite insert_id.
Qed.

Lemma setProperty_lookup el p v w e :
  heap w !! el = Some e ->
  heap (setProperty el p v w) !! el = Some (assign p v e).
Proof. intros H. rewrite setProperty_heap, H. apply lookup_insert_eq. Qed.

Lemma setProperty_lookup_ne el el' p v w :
  el ≠ el' -> heap (setProperty el p v w) !! el' = heap w !! el'.
Proof.
  intros H. rewrite setProperty_heap. case_match; [|done].
  by apply lookup_insert_ne.
Qed.

Lemma setProperty_platform el p v w :
  platform (setProperty el p v w) = platform w.
Proof. setter_frame. Qed.
Lemma setProperty_nextRef el p v w :
  nextRef (setProperty el p v w) = nextRef w.
Proof. setter_frame. Qed.
Lemma setProperty_uidCalls el p v w :
  uidCalls (setProperty el p v w) = uidCalls w.
Proof. setter_frame. Qed.
Lemma setProperty_suppressActions el p v w :
  _suppressActions (setProperty el p v w) = _suppressActions w.
Proof. setter_frame. Qed.
Lemma setProperty_elements el p v w :
  elements (setProperty el p v w) = elements w.
Proof. setter_frame. Qed.
Lemma setProperty_clipboard el p v w :
  clipboard (setProperty el p v w) = clipboard w.
Proof. setter_frame. Qed.
Lemma setProperty_serializationManager el p v w :
  serializationManager (setProperty el p v w) = serializationManager w.
Proof. setter_frame. Qed.
Lemma setProperty_contentRoot el p v w :
  contentRoot (setProperty el p v w) = contentRoot w.
Proof. setter_frame. Qed.
Lemma setProperty_dragState el p v w :
  dragState (setProperty el p v w) = dragState w.
Proof. setter_frame. Qed.
Lemma setProperty_activeElements el p v w :
  activeElements (setProperty el p v w) = activeElements w.
Proof. setter_frame. Qed.

Lemma setProperty_eventBus el p v w :
  eventBus (setProperty el p v w) = eventBus w ++ setterEvents el p v w.
Proof.
  unfold setProperty, setterEvents, emitChange.
  destruct (heap w !! el) as [e|] eqn:He; [|by rewrite app_nil_r].
  destruct (write p v e) as [e'|] eqn:Hw; [|by rewrite app_nil_r].
  simpl. rewrite lookup_insert_eq.
  destruct (engine e') eqn:Hen; simpl.
  - rewrite emit_suppressActions. simpl.
    destruct (_suppressActions w) eqn:Hs;
      destruct p, v; simpl; autorewrite with frame; simpl;
      rewrite <- ?app_assoc; reflexivity.
  - destruct p, v; simpl; by rewrite ?app_nil_r.
Qed.

Lemma emittedSince_app w0 w evs :
  eventBus w = eventBus w0 ++ evs -> emittedSince w0 w = evs.
Proof. intros H. unfold emittedSince. by rewrite H, drop_app_length. Qed.

(** ** Undo and redo of one mutation *)

Ltac q2p :=
  repeat match goal with
  | H : Qeq_bool _ _ = true |- _ => apply Qeq_bool_iff in H
  | H : Qeq_bool _ _ = false |- _ => apply Qeq_bool_false in H
  | H : _ || _ = true |- _ => apply orb_true_iff in H; destruct H
  | H : _ || _ = false |- _ => apply orb_false_iff in H; destruct H
  | H : negb _ = true |- _ => apply negb_true_iff in H
  | H : negb _ = false |- _ => apply negb_false_iff in H
  end.

Ltac qabsurd :=
  exfalso; q2p;
  solve [ match goal with H : ~ (_ == _) |- _ => apply H; lra end
        | discriminate | congruence ].

(** Case analysis on every guard of a setter in sight. *)
Ltac guards :=
  repeat match goal with
  | H : context [Qeq_bool ?a ?b] |- _ =>
      lazymatch type of H with
      | Qeq_bool _ _ = _ => fail
      | _ => let E := fresh "G" in destruct (Qeq_bool a b) eqn:E; simpl in H
      end
  | |- context [Qeq_bool ?a ?b] =>
      let E := fresh "G" in destruct (Qeq_bool a b) eqn:E; simpl
  | H : Some _ = Some _ |- _ => injection H as H; subst
  | H : None = Some _ |- _ => discriminate H
  end.

Lemma half_twice (a : Q) : a / 2 * 2 == a.
Proof. field. Qed.

(** Brings in [a / 2 * 2 == a] for every such term in sight. *)
Ltac halves :=
  repeat match goal with
  | |- context [?a / 2 * 2] =>
      lazymatch goal with
      | _ : a / 2 * 2 == a |- _ => fail
      | _ => pose proof (half_twice a)
      end
  | _ : context [?a / 2 * 2] |- _ =>
      lazymatch goal with
      | _ : a / 2 * 2 == a |- _ => fail
      | _ => pose proof (half_twice a)
      end
  end.

Lemma Veq_refl v : Veq v v.
Proof. destruct v; simpl; [lra|done]. Qed.

Lemma assign_roundtrip p v e e1 :
  write p v e = Some e1 ->
  restorable p e v = true ->
  Veq (read p (assign p v (assign p (read p e) e1))) (read p e1) /\
  Veq (read p (assign p (read p e) (assign p v e1))) (read p e).
Proof.
  intros Hw Hr. destruct e as [id en x y rot z vis int op sub].
  destruct p, v; simpl in Hw, Hr; try discriminate.
  all: try (destruct sub as [wd ht|wd ht|[lx1 ly1 lx2 ly2|r|rw rh|r sa ea]];
            simpl in Hw, Hr; try discriminate).
  all: unfold assign, write, write_width, write_height, width, height in *;
       simpl in *.
  all: try (destruct vis, b; simpl in *; try discriminate;
            injection Hw as <-; simpl; done).
  all: try (destruct int, b; simpl in *; try discriminate;
            injection Hw as <-; simpl; done).
  all: guards; simpl; unfold width, height; simpl; guards; simpl;
       try (split; lra); try qabsurd.
  all: q2p; halves; first [split; lra | qabsurd].
Qed.

Lemma action_undo_heap a w :
  heap (action_undo a w) =
  match heap w !! a_element a with
  | Some e => <[a_element a := assign (a_property a) (a_oldValue a) e]> (heap w)
  | None => heap w
  end.
Proof.
  unfold action_undo.
  match goal with
  | |- heap (if ?c then with_suppressActions false ?x else ?x) = _ =>
      replace (heap (if c then with_suppressActions false x else x))
        with (heap x) by (by destruct c)
  end.
  rewrite setProperty_heap. by destruct (attached (a_element a) w).
Qed.

Lemma action_redo_heap a w :
  heap (action_redo a w) =
  match heap w !! a_element a with
  | Some e => <[a_element a := assign (a_property a) (a_newValue a) e]> (heap w)
  | None => heap w
  end.
Proof.
  unfold action_redo.
  match goal with
  | |- heap (if ?c then with_suppressActions false ?x else ?x) = _ =>
      replace (heap (if c then with_suppressActions false x else x))
        with (heap x) by (by destruct c)
  end.
  rewrite setProperty_heap. by destruct (attached (a_element a) w).
Qed.

Lemma action_undo_lookup a w el e :
  a_element a = el ->
  heap w !! el = Some e ->
  heap (action_undo a w) !! el
  = Some (assign (a_property a) (a_oldValue a) e).
Proof.
  intros <- H. rewrite action_undo_heap, H. apply lookup_insert_eq.
Qed.

Lemma action_redo_lookup a w el e :
  a_element a = el ->
  heap w !! el = Some e ->
  heap (action_redo a w) !! el
  = Some (assign (a_property a) (a_newValue a) e).
Proof.
  intros <- H. rewrite action_redo_heap, H. apply lookup_insert_eq.
Qed.

(** The action a setter call records, if it records one. *)
Lemma setterEvents_action el p v w e a :
  heap w !! el = Some e ->
  action_performed a ∈ setterEvents el p v w ->
  exists e1, write p v e = Some e1 /\ a = mkAction el e1 p (read p e) v.
Proof.
  intros He. unfold setterEvents. rewrite He.
  destruct (write p v e) as [e1|]; [|by intros ?%elem_of_nil].
  destruct (engine e1); [|by intros ?%elem_of_nil].
  intros Hin. exists e1. split; [done|].
  apply elem_of_cons in Hin as [Hin|Hin]; [discriminate|].
  apply elem_of_app in Hin as [Hin|Hin].
  - destruct (_suppressActions w); [by apply elem_of_nil in Hin|].
    apply list_elem_of_singleton in Hin. congruence.
  - destruct p, v; simpl in Hin;
      try (by apply elem_of_nil in Hin).
    apply list_elem_of_singleton in Hin. discriminate.
Qed.

(** C1, counterexample.  The rectangle of [rectScene] is 100 wide.  Setting
    its width to 0 records the action [a] (width, 100 to 0).  Running
    [a.redo()] and then [a.undo()] leaves the width at 0: the setter of a
    shape ignores an assignment while the extent is 0. *)
Lemma undo_zero_width_counterexample :
  let w1 := set_width 0 0 rectScene in
  let a := {| a_type := "property-change";
              description := "Change width on shape e0";
              a_element := 0%nat; a_property := P_width;
              a_oldValue := VNum 100; a_newValue := VNum 0 |} in
  get P_width 0%nat rectScene = Some (VNum 100) /\
  emittedSince rectScene w1 =
    [element_changed 0%nat P_width (VNum 100) (VNum 0); action_performed a] /\
  get P_width 0%nat (action_undo a (action_redo a w1)) = Some (VNum 0) /\
  ~ Veq (VNum 0) (VNum 100).
Proof. repeat split; try reflexivity. vm_compute. discriminate. Qed.

(** C1, as amended.  Let a setter call on an element record the action
    [a], a mutation other than a size change of a line or a size change
    of another shape to the extent 0.  Then [a.undo(); a.redo()] leaves the
    property at its value after the mutation, and [a.redo(); a.undo()]
    leaves it at its value before the mutation. *)
Theorem undo_redo_restore (w : World) (el : nat) (e : BaseElement)
    (p : Property) (v : Value) (a : UndoableAction) :
  heap w !! el = Some e ->
  action_performed a ∈ emittedSince w (setProperty el p v w) ->
  restorable p e v = true ->
  let w1 := setProperty el p v w in
  (exists post v1,
      get p el w1 = Some post /\
      get p el (action_redo a (action_undo a w1)) = Some v1 /\
      Veq v1 post)
  /\
  (exists v2,
      get p el (action_undo a (action_redo a w1)) = Some v2 /\
      Veq v2 (read p e)).
Proof.
  intros He Ha Hr w1.
  rewrite (emittedSince_app w (setProperty el p v w) _
             (setProperty_eventBus el p v w)) in Ha.
  destruct (setterEvents_action _ _ _ _ _ _ He Ha) as (e1 & Hw & ->).
  assert (heap w1 !! el = Some e1) as H1.
  { unfold w1. rewrite (setProperty_lookup _ _ _ _ _ He).
    unfold assign. by rewrite Hw. }
  destruct (assign_roundtrip _ _ _ _ Hw Hr) as [Hur Hru].
  unfold get. split.
  - eexists _, _. rewrite H1. split; [reflexivity|].
    erewrite action_redo_lookup;
      [|reflexivity|by apply action_undo_lookup].
    split; [reflexivity|]. exact Hur.
  - eexists.
    erewrite action_undo_lookup;
      [|reflexivity|by apply action_redo_lookup].
    split; [reflexivity|]. exact Hru.
Qed.

Lemma undo_redo_restore_witness :
  let a := {| a_type := "property-change";
              description := "Change x on shape e0";
              a_element := 0%nat; a_property := P_x;
              a_oldValue := VNum 10; a_newValue := VNum 25 |} in
  let w1 := set_x 0 25 rectScene in
  (exists post v1,
      get P_x 0%nat w1 = Some post /\
      get P_x 0%nat (action_redo a (action_undo a w1)) = Some v1 /\
      Veq v1 post)
  /\
  (exists v2,
      get P_x 0%nat (action_undo a (action_redo a w1)) = Some v2 /\
      Veq v2 (VNum 10)).
Proof.
  intros a w1.
  apply (undo_redo_restore rectScene 0%nat rect0 P_x (VNum 25) a).
  - vm_compute. reflexivity.
  - vm_compute. apply list_elem_of_further, list_elem_of_here.
  - reflexivity.
Defined.

(** ** The guarded setters *)




Lemma setProperty_noop el p v w e :
  heap w !! el = Some e -> write p v e = None -> setProperty el p v w = w.
Proof. intros He Hw. unfold setProperty. by rewrite He, Hw. Qed.

(** A replayed assignment: the flag is set, or the element has no engine. *)
Lemma setterEvents_replay el p v w :
  _suppressActions w = true \/ attached el w = false ->
  filter isAction (setterEvents el p v w) = [] /\
  undoRedo (setProperty el p v w) = undoRedo w.
Proof.
  intros H.
  unfold setterEvents, setProperty, emitChange, attached in *.
  destruct (heap w !! el) as [e|] eqn:He; [|done].
  destruct (write p v e) as [e'|] eqn:Hw; [|done].
  simpl. rewrite lookup_insert_eq.
  destruct (write_identity _ _ _ _ Hw) as [_ Hen]. rewrite Hen.
  destruct (engine e) eqn:Hen'; simpl.
  - destruct H as [H|H]; [|discriminate].
    rewrite emit_suppressActions. simpl. rewrite H.
    split; [by destruct p, v|].
    destruct p, v; by autorewrite with frame.
  - by destruct p, v.
Qed.

Lemma action_undo_eventBus a w :
  exists evs, eventBus (action_undo a w) = eventBus w ++ evs /\
              filter isAction evs = [] /\
              undoRedo (action_undo a w) = undoRedo w.
Proof.
  unfold action_undo.
  set (w1 := if attached (a_element a) w
             then with_suppressActions true w else w).
  set (w2 := setProperty _ _ _ w1).
  exists (setterEvents (a_element a) (a_property a) (a_oldValue a) w1).
  assert (_suppressActions w1 = true \/ attached (a_element a) w1 = false)
    as Hrep.
  { unfold w1. destruct (attached (a_element a) w) eqn:E; [by left|by right]. }
  destruct (setterEvents_replay (a_element a) (a_property a) (a_oldValue a)
              w1 Hrep) as [Hf Hu].
  assert (eventBus w1 = eventBus w /\ undoRedo w1 = undoRedo w) as [Hb Hp]
    by (unfold w1; by destruct (attached (a_element a) w)).
  split; [|split; [done|]].
  - transitivity (eventBus w2); [by destruct (attached (a_element a) w2)|].
    unfold w2. by rewrite setProperty_eventBus, Hb.
  - transitivity (undoRedo w2); [by destruct (attached (a_element a) w2)|].
    unfold w2. by rewrite Hu.
Qed.

Lemma action_redo_eventBus a w :
  exists evs, eventBus (action_redo a w) = eventBus w ++ evs /\
              filter isAction evs = [] /\
              undoRedo (action_redo a w) = undoRedo w.
Proof.
  unfold action_redo.
  set (w1 := if attached (a_element a) w
             then with_suppressActions true w else w).
  set (w2 := setProperty _ _ _ w1).
  exists (setterEvents (a_element a) (a_property a) (a_newValue a) w1).
  assert (_suppressActions w1 = true \/ attached (a_element a) w1 = false)
    as Hrep.
  { unfold w1. destruct (attached (a_element a) w) eqn:E; [by left|by right]. }
  destruct (setterEvents_replay (a_element a) (a_property a) (a_newValue a)
              w1 Hrep) as [Hf Hu].
  assert (eventBus w1 = eventBus w /\ undoRedo w1 = undoRedo w) as [Hb Hp]
    by (unfold w1; by destruct (attached (a_element a) w)).
  split; [|split; [done|]].
  - transitivity (eventBus w2); [by destruct (attached (a_element a) w2)|].
    unfold w2. by rewrite setProperty_eventBus, Hb.
  - transitivity (undoRedo w2); [by destruct (attached (a_element a) w2)|].
    unfold w2. by rewrite Hu.
Qed.

Lemma replay_records_nothing a w :
  filter isAction (eventBus (action_undo a w)) = filter isAction (eventBus w)
  /\ undoRedo (action_undo a w) = undoRedo w
  /\ filter isAction (eventBus (action_redo a w)) = filter isAction (eventBus w)
  /\ undoRedo (action_redo a w) = undoRedo w.
Proof.
  destruct (action_undo_eventBus a w) as (evs & -> & Hf & ->).
  destruct (action_redo_eventBus a w) as (evs' & -> & Hf' & ->).
  rewrite !filter_app, Hf, Hf', !app_nil_r. done.
Qed.

(** [UndoRedoPlugin.undo] and [redo] run the closure of the action on top
    of the stack they pop, move the action to the other stack and record
    nothing. *)
Lemma plugin_undo_runs_action w p us a :
  undoRedo w = Some p ->
  undoStack p = us ++ [a] ->
  heap (UndoRedo.undo w) = heap (action_undo a w) /\
  undoRedo (UndoRedo.undo w)
    = Some {| undoStack := us; redoStack := redoStack p ++ [a];
              maxHistory := maxHistory p |} /\
  _suppressActions (UndoRedo.undo w) = false /\
  filter isAction (eventBus (UndoRedo.undo w)) = filter isAction (eventBus w).
Proof.
  intros Hp Hus. unfold UndoRedo.undo. rewrite Hp, Hus, pop_push.
  set (w2 := with_suppressActions true
               (with_undoRedo (Some (UndoRedo.with_undoStack us p)) w)).
  destruct (replay_records_nothing a w2) as (He & Hu & _ & _).
  cbn [undoRedo with_suppressActions]. rewrite Hu. simpl.
  repeat split.
  - by rewrite !action_undo_heap.
  - exact He.
Qed.

Lemma plugin_redo_runs_action w p rs a :
  undoRedo w = Some p ->
  redoStack p = rs ++ [a] ->
  heap (UndoRedo.redo w) = heap (action_redo a w) /\
  undoRedo (UndoRedo.redo w)
    = Some {| undoStack := undoStack p ++ [a]; redoStack := rs;
              maxHistory := maxHistory p |} /\
  _suppressActions (UndoRedo.redo w) = false /\
  filter isAction (eventBus (UndoRedo.redo w)) = filter isAction (eventBus w).
Proof.
  intros Hp Hrs. unfold UndoRedo.redo. rewrite Hp, Hrs, pop_push.
  set (w2 := with_suppressActions true
               (with_undoRedo (Some (UndoRedo.with_redoStack rs p)) w)).
  destruct (replay_records_nothing a w2) as (_ & _ & He & Hu).
  cbn [undoRedo with_suppressActions]. rewrite Hu. simpl.
  repeat split.
  - by rewrite !action_redo_heap.
  - exact He.
Qed.




(** ** Gestures *)

Section Gestures.
Import TransformController.

Arguments includes : simpl never.


Ltac qcases :=
  repeat match goal with
  | |- context [Qltb ?a ?b] =>
      let E := fresh "L" in destruct (Qltb a b) eqn:E; simpl
  end;
  repeat match goal with
  | H : Qltb _ _ = true |- _ => apply Qltb_true in H
  | H : Qltb _ _ = false |- _ => apply Qltb_false in H
  end.

Lemma setProperty_heap_Some el p v w e :
  heap w !! el = Some e ->
  heap (setProperty el p v w) = <[el := assign p v e]> (heap w).
Proof. intros H. by rewrite setProperty_heap, H. Qed.

Lemma setProperty_isEnd el p v w :
  filter isEnd (eventBus (setProperty el p v w)) = filter isEnd (eventBus w).
Proof.
  rewrite setProperty_eventBus, filter_app.
  replace (filter isEnd (setterEvents el p v w)) with (@nil Event);
    [by rewrite app_nil_r|].
  unfold setterEvents. repeat case_match; reflexivity.
Qed.

(** *** Loops over the active elements *)

Section Loop.
Context (d : DragState) (body : nat -> StartProps -> World -> World).

Lemma loop_frame {A} (proj : World -> A) (els : list nat) (w : World) :
  (forall el start w, proj (body el start w) = proj w) ->
  proj (foldl (withStart d body) w els) = proj w.
Proof.
  intros Hbody. revert w. induction els as [|a els IH]; intros w; [done|].
  simpl. rewrite IH. unfold withStart. repeat case_match; auto.
Qed.

Context (f : StartProps -> BaseElement -> BaseElement).
Hypothesis body_heap : forall el start w e,
  heap w !! el = Some e -> heap (body el start w) = <[el := f start e]> (heap w).

Lemma withStart_lookup_ne w a el :
  a ≠ el -> heap (withStart d body w a) !! el = heap w !! el.
Proof.
  intros Hne. unfold withStart.
  destruct (heap w !! a) as [e|] eqn:He; [|done].
  destruct (elementStartProps d !! el_id e) as [start|]; [|done].
  rewrite (body_heap _ _ _ _ He). by apply lookup_insert_ne.
Qed.

Lemma loop_lookup_other (els : list nat) (w : World) (el : nat) :
  el ∉ els ->
  heap (foldl (withStart d body) w els) !! el = heap w !! el.
Proof.
  revert w. induction els as [|a els IH]; intros w Hel; [done|].
  apply not_elem_of_cons in Hel as [Hne Hel]. simpl.
  rewrite IH by done. by apply withStart_lookup_ne.
Qed.

Lemma loop_lookup (els : list nat) (w : World) (el : nat) e start :
  NoDup els -> el ∈ els ->
  heap w !! el = Some e ->
  elementStartProps d !! el_id e = Some start ->
  heap (foldl (withStart d body) w els) !! el = Some (f start e).
Proof.
  revert w. induction els as [|a els IH]; intros w Hnd Hel He Hs.
  - by apply elem_of_nil in Hel.
  - apply NoDup_cons in Hnd as [Ha Hnd]. simpl.
    apply elem_of_cons in Hel as [->|Hel].
    + rewrite loop_lookup_other by done.
      unfold withStart. rewrite He, Hs, (body_heap _ _ _ _ He).
      apply lookup_insert_eq.
    + apply IH; try done.
      rewrite withStart_lookup_ne; [done|].
      intros ->. contradiction.
Qed.

End Loop.

(** *** What the loop bodies do to an object *)

Lemma restore_body_heap el start w e :
  heap w !! el = Some e ->
  heap (set_y el (start_y start) (set_x el (start_x start) w))
  = <[el := restoredElement start e]> (heap w).
Proof.
  intros He. unfold set_x, set_y, restoredElement.
  rewrite (setProperty_heap_Some el P_y _ _
             (assign P_x (VNum (start_x start)) e)).
  - rewrite (setProperty_heap_Some _ _ _ _ _ He). apply insert_insert_eq.
  - by apply setProperty_lookup.
Qed.

Lemma move_body_heap dx dy el start w e :
  heap w !! el = Some e ->
  heap (set_y el (start_y start + dy) (set_x el (start_x start + dx) w))
  = <[el := movedElement dx dy start e]> (heap w).
Proof.
  intros He. unfold set_x, set_y, movedElement.
  rewrite (setProperty_heap_Some el P_y _ _
             (assign P_x (VNum (start_x start + dx)) e)).
  - rewrite (setProperty_heap_Some _ _ _ _ _ He). apply insert_insert_eq.
  - by apply setProperty_lookup.
Qed.


Lemma restoredElement_spec start e :
  let e' := restoredElement start e in
  _x e' == start_x start /\ _y e' == start_y start /\
  subclass e' = subclass e /\ _rotation e' = _rotation e /\
  el_id e' = el_id e.
Proof.
  destruct e as [id en x y rot z vis int op sub].
  unfold restoredElement, assign, write. simpl.
  guards; simpl; guards; simpl; q2p; repeat split; try lra; done.
Qed.

Lemma resizedElement_el_id handle constrain dx dy start e :
  el_id (resizedElement handle constrain dx dy start e) = el_id e.
Proof.
  unfold resizedElement.
  destruct (resized handle constrain dx dy start) as [[[nx ny] nw] nh].
  by rewrite !assign_el_id.
Qed.


(** *** Cancelling a gesture *)

(** C3, counterexample.  A resize of the rectangle of [rectScene] by its
    top-left handle, pointer moved by (20, 10), then [cancel()]: the
    snapshot is (10, 10, 100, 50), the rectangle ends at (10, 10) with
    width 80 and height 40.  Only x and y were put back. *)
Lemma cancel_resize_counterexample :
  let w1 := onPointerMove (pointer 20 10) (resizeScene top_left) in
  (dragState w1 ≫= λ d, elementStartProps d !! "e0") = Some rectStart /\
  startProps <$> heap w1 !! 0%nat =
    Some {| start_x := 30; start_y := 20; start_width := 80;
            start_height := 40; start_rotation := 0 |} /\
  startProps <$> heap (cancel w1) !! 0%nat =
    Some {| start_x := 10; start_y := 10; start_width := 80;
            start_height := 40; start_rotation := 0 |} /\
  ~ 80 == start_width rectStart.
Proof.
  repeat split; try (vm_compute; reflexivity). vm_compute. discriminate.
Qed.

(** C3, as amended.  For every active gesture (move, resize or rotate) over
    any set of objects, [cancel()] puts the x and the y of every affected
    object back to its start-of-gesture snapshot and leaves its width,
    height and rotation as the gesture left them; it clears the gesture
    state and emits no end event of a gesture.  (The affected objects are
    the members of the selection [Set], hence distinct.) *)
Theorem cancel_restores_position (w : World) (d : DragState) :
  dragState w = Some d ->
  NoDup (activeElements w) ->
  dragState (cancel w) = None /\
  activeElements (cancel w) = [] /\
  filter isEnd (eventBus (cancel w)) = filter isEnd (eventBus w) /\
  forall el e start,
    el ∈ activeElements w ->
    heap w !! el = Some e ->
    elementStartProps d !! el_id e = Some start ->
    exists e',
      heap (cancel w) !! el = Some e' /\
      _x e' == start_x start /\ _y e' == start_y start /\
      subclass e' = subclass e /\ _rotation e' = _rotation e.
Proof.
  intros Hd Hnd. unfold cancel. rewrite Hd. simpl.
  split; [done|]. split; [done|]. split.
  - apply (loop_frame d _ (λ w, filter isEnd (eventBus w))).
    intros el start w0. unfold set_x, set_y.
    by rewrite !setProperty_isEnd.
  - intros el e start Hel He Hs.
    exists (restoredElement start e). split.
    + eapply (loop_lookup d _ restoredElement); try done.
      intros. by apply restore_body_heap.
    + destruct (restoredElement_spec start e) as (?&?&?&?&?). done.
Qed.

Lemma cancel_restores_position_witness :
  let w1 := onPointerMove (pointer 20 10) (resizeScene top_left) in
  dragState (cancel w1) = None /\
  exists e',
    heap (cancel w1) !! 0%nat = Some e' /\
    _x e' == 10 /\ _y e' == 10 /\
    subclass e' = ShapeElement (rectangle 80 40) /\ _rotation e' = 0.
Proof.
  intros w1.
  destruct (cancel_restores_position w1
              {| mode := mode_resize; startX := 0; startY := 0;
                 handlePosition := Some top_left;
                 elementStartProps := {["e0" := rectStart]} |})
    as (Hd & _ & _ & Hel).
  - vm_compute. reflexivity.
  - vm_compute. apply NoDup_singleton.
  - split; [exact Hd|].
    apply (Hel 0%nat
             {| el_id := "e0"; engine := true; _x := 30; _y := 20;
                _rotation := 0; _zIndex := 0; _visible := true;
                _interactable := true; _opacity := 1;
                subclass := ShapeElement (rectangle 80 40) |} rectStart).
    + vm_compute. apply list_elem_of_here.
    + vm_compute. reflexivity.
    + vm_compute. reflexivity.
Defined.

(** *** Resizing *)








(** A line whose start point is not its top-left corner: the height
    setter stores [ly2 = 60] and the height reads back as
    [|ly2 - ly1| = 10]. *)
Lemma resize_line_example :
  let w0 := startResize [0%nat] bottom_right (pointer 0 0) lineScene in
  let w1 := onPointerMove (pointer 20 10) w0 in
  (dragState w0 ≫= λ d, elementStartProps d !! "e0") = Some rectStart /\
  startProps <$> heap w1 !! 0%nat =
    Some {| start_x := 10; start_y := 10; start_width := 120;
            start_height := 10; start_rotation := 0 |}.
Proof. split; vm_compute; reflexivity. Qed.



End Gestures.

(** ** Stacking order *)

Section ZOrder.
Import ZOrderManager.

#[local] Set Warnings "-clear-no-such-hyp".

Lemma insertByZ_perm z a l : insertByZ z a l ≡ₚ a :: l.
Proof.
  induction l as [|b l IH]; simpl; [done|].
  destruct (Qle_bool (z a) (z b)); [done|].
  rewrite IH. apply Permutation_swap.
Qed.

Lemma sortByZ_perm z l : sortByZ z l ≡ₚ l.
Proof.
  induction l as [|a l IH]; simpl; [done|].
  by rewrite insertByZ_perm, IH.
Qed.

Lemma insertByZ_sorted z a l :
  StronglySorted (leZ z) l -> StronglySorted (leZ z) (insertByZ z a l).
Proof.
  induction l as [|b l IH]; simpl; intros Hs.
  - repeat constructor.
  - apply StronglySorted_cons in Hs as [Hb Hs].
    destruct (Qle_bool (z a) (z b)) eqn:E.
    + apply Qle_bool_iff in E.
      apply StronglySorted_cons. split.
      * constructor; [done|].
        eapply Forall_impl; [exact Hb|]. unfold leZ. simpl. intros; lra.
      * by apply StronglySorted_cons.
    + assert (z b <= z a) as Hba.
      { destruct (Qlt_le_dec (z b) (z a)) as [?|Hle]; [lra|].
        apply Qle_bool_iff in Hle. congruence. }
      apply StronglySorted_cons. split; [|by apply IH].
      rewrite insertByZ_perm. by constructor.
Qed.

Lemma sortByZ_sorted z l : StronglySorted (leZ z) (sortByZ z l).
Proof.
  induction l as [|a l IH]; simpl; [constructor|].
  by apply insertByZ_sorted.
Qed.

Lemma insertByZ_ext z z' a l :
  (forall x, x ∈ a :: l -> z' x == z x) ->
  insertByZ z' a l = insertByZ z a l.
Proof.
  induction l as [|b l IH]; simpl; intros H; [done|].
  assert (z' a == z a) as Ha by (apply H; left).
  assert (z' b == z b) as Hb by (apply H; right; left).
  rewrite (Qleb_comp _ _ Ha _ _ Hb).
  destruct (Qle_bool (z a) (z b)); [done|].
  f_equal. apply IH. intros x Hx. apply H.
  apply elem_of_cons in Hx as [->|Hx]; [left|do 2 right]; done.
Qed.

Lemma sortByZ_ext z z' l :
  (forall x, x ∈ l -> z' x == z x) -> sortByZ z' l = sortByZ z l.
Proof.
  induction l as [|a l IH]; simpl; intros H; [done|].
  rewrite IH by (intros; apply H; set_solver).
  apply insertByZ_ext. intros x Hx. apply H.
  rewrite <- (sortByZ_perm z l). done.
Qed.

(** Sortedness only looks at the keys, and only up to [==]. *)
Lemma sorted_keys z l :
  StronglySorted (leZ z) l <-> StronglySorted Qle (z <$> l).
Proof.
  induction l as [|a l IH]; simpl.
  - split; constructor.
  - rewrite !StronglySorted_cons, IH, Forall_fmap. done.
Qed.

Lemma sorted_Qeq k1 k2 :
  Forall2 Qeq k1 k2 -> StronglySorted Qle k1 -> StronglySorted Qle k2.
Proof.
  induction 1 as [|a b k1 k2 Hab Hk IH]; [done|].
  rewrite !StronglySorted_cons. intros [Ha Hs]. split; [|by apply IH].
  clear IH Hs. induction Hk as [|c c' k1 k2 Hc Hk IH]; [done|].
  apply Forall_cons in Ha as [Hac Ha].
  constructor; [lra|by apply IH].
Qed.

Lemma keys_Qeq z z' (l : list nat) :
  (forall x, x ∈ l -> z' x == z x) -> Forall2 Qeq (z <$> l) (z' <$> l).
Proof.
  induction l as [|a l IH]; intros H; simpl; [constructor|].
  constructor; [symmetry; apply H; set_solver|].
  apply IH. intros; apply H; set_solver.
Qed.

(** Exchanging the keys of two neighbours of the sorted order exchanges
    them in the sorted order. *)
Lemma sort_swap z z' l l1 a b l2 :
  NoDup l ->
  (forall x y, x ∈ l -> y ∈ l -> z x == z y -> x = y) ->
  sortByZ z l = l1 ++ a :: b :: l2 ->
  z' a == z b -> z' b == z a ->
  (forall x, x ∈ l -> x ≠ a -> x ≠ b -> z' x == z x) ->
  sortByZ z' l = l1 ++ b :: a :: l2.
Proof.
  intros Hnd Hinj Hs Ha Hb Hother.
  pose proof (sortByZ_perm z l) as Hperm. rewrite Hs in Hperm.
  assert (NoDup (l1 ++ a :: b :: l2)) as Hnd' by (by rewrite Hperm).
  apply NoDup_app in Hnd' as (Hnd1 & Hdisj & Hnd2).
  apply NoDup_cons in Hnd2 as [Hab Hnd2].
  apply NoDup_cons in Hnd2 as [Hb2 Hnd2].
  assert (a ≠ b) as Hne by set_solver.
  assert (forall x, x ∈ l1 -> z' x == z x) as H1.
  { intros x Hx. apply Hother; [rewrite <- Hperm|..]; set_solver. }
  assert (forall x, x ∈ l2 -> z' x == z x) as H2.
  { intros x Hx. apply Hother; [rewrite <- Hperm|..]; set_solver. }
  apply (StronglySorted_unique_strong (leZ z')).
  - intros x y Hx Hy Hxy Hyx.
    rewrite sortByZ_perm in Hx. rewrite <- Hperm in Hx.
    assert (y ∈ l1 ++ a :: b :: l2) as Hy' by set_solver.
    assert (forall u, u ∈ l1 ++ a :: b :: l2 ->
              exists u', u' ∈ l /\ z' u == z u' /\
                         (u = a -> u' = b) /\ (u = b -> u' = a) /\
                         (u ≠ a -> u ≠ b -> u' = u)) as Hsig.
    { intros u Hu.
      destruct (decide (u = a)) as [->|Hua].
      { exists b. rewrite <- Hperm. split; [set_solver|]. split; [done|].
        repeat split; intros; congruence. }
      destruct (decide (u = b)) as [->|Hub].
      { exists a. rewrite <- Hperm. split; [set_solver|]. split; [done|].
        repeat split; intros; congruence. }
      exists u. rewrite <- Hperm. split; [done|].
      split; [apply Hother; [by rewrite <- Hperm|done..]|].
      repeat split; intros; congruence. }
    destruct (Hsig x Hx) as (x' & Hx'l & Hzx & Hxa & Hxb & Hxo).
    destruct (Hsig y Hy') as (y' & Hy'l & Hzy & Hya & Hyb & Hyo).
    unfold leZ in Hxy, Hyx.
    assert (x' = y') as Heq by (apply Hinj; [done..|lra]).
    destruct (decide (x = a)) as [Ex|Ex];
      destruct (decide (x = b)) as [Ex2|Ex2];
      destruct (decide (y = a)) as [Ey|Ey];
      destruct (decide (y = b)) as [Ey2|Ey2];
      try specialize (Hxa Ex); try specialize (Hxb Ex2);
      try specialize (Hxo Ex Ex2); try specialize (Hya Ey);
      try specialize (Hyb Ey2); try specialize (Hyo Ey Ey2);
      congruence.
  - apply sortByZ_sorted.
  - apply sorted_keys.
    assert (StronglySorted Qle (z <$> l1 ++ a :: b :: l2)) as Hsz.
    { apply sorted_keys. rewrite <- Hs. apply sortByZ_sorted. }
    eapply sorted_Qeq; [|exact Hsz].
    rewrite !fmap_app, !fmap_cons.
    apply Forall2_app; [by apply keys_Qeq|].
    constructor; [by symmetry|]. constructor; [by symmetry|].
    by apply keys_Qeq.
  - rewrite sortByZ_perm, <- Hperm.
    apply Permutation_app_head, Permutation_swap.
Qed.

Lemma indexOf_app el l1 l2 :
  el ∉ l1 -> indexOf el (l1 ++ el :: l2) = Some (length l1).
Proof.
  induction l1 as [|a l1 IH]; simpl; intros H.
  - by rewrite Nat.eqb_refl.
  - apply not_elem_of_cons in H as [Hne H].
    destruct (Nat.eqb_spec a el) as [->|_]; [done|].
    by rewrite IH.
Qed.

Lemma zIndex_set_same a v w :
  is_Some (heap w !! a) -> zIndex (set_zIndex a v w) a == v.
Proof.
  intros [e He]. unfold zIndex, set_zIndex.
  rewrite (setProperty_lookup _ _ _ _ _ He).
  unfold assign, write.
  destruct (Qeq_bool (_zIndex e) v) eqn:E; simpl; [|reflexivity].
  by apply Qeq_bool_iff.
Qed.

Lemma zIndex_set_ne a b v w :
  a ≠ b -> zIndex (set_zIndex a v w) b = zIndex w b.
Proof.
  intros Hne. unfold zIndex, set_zIndex.
  by rewrite setProperty_lookup_ne.
Qed.

Lemma set_zIndex_is_Some a v w r :
  is_Some (heap w !! r) -> is_Some (heap (set_zIndex a v w) !! r).
Proof.
  intros H. unfold set_zIndex.
  destruct (decide (a = r)) as [->|Hne].
  - destruct H as [e He]. by rewrite (setProperty_lookup _ _ _ _ _ He).
  - by rewrite setProperty_lookup_ne.
Qed.

Lemma swapKeys_spec a b w :
  a ≠ b -> is_Some (heap w !! a) -> is_Some (heap w !! b) ->
  zIndex (swapKeys a b w) a == zIndex w b /\
  zIndex (swapKeys a b w) b == zIndex w a /\
  (forall x, x ≠ a -> x ≠ b -> zIndex (swapKeys a b w) x = zIndex w x) /\
  ElementManager.getAll (swapKeys a b w) = ElementManager.getAll w /\
  (forall r, is_Some (heap w !! r) -> is_Some (heap (swapKeys a b w) !! r)).
Proof.
  intros Hne Ha Hb. unfold swapKeys. repeat split.
  - apply zIndex_set_same. by apply set_zIndex_is_Some.
  - rewrite zIndex_set_ne by done. by apply zIndex_set_same.
  - intros x Hxa Hxb. rewrite !zIndex_set_ne; done.
  - unfold ElementManager.getAll, set_zIndex.
    by rewrite !setProperty_elements.
  - intros r Hr. by do 2 apply set_zIndex_is_Some.
Qed.

Lemma zOrder_swapKeys w l1 a b l2 :
  sceneOk w -> distinctKeys w ->
  zOrder w = l1 ++ a :: b :: l2 ->
  zOrder (swapKeys a b w) = l1 ++ b :: a :: l2 /\
  zOrder (swapKeys b a w) = l1 ++ b :: a :: l2.
Proof.
  intros [Hnd Hlive] Hdist Hz.
  pose proof (sortByZ_perm (zIndex w) (ElementManager.getAll w)) as Hperm.
  fold (getSortedByZ w) in Hperm. fold (zOrder w) in Hperm.
  rewrite Hz in Hperm.
  assert (NoDup (l1 ++ a :: b :: l2)) as Hnd' by (by rewrite Hperm).
  apply NoDup_app in Hnd' as (_ & _ & Hnd2).
  apply NoDup_cons in Hnd2 as [Hab _].
  assert (a ≠ b) as Hne by set_solver.
  assert (a ∈ ElementManager.getAll w) as Ha
    by (rewrite <- Hperm; set_solver).
  assert (b ∈ ElementManager.getAll w) as Hb
    by (rewrite <- Hperm; set_solver).
  destruct (swapKeys_spec a b w Hne (Hlive a Ha) (Hlive b Hb))
    as (H1 & H2 & H3 & H4 & _).
  destruct (swapKeys_spec b a w (not_eq_sym Hne) (Hlive b Hb) (Hlive a Ha))
    as (H1' & H2' & H3' & H4' & _).
  unfold zOrder, getSortedByZ in *. rewrite H4, H4'. split.
  - eapply sort_swap; try done.
    intros x _ Hxa Hxb. by rewrite H3.
  - eapply sort_swap; try done.
    intros x _ Hxa Hxb. by rewrite H3'.
Qed.

Lemma zOrder_swapKeys_twice w a b :
  a ≠ b -> is_Some (heap w !! a) -> is_Some (heap w !! b) ->
  zOrder (swapKeys a b (swapKeys a b w)) = zOrder w.
Proof.
  intros Hne Ha Hb.
  destruct (swapKeys_spec a b w Hne Ha Hb) as (H1 & H2 & H3 & H4 & H5).
  destruct (swapKeys_spec a b (swapKeys a b w) Hne (H5 a Ha) (H5 b Hb))
    as (H1' & H2' & H3' & H4' & _).
  unfold zOrder, getSortedByZ. rewrite H4', H4.
  apply sortByZ_ext. intros x _.
  destruct (decide (x = a)) as [->|Hxa]; [by rewrite H1', H2|].
  destruct (decide (x = b)) as [->|Hxb]; [by rewrite H2', H1|].
  by rewrite H3', H3.
Qed.

Lemma moveForward_swap w l1 el next l2 :
  el ∉ l1 ->
  zOrder w = l1 ++ el :: next :: l2 ->
  moveForward el w = swapKeys el next w.
Proof.
  intros Hel Hz. unfold moveForward. unfold zOrder in Hz. rewrite Hz.
  rewrite indexOf_app by done.
  rewrite length_app. simpl.
  destruct (Nat.leb_spec (length l1 + S (S (length l2)) - 1) (length l1));
    [lia|].
  rewrite lookup_app_r by lia.
  replace (length l1 + 1 - length l1)%nat with 1%nat by lia.
  reflexivity.
Qed.

Lemma moveBackward_swap w l1 prev el l2 :
  el ∉ l1 -> el ≠ prev ->
  zOrder w = l1 ++ prev :: el :: l2 ->
  moveBackward el w = swapKeys el prev w.
Proof.
  intros Hel Hne Hz. unfold moveBackward. unfold zOrder in Hz. rewrite Hz.
  replace (l1 ++ prev :: el :: l2) with ((l1 ++ [prev]) ++ el :: l2)
    by (by rewrite <- app_assoc).
  rewrite indexOf_app.
  - rewrite length_app. simpl.
    replace (length l1 + 1)%nat with (S (length l1)) by lia.
    rewrite <- app_assoc. simpl.
    rewrite lookup_app_r by lia.
    replace (length l1 - length l1)%nat with 0%nat by lia.
    reflexivity.
  - intros [H|H%list_elem_of_singleton]%elem_of_app; done.
Qed.

Lemma zOrder_NoDup w : sceneOk w -> NoDup (zOrder w).
Proof.
  intros [Hnd _]. unfold zOrder, getSortedByZ. by rewrite sortByZ_perm.
Qed.

Lemma zOrder_live w r : sceneOk w -> r ∈ zOrder w -> is_Some (heap w !! r).
Proof.
  intros [_ Hlive] Hr. apply Hlive.
  unfold zOrder, getSortedByZ in Hr. by rewrite sortByZ_perm in Hr.
Qed.

(** C8, counterexample.  In [pairScene] object 1 is on top: [moveForward]
    does nothing and [moveBackward] then moves it below object 0.  In
    [tieScene] objects 0 and 1 share the key 1 and object 2 has key 0:
    [moveForward] on object 2 gives it the key 1 and the stable sort then
    puts it above both, and [moveBackward] exchanges the equal keys of
    objects 1 and 2, which changes nothing. *)
Lemma move_roundtrip_counterexample :
  zOrder pairScene = [0; 1]%nat /\
  zOrder (moveBackward 1 (moveForward 1 pairScene)) = [1; 0]%nat /\
  zOrder tieScene = [2; 0; 1]%nat /\
  zOrder (moveBackward 2 (moveForward 2 tieScene)) = [0; 1; 2]%nat /\
  zOrder (moveBackward 1 (moveForward 1 pairScene)) <> zOrder pairScene /\
  zOrder (moveBackward 2 (moveForward 2 tieScene)) <> zOrder tieScene.
Proof.
  repeat split; try (vm_compute; reflexivity); vm_compute; discriminate.
Qed.

(** C8, as amended.  In a scene whose stacking keys are pairwise distinct:
    [moveForward] on an element that is not the topmost exchanges its key
    with the key of the next element in ascending key order, which
    exchanges the two in the z-order sequence and keeps every other key,
    and [moveBackward] on it then restores the z-order sequence of all
    objects; likewise [moveBackward] on an element that is not the
    bottommost, followed by [moveForward].  [moveForward] on the topmost
    element and [moveBackward] on the bottommost are no-ops. *)
Theorem move_roundtrip (w : World) (el other : nat) (l1 l2 : list nat) :
  sceneOk w -> distinctKeys w ->
  (zOrder w = l1 ++ el :: other :: l2 ->
   zOrder (moveForward el w) = l1 ++ other :: el :: l2 /\
   zIndex (moveForward el w) el == zIndex w other /\
   zIndex (moveForward el w) other == zIndex w el /\
   (forall x, x ≠ el -> x ≠ other ->
              zIndex (moveForward el w) x = zIndex w x) /\
   zOrder (moveBackward el (moveForward el w)) = zOrder w)
  /\
  (zOrder w = l1 ++ other :: el :: l2 ->
   zOrder (moveBackward el w) = l1 ++ el :: other :: l2 /\
   zIndex (moveBackward el w) el == zIndex w other /\
   zIndex (moveBackward el w) other == zIndex w el /\
   (forall x, x ≠ el -> x ≠ other ->
              zIndex (moveBackward el w) x = zIndex w x) /\
   zOrder (moveForward el (moveBackward el w)) = zOrder w)
  /\
  (zOrder w = l1 ++ [el] -> moveForward el w = w)
  /\
  (zOrder w = el :: l2 -> moveBackward el w = w).
Proof.
  intros Hok Hdist.
  pose proof (zOrder_NoDup w Hok) as Hnd.
  split; [|split; [|split]].
  - intros Hz. rewrite Hz in Hnd.
    apply NoDup_app in Hnd as (_ & Hdisj & Hnd2).
    apply NoDup_cons in Hnd2 as [Hab _].
    assert (el ∉ l1) as Hel by (intros H; eapply Hdisj; [done|left]).
    assert (el ≠ other) as Hne by (intros ->; apply Hab; left).
    assert (is_Some (heap w !! el)) as Hlel
      by (apply zOrder_live; [done|]; rewrite Hz; set_solver).
    assert (is_Some (heap w !! other)) as Hlot
      by (apply zOrder_live; [done|]; rewrite Hz; set_solver).
    rewrite (moveForward_swap w l1 el other l2 Hel Hz).
    destruct (zOrder_swapKeys w l1 el other l2 Hok Hdist Hz) as [Hz' _].
    destruct (swapKeys_spec el other w Hne Hlel Hlot)
      as (H1 & H2 & H3 & _ & _).
    repeat split; try done.
    rewrite (moveBackward_swap _ l1 other el l2 Hel Hne Hz').
    by apply zOrder_swapKeys_twice.
  - intros Hz. rewrite Hz in Hnd.
    apply NoDup_app in Hnd as (_ & Hdisj & Hnd2).
    apply NoDup_cons in Hnd2 as [Hab _].
    assert (el ∉ l1) as Hel by (intros H; eapply Hdisj; [done|set_solver]).
    assert (el ≠ other) as Hne by (intros ->; apply Hab; left).
    assert (is_Some (heap w !! el)) as Hlel
      by (apply zOrder_live; [done|]; rewrite Hz; set_solver).
    assert (is_Some (heap w !! other)) as Hlot
      by (apply zOrder_live; [done|]; rewrite Hz; set_solver).
    rewrite (moveBackward_swap w l1 other el l2 Hel Hne Hz).
    destruct (zOrder_swapKeys w l1 other el l2 Hok Hdist Hz) as [_ Hz'].
    destruct (swapKeys_spec el other w Hne Hlel Hlot)
      as (H1 & H2 & H3 & _ & _).
    repeat split; try done.
    rewrite (moveForward_swap _ l1 el other l2 Hel Hz').
    by apply zOrder_swapKeys_twice.
  - intros Hz. rewrite Hz in Hnd.
    apply NoDup_app in Hnd as (_ & Hdisj & _).
    assert (el ∉ l1) as Hel by (intros H; eapply Hdisj; [done|left]).
    unfold moveForward. unfold zOrder in Hz. rewrite Hz.
    rewrite indexOf_app by done. rewrite length_app. simpl.
    destruct (Nat.leb_spec (length l1 + 1 - 1) (length l1)); [done|lia].
  - intros Hz. unfold moveBackward. unfold zOrder in Hz. rewrite Hz.
    simpl. by rewrite Nat.eqb_refl.
Qed.

Lemma pairScene_ok : sceneOk pairScene /\ distinctKeys pairScene.
Proof.
  split; [split|].
  - vm_compute. repeat constructor; set_solver.
  - intros r Hr. vm_compute in Hr.
    apply elem_of_cons in Hr as [->|Hr];
      [|apply list_elem_of_singleton in Hr as ->]; vm_compute; eauto.
  - intros a b Ha Hb. vm_compute in Ha, Hb.
    apply elem_of_cons in Ha as [->|Ha];
      [|apply list_elem_of_singleton in Ha as ->];
      (apply elem_of_cons in Hb as [->|Hb];
        [|apply list_elem_of_singleton in Hb as ->]);
      vm_compute; intros H; try reflexivity; discriminate.
Qed.

Lemma move_roundtrip_witness :
  zOrder (moveBackward 0 (moveForward 0 pairScene)) = zOrder pairScene /\
  zOrder (moveForward 1 (moveBackward 1 pairScene)) = zOrder pairScene.
Proof.
  destruct pairScene_ok as [Hok Hdist]. split.
  - apply (proj1 (move_roundtrip pairScene 0 1 [] [] Hok Hdist)).
    vm_compute. reflexivity.
  - apply (proj1 (proj2 (move_roundtrip pairScene 1 0 [] [] Hok Hdist))).
    vm_compute. reflexivity.
Defined.

End ZOrder.

(** ** Pasting *)

Section Paste.
Import SerializationManager SelectionManager.

#[local] Set Warnings "-clear-no-such-hyp".
#[local] Arguments assign : simpl never.
#[local] Arguments commonApplied : simpl never.
#[local] Arguments constructed : simpl never.
#[local] Arguments pasteEntries : simpl never.

Lemma with_heap_id w : with_heap (heap w) w = w.
Proof. by destruct w. Qed.

(** A setter on an object that has no engine only writes the field. *)
Lemma setProperty_detached el p v w h e :
  engine e = false ->
  setProperty el p v (with_heap (<[el := e]> h) w)
  = with_heap (<[el := assign p v e]> h) w.
Proof.
  intros Hen. unfold setProperty, assign. simpl.
  rewrite lookup_insert_eq.
  destruct (write p v e) as [e'|] eqn:Hw; simpl; [|done].
  destruct (write_identity _ _ _ _ Hw) as [_ Hen'].
  unfold emitChange. simpl. rewrite lookup_insert_eq, Hen', Hen. simpl.
  rewrite insert_insert_eq. by destruct p, v.
Qed.

Lemma applyCommon_detached el data w h e :
  engine e = false ->
  applyCommon el data (with_heap (<[el := e]> h) w)
  = with_heap (<[el := commonApplied data e]> h) w.
Proof.
  intros Hen. unfold applyCommon, commonApplied, set_x, set_y, set_rotation,
    set_zIndex, set_visible, set_interactable, set_opacity.
  repeat (rewrite setProperty_detached by (by rewrite ?assign_engine)).
  reflexivity.
Qed.

Lemma assign_x_other p v e : p ≠ P_x -> _x (assign p v e) = _x e.
Proof.
  intros Hp. unfold assign.
  destruct p, v; unfold write; try done; repeat case_match; done.
Qed.

Lemma assign_y_other p v e : p ≠ P_y -> _y (assign p v e) = _y e.
Proof.
  intros Hp. unfold assign.
  destruct p, v; unfold write; try done; repeat case_match; done.
Qed.

Lemma assign_x_same v e : _x (assign P_x (VNum v) e) == v.
Proof.
  unfold assign, write.
  destruct (Qeq_bool (_x e) v) eqn:E; simpl; [|reflexivity].
  by apply Qeq_bool_iff.
Qed.

Lemma assign_y_same v e : _y (assign P_y (VNum v) e) == v.
Proof.
  unfold assign, write.
  destruct (Qeq_bool (_y e) v) eqn:E; simpl; [|reflexivity].
  by apply Qeq_bool_iff.
Qed.

Lemma commonApplied_spec data e :
  _x (commonApplied data e) == s_x data /\
  _y (commonApplied data e) == s_y data /\
  el_id (commonApplied data e) = el_id e /\
  engine (commonApplied data e) = engine e.
Proof.
  unfold commonApplied. rewrite !assign_el_id, !assign_engine.
  repeat split.
  - rewrite !assign_x_other by done. apply assign_x_same.
  - rewrite !(assign_y_other P_opacity), !(assign_y_other P_interactable),
      !(assign_y_other P_visible), !(assign_y_other P_zIndex),
      !(assign_y_other P_rotation) by done.
    apply assign_y_same.
Qed.

Lemma fromJSON_built ctor data w s :
  builtSubclass (platform w) ctor data = Some s ->
  fromJSON ctor data w =
  Built (nextRef w)
    (with_heap
       (<[nextRef w :=
            commonApplied data
              (constructed (generateUid (platform w) (uidCalls w)) s)]>
          (heap w))
       (with_nextRef (S (nextRef w)) (with_uidCalls (S (uidCalls w)) w))).
Proof.
  unfold fromJSON, builtSubclass, newElement.
  destruct ctor; simpl.
  - intros [= <-]. destruct (displaySize (platform w) data) as [wd ht].
    simpl. by rewrite applyCommon_detached.
  - intros [= <-]. destruct (displaySize (platform w) data) as [wd ht].
    simpl. by rewrite applyCommon_detached.
  - destruct (s_shapeParams data) as [params|]; simpl; [|done].
    intros [= <-]. by rewrite applyCommon_detached.
Qed.

Lemma add_fresh el w e :
  heap w !! el = Some e ->
  el_id e ∉ (elements w).*1 ->
  ElementManager.add el w =
  emit (element_added el)
    (with_heap (<[el := with_engine true e]> (heap w))
       (with_elements (elements w ++ [(el_id e, el)]) w)).
Proof.
  intros He Hid. unfold ElementManager.add, ElementManager.has.
  rewrite He. by rewrite bool_decide_eq_false_2.
Qed.

Lemma addToSelection_frame el w :
  heap (addToSelection el w) = heap w /\
  platform (addToSelection el w) = platform w /\
  nextRef (addToSelection el w) = nextRef w /\
  uidCalls (addToSelection el w) = uidCalls w /\
  elements (addToSelection el w) = elements w /\
  selected (addToSelection el w) = set_add el (selected w).
Proof.
  unfold addToSelection, getSelected, updateSelectionVisuals.
  autorewrite with frame. done.
Qed.


Lemma paste_skip (registry : gmap string ElementConstructor) json rest w :
  registry !! s_type json = None ->
  pasteEntries registry (json :: rest) w
  = pasteEntries registry rest (with_uidCalls (S (uidCalls w)) w).
Proof.
  intros Hreg. unfold pasteEntries; fold pasteEntries.
  unfold deserializeElement.
  change (s_type (pasted _ json)) with (s_type json). by rewrite Hreg.
Qed.

Lemma builtSubclass_ok (registry : gmap string ElementConstructor) pl json
    id ctor :
  registry !! s_type json = Some ctor ->
  (registry !! s_type json = Some ShapeCtor -> is_Some (s_shapeParams json)) ->
  is_Some (builtSubclass pl ctor (pasted id json)).
Proof.
  intros Hreg Hok. destruct ctor; simpl; try by eexists.
  destruct (Hok Hreg) as [params ->]. by eexists.
Qed.



Lemma clearSelection_frame w :
  selected (clearSelection w) = [] /\
  heap (clearSelection w) = heap w /\
  platform (clearSelection w) = platform w /\
  nextRef (clearSelection w) = nextRef w /\
  uidCalls (clearSelection w) = uidCalls w /\
  elements (clearSelection w) = elements w.
Proof.
  unfold clearSelection. destruct (selected w) eqn:E; [done|].
  autorewrite with frame. done.
Qed.





End Paste.

(** ** The element map *)

Section Scene.
Import ElementManager.

#[local] Set Warnings "-clear-no-such-hyp".

Lemma has_true id w : has id w = true <-> id ∈ (elements w).*1.
Proof. unfold has. apply bool_decide_eq_true. Qed.

Lemma has_false id w : has id w = false <-> id ∉ (elements w).*1.
Proof. unfold has. apply bool_decide_eq_false. Qed.

Lemma filter_all {A} (P : A -> Prop) `{!forall x, Decision (P x)}
    (l : list A) :
  Forall P l -> filter P l = l.
Proof.
  induction 1 as [|a l Ha Hl IH]; [done|].
  rewrite filter_cons_True by done. by rewrite IH.
Qed.

Lemma filter_none {A} (P : A -> Prop) `{!forall x, Decision (P x)}
    (l : list A) :
  Forall (λ x, ¬ P x) l -> filter P l = [].
Proof.
  induction 1 as [|a l Ha Hl IH]; [done|].
  by rewrite filter_cons_False.
Qed.

Lemma add_elements el w :
  elements (add el w) =
  match heap w !! el with
  | Some e => if has (el_id e) w then elements w
              else elements w ++ [(el_id e, el)]
  | None => elements w
  end.
Proof.
  unfold add. destruct (heap w !! el) as [e|]; [|done].
  destruct (has (el_id e) w); [done|]. by rewrite emit_elements.
Qed.

Lemma add_heap el w :
  heap (add el w) =
  match heap w !! el with
  | Some e => if has (el_id e) w then heap w
              else <[el := with_engine true e]> (heap w)
  | None => heap w
  end.
Proof.
  unfold add. destruct (heap w !! el) as [e|]; [|done].
  destruct (has (el_id e) w); [done|]. by rewrite emit_heap.
Qed.

Lemma remove_elements el w :
  elements (remove el w) =
  match heap w !! el with
  | Some e => filter (λ kv, kv.1 ≠ el_id e) (elements w)
  | None => elements w
  end.
Proof.
  unfold remove. destruct (heap w !! el) as [e|]; [|done].
  destruct (has (el_id e) w) eqn:Hh; simpl; [by rewrite ?emit_elements|].
  apply has_false in Hh. symmetry. apply filter_all.
    apply Forall_forall. intros [id r] Hin Heq. simpl in Heq. subst id.
    apply Hh. apply list_elem_of_fmap. by exists (el_id e, r).
Qed.

Lemma remove_heap el w :
  heap (remove el w) =
  match heap w !! el with
  | Some e => if has (el_id e) w
              then <[el := with_engine false e]> (heap w) else heap w
  | None => heap w
  end.
Proof.
  unfold remove. destruct (heap w !! el) as [e|]; [|done].
  destruct (has (el_id e) w); simpl; by rewrite ?emit_heap.
Qed.

Lemma filter_id_NoDup (id0 : string) (l : list (string * nat)) :
  NoDup l.*1 -> NoDup (filter (λ kv, kv.1 ≠ id0) l).*1.
Proof.
  induction l as [|[id r] l IH]; simpl; intros Hnd; [constructor|].
  apply NoDup_cons in Hnd as [Hid Hnd].
  destruct (decide (id ≠ id0)) as [Hp|Hp].
  - rewrite filter_cons_True by done. simpl. apply NoDup_cons. split.
    + intros Hin. apply Hid.
      apply list_elem_of_fmap in Hin as ([id' r'] & -> & Hin).
      apply list_elem_of_filter in Hin as [_ Hin].
      apply list_elem_of_fmap. by exists (id', r').
    + by apply IH.
  - rewrite filter_cons_False by done. by apply IH.
Qed.

Lemma keyedById_add w el : keyedById w -> keyedById (add el w).
Proof.
  intros [Hnd Hk]. split.
  - rewrite add_elements.
    destruct (heap w !! el) as [e|] eqn:He; [|done].
    destruct (has (el_id e) w) eqn:Hh; [done|].
    apply has_false in Hh. rewrite fmap_app. simpl.
    apply NoDup_app. split; [done|]. split; [|apply NoDup_singleton].
    intros x Hx ->%list_elem_of_singleton. done.
  - intros id r. rewrite add_elements, add_heap.
    destruct (heap w !! el) as [e|] eqn:He; [|by apply Hk].
    destruct (has (el_id e) w) eqn:Hh; [by apply Hk|].
    intros [Hin|Hin%list_elem_of_singleton]%elem_of_app.
    + destruct (Hk id r Hin) as (e' & He' & Hid & Hen).
      destruct (decide (r = el)) as [->|Hne].
      * rewrite lookup_insert_eq. exists (with_engine true e).
        assert (e' = e) as -> by congruence. done.
      * rewrite lookup_insert_ne by done. by exists e'.
    + injection Hin as -> ->. rewrite lookup_insert_eq.
      by exists (with_engine true e).
Qed.

Lemma keyedById_remove w el : keyedById w -> keyedById (remove el w).
Proof.
  intros [Hnd Hk]. split.
  - rewrite remove_elements.
    destruct (heap w !! el) as [e|] eqn:He; [|done].
    by apply filter_id_NoDup.
  - intros id r. rewrite remove_elements, remove_heap.
    destruct (heap w !! el) as [e|] eqn:He; [|by apply Hk].
    intros [Hne Hin]%list_elem_of_filter. simpl in Hne.
    destruct (Hk id r Hin) as (e' & He' & Hid & Hen).
    assert (r ≠ el) as Hr by (intros ->; congruence).
    destruct (has (el_id e) w); [|by exists e'].
    rewrite lookup_insert_ne by done. by exists e'.
Qed.

Lemma keyedById_setProperty w el p v :
  keyedById w -> keyedById (setProperty el p v w).
Proof.
  intros [Hnd Hk]. split; [by rewrite setProperty_elements|].
  intros id r. rewrite setProperty_elements. intros Hin.
  destruct (Hk id r Hin) as (e' & He' & Hid & Hen).
  destruct (decide (el = r)) as [->|Hne].
  - rewrite (setProperty_lookup _ _ _ _ _ He').
    eexists. split; [done|]. by rewrite assign_el_id, assign_engine.
  - rewrite setProperty_lookup_ne by done. by exists e'.
Qed.

(** X1.  The element map stays keyed by the ids of the elements it
    holds: starting from a map with no id twice in which every entry is a
    live element that has the id it is stored under and is attached to
    the engine, [add], [remove], [clear] and every property setter give a
    map of the same kind.  The map of a new engine is of this kind. *)
Theorem element_map_keyed (w : World) :
  keyedById w ->
  (forall el, keyedById (add el w)) /\
  (forall el, keyedById (remove el w)) /\
  keyedById (clear w) /\
  (forall el p v, keyedById (setProperty el p v w)) /\
  (forall pl, keyedById (newEngine pl)).
Proof.
  intros Hk. split; [|split; [|split; [|split]]].
  - intros el. by apply keyedById_add.
  - intros el. by apply keyedById_remove.
  - split; [constructor|]. unfold clear. simpl.
    intros id r Hin. by apply elem_of_nil in Hin.
  - intros el p v. by apply keyedById_setProperty.
  - intros pl. split; [constructor|].
    intros id r Hin. by apply elem_of_nil in Hin.
Qed.

Lemma keyedById_functional w id r1 r2 :
  NoDup (elements w).*1 ->
  (id, r1) ∈ elements w -> (id, r2) ∈ elements w -> r1 = r2.
Proof.
  induction (elements w) as [|[k a] l IH]; simpl; intros Hnd H1 H2.
  - by apply elem_of_nil in H1.
  - apply NoDup_cons in Hnd as [Hk Hnd].
    apply elem_of_cons in H1 as [H1|H1]; apply elem_of_cons in H2 as [H2|H2].
    + congruence.
    + injection H1 as -> ->. exfalso. apply Hk.
      apply list_elem_of_fmap. by exists (k, r2).
    + injection H2 as -> ->. exfalso. apply Hk.
      apply list_elem_of_fmap. by exists (k, r1).
    + by apply IH.
Qed.

Lemma find_fresh_app (id : string) (l : list (string * nat)) kv :
  id ∉ l.*1 -> kv.1 = id ->
  find (λ kv, bool_decide (kv.1 = id)) (l ++ [kv]) = Some kv.
Proof.
  intros Hid Hkv. induction l as [|[k a] l IH]; simpl.
  - by rewrite bool_decide_eq_true_2.
  - apply not_elem_of_cons in Hid as [Hne Hid].
    rewrite bool_decide_eq_false_2 by done. by apply IH.
Qed.

Lemma with_engine_false_true e :
  engine e = false -> with_engine false (with_engine true e) = e.
Proof. destruct e. simpl. by intros ->. Qed.

(** In a map keyed by id, the entries [remove] deletes are those of the
    element itself. *)
Lemma remove_elements_ref w el :
  keyedById w -> el ∈ getAll w ->
  elements (remove el w) = filter (λ kv, kv.2 ≠ el) (elements w) /\
  exists e, heap w !! el = Some e /\ has (el_id e) w = true.
Proof.
  intros [Hnd Hk] Hel.
  apply list_elem_of_fmap in Hel as ([id0 r0] & Hr0 & Hin0).
  simpl in Hr0. subst r0.
  destruct (Hk id0 el Hin0) as (e & He & Hid0 & _). subst id0.
  split.
  - rewrite remove_elements, He.
    assert (forall kv, kv ∈ elements w -> kv.1 ≠ el_id e <-> kv.2 ≠ el)
      as Hiff.
    { intros [id r] Hin. simpl. split; intros Hne Heq; apply Hne.
      - subst r. destruct (Hk id el Hin) as (e' & He' & <- & _).
        congruence.
      - subst id. by eapply keyedById_functional. }
    revert Hiff. generalize (elements w).
    induction l as [|[id r] l IH]; intros Hiff; [done|].
    assert (forall kv, kv ∈ l -> kv.1 ≠ el_id e <-> kv.2 ≠ el) as Hiff'
      by (intros; apply Hiff; by right).
    specialize (Hiff (id, r) ltac:(left)). simpl in Hiff.
    destruct (decide (id ≠ el_id e)) as [Hp|Hp].
    + rewrite filter_cons_True by done.
      rewrite filter_cons_True by (by apply Hiff).
      f_equal. by apply IH.
    + rewrite filter_cons_False by done.
      rewrite filter_cons_False by (simpl; by rewrite <- Hiff).
      by apply IH.
  - exists e. split; [done|]. apply has_true.
    apply list_elem_of_fmap. by exists (el_id e, el).
Qed.

Lemma filter_snd (el : nat) (l : list (string * nat)) :
  (filter (λ kv, kv.2 ≠ el) l).*2 = filter (λ r, r ≠ el) l.*2.
Proof.
  induction l as [|[id r] l IH]; [done|].
  destruct (decide (r ≠ el)) as [Hp|Hp].
  - rewrite filter_cons_True by done. rewrite !fmap_cons.
    rewrite filter_cons_True by done. f_equal. apply IH.
  - rewrite filter_cons_False by done. rewrite !fmap_cons.
    rewrite filter_cons_False by done. apply IH.
Qed.

(** X2.  [add] of an element whose id is not in the map puts it last in
    the map (so last in [getAll]), under its id, attaches it to the
    engine, changes nothing else in the store or the selection, and emits
    one ['element:added'].  [add] of an element whose id is in the map
    already changes nothing and emits nothing, so adding the same element
    twice is the same as adding it once. *)
Theorem add_registers (w : World) (el : nat) (e : BaseElement) :
  heap w !! el = Some e ->
  (has (el_id e) w = false ->
   getAll (add el w) = getAll w ++ [el] /\
   getById (el_id e) (add el w) = Some el /\
   count (add el w) = S (count w) /\
   heap (add el w) = <[el := with_engine true e]> (heap w) /\
   selected (add el w) = selected w /\
   emittedSince w (add el w) = [element_added el])
  /\ (has (el_id e) w = true -> add el w = w)
  /\ add el (add el w) = add el w.
Proof.
  intros He.
  assert (has (el_id e) w = true -> add el w = w) as Hdup.
  { intros Hh. unfold add. by rewrite He, Hh. }
  split; [|split; [done|]].
  - intros Hh. unfold getAll, getById, count.
    rewrite add_elements, add_heap, He, Hh.
    rewrite fmap_app, length_app. simpl.
    rewrite find_fresh_app by (by apply has_false in Hh || done).
    repeat split; try done; try lia.
    + unfold add. rewrite He, Hh. by autorewrite with frame.
    + apply emittedSince_app. unfold add. rewrite He, Hh.
      by autorewrite with frame.
  - destruct (has (el_id e) w) eqn:Hh; [by rewrite !Hdup|].
    set (w' := add el w).
    assert (heap w' !! el = Some (with_engine true e)) as He'.
    { unfold w'. rewrite add_heap, He, Hh. apply lookup_insert_eq. }
    unfold add at 1. rewrite He'.
    replace (has (el_id (with_engine true e)) w') with true; [done|].
    symmetry. apply has_true. unfold w'. rewrite add_elements, He, Hh.
    rewrite fmap_app. apply elem_of_app. right. simpl. left.
Qed.

Lemma add_registers_witness :
  getAll (add 1 strayScene) = [0; 1]%nat /\ add 0 rectScene = rectScene.
Proof.
  split.
  - destruct (proj1 (add_registers strayScene 1 stray1 eq_refl) eq_refl)
      as (H & _).
    exact H.
  - apply (proj1 (proj2 (add_registers rectScene 0 rect0 eq_refl))).
    reflexivity.
Defined.

(** X3.  [remove] of an element whose id is in the map deletes the
    entry of that id, detaches the element, emits one ['element:removed'],
    and the selection drops the element; nothing else in the store
    changes.  In a map keyed by id the entry deleted is the element's own
    and [getAll] loses exactly this element.  [remove] of an element whose
    id is not in the map changes nothing and emits nothing, so removing
    twice is the same as removing once. *)
Theorem remove_unregisters (w : World) (el : nat) (e : BaseElement) :
  heap w !! el = Some e ->
  (has (el_id e) w = true ->
   elements (remove el w) = filter (λ kv, kv.1 ≠ el_id e) (elements w) /\
   has (el_id e) (remove el w) = false /\
   heap (remove el w) = <[el := with_engine false e]> (heap w) /\
   selected (remove el w) = filter (λ r, r ≠ el) (selected w) /\
   emittedSince w (remove el w) = [element_removed el] /\
   (keyedById w -> el ∈ getAll w ->
    getAll (remove el w) = filter (λ r, r ≠ el) (getAll w)))
  /\ (has (el_id e) w = false -> remove el w = w)
  /\ remove el (remove el w) = remove el w.
Proof.
  intros He.
  assert (has (el_id e) w = false -> remove el w = w) as Hno.
  { intros Hh. unfold remove. by rewrite He, Hh. }
  assert (has (el_id e) (remove el w) = false) as Hgone.
  { apply has_false. rewrite remove_elements, He.
    intros ([id r] & Hid & Hin)%list_elem_of_fmap.
    apply list_elem_of_filter in Hin as [Hne _]. simpl in *. congruence. }
  split; [|split; [done|]].
  - intros Hh. split; [by rewrite remove_elements, He|].
    split; [done|]. split; [by rewrite remove_heap, He, Hh|].
    split; [|split].
    + unfold remove. rewrite He, Hh. simpl.
      by autorewrite with frame.
    + apply emittedSince_app. unfold remove. rewrite He, Hh. simpl.
      by autorewrite with frame.
    + intros Hk Hel. unfold getAll.
      destruct (remove_elements_ref w el Hk Hel) as [-> _].
      apply filter_snd.
  - destruct (has (el_id e) w) eqn:Hh; [|by rewrite !Hno].
    set (w' := remove el w).
    assert (heap w' !! el = Some (with_engine false e)) as He'.
    { unfold w'. rewrite remove_heap, He, Hh. apply lookup_insert_eq. }
    unfold remove at 1. rewrite He'.
    change (el_id (with_engine false e)) with (el_id e).
    fold w' in Hgone. by rewrite Hgone.
Qed.

Lemma remove_unregisters_witness :
  getAll (remove 0 selectedScene) = [] /\
  selected (remove 0 selectedScene) = [] /\
  remove 1 strayScene = strayScene.
Proof.
  destruct (proj1 (remove_unregisters selectedScene 0 rect0 eq_refl) eq_refl)
    as (H1 & _ & _ & H2 & _).
  split; [|split].
  - unfold getAll. rewrite H1. reflexivity.
  - rewrite H2. reflexivity.
  - apply (proj1 (proj2 (remove_unregisters strayScene 1 stray1 eq_refl))).
    reflexivity.
Defined.

(** X4.  For an element that is not attached and whose id is not
    in the map, [add] followed by [remove] gives back the map and the
    store as they were; the two calls emit ['element:added'] and then
    ['element:removed']. *)
Theorem add_remove_roundtrip (w : World) (el : nat) (e : BaseElement) :
  heap w !! el = Some e ->
  engine e = false ->
  has (el_id e) w = false ->
  elements (remove el (add el w)) = elements w /\
  heap (remove el (add el w)) = heap w /\
  emittedSince w (remove el (add el w))
    = [element_added el; element_removed el].
Proof.
  intros He Hen Hh.
  set (w1 := add el w).
  assert (heap w1 !! el = Some (with_engine true e)) as He1.
  { unfold w1. rewrite add_heap, He, Hh. apply lookup_insert_eq. }
  assert (elements w1 = elements w ++ [(el_id e, el)]) as Hel1.
  { unfold w1. by rewrite add_elements, He, Hh. }
  assert (has (el_id e) w1 = true) as Hh1.
  { apply has_true. rewrite Hel1, fmap_app. apply elem_of_app. right. left. }
  split; [|split].
  - rewrite remove_elements, He1, Hel1.
    change (el_id (with_engine true e)) with (el_id e).
    rewrite filter_app, filter_cons_False, filter_nil, app_nil_r
      by (simpl; tauto).
    apply filter_all. apply Forall_forall. intros [id r] Hin Heq.
    simpl in Heq. subst id. apply has_false in Hh. apply Hh.
    apply list_elem_of_fmap. by exists (el_id e, r).
  - rewrite remove_heap, He1.
    change (el_id (with_engine true e)) with (el_id e). rewrite Hh1.
    unfold w1. rewrite add_heap, He, Hh, insert_insert_eq.
    rewrite with_engine_false_true by done. by apply insert_id.
  - apply emittedSince_app.
    assert (eventBus w1 = eventBus w ++ [element_added el]) as Hb1.
    { unfold w1, add. rewrite He, Hh. by autorewrite with frame. }
    unfold remove. rewrite He1.
    change (el_id (with_engine true e)) with (el_id e). rewrite Hh1. simpl.
    autorewrite with frame. simpl. by rewrite Hb1, <- app_assoc.
Qed.

Lemma add_remove_roundtrip_witness :
  elements (remove 1 (add 1 strayScene)) = elements strayScene /\
  heap (remove 1 (add 1 strayScene)) = heap strayScene.
Proof.
  destruct (add_remove_roundtrip strayScene 1 stray1
              eq_refl eq_refl eq_refl) as (H1 & H2 & _).
  split; assumption.
Defined.

(** X5.  [clear] empties the map and detaches every element that was
    in it; every other object, the selection and the bus are as before:
    nothing is emitted and a selected element stays selected. *)
Theorem clear_detaches (w : World) :
  elements (clear w) = [] /\
  eventBus (clear w) = eventBus w /\
  selected (clear w) = selected w /\
  forall r,
    heap (clear w) !! r =
    if bool_decide (r ∈ getAll w)
    then with_engine false <$> heap w !! r else heap w !! r.
Proof.
  unfold clear.
  set (step := λ (w : World) (element : nat),
         match heap w !! element with
         | Some e => with_heap (<[element := with_engine false e]> (heap w)) w
         | None => w
         end).
  assert (forall l w0,
            eventBus (foldl step w0 l) = eventBus w0 /\
            selected (foldl step w0 l) = selected w0 /\
            forall r, heap (foldl step w0 l) !! r =
                      if bool_decide (r ∈ l)
                      then with_engine false <$> heap w0 !! r
                      else heap w0 !! r) as Hloop.
  { induction l as [|a l IH]; intros w0; simpl; [done|].
    destruct (IH (step w0 a)) as (Hb & Hs & Hh).
    rewrite Hb, Hs.
    split; [unfold step; by destruct (heap w0 !! a)|].
    split; [unfold step; by destruct (heap w0 !! a)|].
    intros r. rewrite Hh. clear IH Hb Hs Hh.
    assert (heap (step w0 a) !! r =
            if decide (r = a) then with_engine false <$> heap w0 !! r
            else heap w0 !! r) as ->.
    { unfold step. destruct (decide (r = a)) as [->|Hne].
      - destruct (heap w0 !! a) as [e|] eqn:He; simpl;
          [apply lookup_insert_eq|by rewrite He].
      - destruct (heap w0 !! a) as [e|] eqn:He; simpl; [|done].
        by apply lookup_insert_ne. }
    destruct (decide (r = a)) as [->|Hne].
    - rewrite (bool_decide_eq_true_2 (a ∈ a :: l)) by left.
      destruct (bool_decide (a ∈ l)); [|done].
      destruct (heap w0 !! a) as [e|]; [|done]. by destruct e.
    - destruct (bool_decide (r ∈ l)) eqn:E.
      + apply bool_decide_eq_true in E.
        by rewrite bool_decide_eq_true_2 by (by right).
      + apply bool_decide_eq_false in E.
        rewrite bool_decide_eq_false_2; [done|].
        intros [?|?]%elem_of_cons; done. }
  destruct (Hloop (getAll w) w) as (Hb & Hs & Hh).
  repeat split; done.
Qed.

Lemma rectScene_keyed : keyedById rectScene /\ keyedById strayScene.
Proof.
  split; (split; [vm_compute; apply NoDup_singleton|]);
    intros id r Hin; vm_compute in Hin;
    apply list_elem_of_singleton in Hin; injection Hin as -> ->;
    exists rect0; repeat split; reflexivity.
Qed.

Lemma element_map_keyed_witness :
  keyedById (add 1 strayScene) /\ keyedById (remove 0 rectScene).
Proof.
  split.
  - apply (element_map_keyed strayScene (proj2 rectScene_keyed)).
  - apply (element_map_keyed rectScene (proj1 rectScene_keyed)).
Defined.

End Scene.

(** ** The history of the undo plugin *)

Section History.

Lemma setProperty_undoRedo el p v w :
  undoRedo (setProperty el p v w)
  = recorded (setterEvents el p v w) (undoRedo w).
Proof.
  unfold setProperty, setterEvents, emitChange, recorded.
  destruct (heap w !! el) as [e|] eqn:He; [|done].
  destruct (write p v e) as [e'|] eqn:Hw; [|done].
  simpl. rewrite lookup_insert_eq.
  destruct (engine e') eqn:Hen; simpl.
  - rewrite emit_suppressActions. simpl.
    destruct (_suppressActions w) eqn:Hs;
      destruct p, v; simpl; autorewrite with frame; simpl; reflexivity.
  - by destruct p, v.
Qed.

Lemma tail_snoc {A} (l : list A) a :
  l ≠ [] -> tail (l ++ [a]) = tail l ++ [a].
Proof. by destruct l. Qed.

(** X6.  The listener of the undo plugin, on a stack within
    [maxHistory]: the new action goes on top of the undo stack, the oldest
    entry is dropped when the stack was full, the stack stays within
    [maxHistory], and the redo stack is emptied. *)
Theorem record_action (p : UndoRedoPlugin) (a : UndoableAction) :
  (length (undoStack p) <= maxHistory p)%nat ->
  let p' := onActionPerformed a p in
  redoStack p' = [] /\
  maxHistory p' = maxHistory p /\
  (length (undoStack p') <= maxHistory p)%nat /\
  ((length (undoStack p) < maxHistory p)%nat ->
   undoStack p' = undoStack p ++ [a]) /\
  ((length (undoStack p) = maxHistory p)%nat -> (0 < maxHistory p)%nat ->
   undoStack p' = tail (undoStack p) ++ [a]).
Proof.
  intros Hb. unfold onActionPerformed. simpl.
  rewrite length_app. simpl.
  split; [done|]. split; [done|].
  destruct (Nat.ltb_spec (maxHistory p) (length (undoStack p) + 1))
    as [Hfull|Hroom].
  - split; [|split; [lia|]].
    + destruct (undoStack p) as [|b l]; simpl in *; [lia|].
      rewrite length_app. simpl. lia.
    + intros Heq Hpos. apply tail_snoc.
      destruct (undoStack p); simpl in *; [lia|done].
  - split; [rewrite length_app; simpl; lia|]. split; [done|lia].
Qed.

Lemma record_action_witness :
  let p := {| undoStack := []; redoStack := []; maxHistory := 100 |} in
  let a := {| a_type := "property-change"; description := "x";
              a_element := 0%nat; a_property := P_x;
              a_oldValue := VNum 10; a_newValue := VNum 25 |} in
  undoStack (onActionPerformed a p) = [a].
Proof.
  intros p a.
  destruct (record_action p a) as (_ & _ & _ & H & _).
  - simpl. lia.
  - apply H. simpl. lia.
Defined.

Lemma recorded_bounded evs u :
  from_option (λ p, (length (undoStack p) + length (redoStack p)
                     <= maxHistory p)%nat) True u ->
  from_option (λ p, (length (undoStack p) + length (redoStack p)
                     <= maxHistory p)%nat) True (recorded evs u).
Proof.
  unfold recorded. revert u.
  induction evs as [|ev evs IH]; intros u Hu; [done|]. simpl. apply IH.
  destruct ev; try done. destruct u as [p|]; [|done].
  cbn -[onActionPerformed] in *.
  destruct (record_action p action ltac:(lia)) as (Hr & Hm & Hl & _).
  rewrite Hr, Hm. cbn -[onActionPerformed] in *. lia.
Qed.

Lemma snoc_cases {A} (l : list A) : l = [] \/ exists l' a, l = l' ++ [a].
Proof.
  induction l as [|b l IH] using rev_ind; [by left|]. right. by exists l, b.
Qed.

Lemma pop_nil {A} : pop (@nil A) = None.
Proof. reflexivity. Qed.

(** X7.  With the undo plugin registered, the two stacks together
    never hold more than [maxHistory] actions: this holds when the plugin
    is registered and is kept by every event on the bus, by every property
    setter, by [undo] and by [redo]. *)
Theorem history_bounded (w : World) :
  historyBounded w ->
  (forall ev, historyBounded (emit ev w)) /\
  (forall el p v, historyBounded (setProperty el p v w)) /\
  historyBounded (UndoRedo.undo w) /\
  historyBounded (UndoRedo.redo w) /\
  (forall w', historyBounded (registerUndoRedo w')).
Proof.
  unfold historyBounded. intros Hb.
  split; [|split; [|split; [|split]]].
  - intros ev. rewrite emit_undoRedo.
    destruct ev; try done.
    apply (recorded_bounded [action_performed action] (undoRedo w)).
    by destruct (undoRedo w).
  - intros el p v. rewrite setProperty_undoRedo.
    apply recorded_bounded. by destruct (undoRedo w).
  - destruct (undoRedo w) as [p|] eqn:Hp;
      [|unfold UndoRedo.undo; rewrite Hp; simpl; by rewrite Hp].
    destruct (snoc_cases (undoStack p)) as [Hnil|(us & a & Hus)].
    + unfold UndoRedo.undo. rewrite Hp, Hnil, pop_nil. by rewrite Hp.
    + destruct (plugin_undo_runs_action w p us a Hp Hus) as (_ & -> & _).
      simpl. rewrite Hus in Hb. rewrite !length_app in *. simpl in *. lia.
  - destruct (undoRedo w) as [p|] eqn:Hp;
      [|unfold UndoRedo.redo; rewrite Hp; simpl; by rewrite Hp].
    destruct (snoc_cases (redoStack p)) as [Hnil|(rs & a & Hrs)].
    + unfold UndoRedo.redo. rewrite Hp, Hnil, pop_nil. by rewrite Hp.
    + destruct (plugin_redo_runs_action w p rs a Hp Hrs) as (_ & -> & _).
      simpl. rewrite Hrs in Hb. rewrite !length_app in *. simpl in *. lia.
  - intros w'. simpl. lia.
Qed.

Lemma history_bounded_witness :
  historyBounded (UndoRedo.undo (set_x 0 25 undoScene)).
Proof.
  apply (history_bounded (set_x 0 25 undoScene)).
  apply (history_bounded undoScene).
  vm_compute. lia.
Defined.

Lemma Veq_trans a b c : Veq a b -> Veq b c -> Veq a c.
Proof.
  destruct a, b, c; simpl; try done; [intros; lra|congruence].
Qed.

(** What a setter has written reads back as assigned, and assigning the
    old value again reads back as the old value. *)
Lemma write_reads p v e e1 :
  write p v e = Some e1 ->
  restorable p e v = true ->
  Veq (read p e1) v /\ Veq (read p (assign p (read p e) e1)) (read p e).
Proof.
  intros Hw Hr. destruct e as [id en x y rot z vis int op sub].
  destruct p, v; simpl in Hw, Hr; try discriminate.
  all: try (destruct sub as [wd ht|wd ht|[lx1 ly1 lx2 ly2|r|rw rh|r sa ea]];
            simpl in Hw, Hr; try discriminate).
  all: unfold assign, write, write_width, write_height, width, height in *;
       simpl in *.
  all: try (destruct vis, b; simpl in *; try discriminate;
            injection Hw as <-; simpl; done).
  all: try (destruct int, b; simpl in *; try discriminate;
            injection Hw as <-; simpl; done).
  all: guards; simpl; unfold width, height; simpl; guards; simpl;
       try (split; lra); try qabsurd.
  all: q2p; simpl in *; halves; first [split; lra | qabsurd].
Qed.

(** X8.  With the undo plugin registered and room on its undo
    stack, a setter call that records the action [a] (a mutation other
    than a size change of a line or a size change of a shape to the extent
    0) puts [a] on top of the undo stack and empties the redo stack;
    [undo] then puts the property back to its old value and moves [a] to
    the redo stack; [redo] after that sets the property to the new value
    again and moves [a] back, so the stacks are as after the mutation.
    Neither [undo] nor [redo] puts an ['action:performed'] on the bus. *)
Theorem plugin_undo_redo (w : World) (el : nat) (e : BaseElement)
    (p : Property) (v : Value) (a : UndoableAction) (pl : UndoRedoPlugin) :
  heap w !! el = Some e ->
  undoRedo w = Some pl ->
  (length (undoStack pl) < maxHistory pl)%nat ->
  action_performed a ∈ emittedSince w (setProperty el p v w) ->
  restorable p e v = true ->
  let w1 := setProperty el p v w in
  let w2 := UndoRedo.undo w1 in
  let w3 := UndoRedo.redo w2 in
  undoRedo w1 = Some {| undoStack := undoStack pl ++ [a]; redoStack := [];
                        maxHistory := maxHistory pl |} /\
  undoRedo w2 = Some {| undoStack := undoStack pl; redoStack := [a];
                        maxHistory := maxHistory pl |} /\
  undoRedo w3 = undoRedo w1 /\
  (exists v1, get p el w1 = Some v1 /\ Veq v1 v) /\
  (exists v2, get p el w2 = Some v2 /\ Veq v2 (read p e)) /\
  (exists v3, get p el w3 = Some v3 /\ Veq v3 v) /\
  filter isAction (eventBus w3) = filter isAction (eventBus w1).
Proof.
  intros He Hpl Hroom Ha Hr w1 w2 w3.
  rewrite (emittedSince_app w (setProperty el p v w) _
             (setProperty_eventBus el p v w)) in Ha.
  destruct (setterEvents_action _ _ _ _ _ _ He Ha) as (e1 & Hw & Hact).
  assert (heap w1 !! el = Some e1) as H1.
  { unfold w1. rewrite (setProperty_lookup _ _ _ _ _ He).
    unfold assign. by rewrite Hw. }
  destruct (write_reads _ _ _ _ Hw Hr) as [Hnew Hback].
  destruct (assign_roundtrip _ _ _ _ Hw Hr) as [Hagain _].
  assert (undoRedo w1 = Some {| undoStack := undoStack pl ++ [a];
                                redoStack := [];
                                maxHistory := maxHistory pl |}) as Hu1.
  { unfold w1. rewrite setProperty_undoRedo, Hpl.
    unfold setterEvents in *. rewrite He, Hw in *.
    destruct (engine e1); [|by apply elem_of_nil in Ha].
    destruct (_suppressActions w).
    { exfalso. simpl in Ha.
      apply elem_of_cons in Ha as [Ha|Ha]; [discriminate|].
      destruct p, v; simpl in Ha;
        try (by apply elem_of_nil in Ha).
      apply list_elem_of_singleton in Ha. discriminate. }
    rewrite <- Hact.
    assert (onActionPerformed a pl
            = {| undoStack := undoStack pl ++ [a]; redoStack := [];
                 maxHistory := maxHistory pl |}) as Hrec.
    { unfold onActionPerformed. rewrite length_app. simpl.
      destruct (Nat.ltb_spec (maxHistory pl) (length (undoStack pl) + 1));
        [lia|done]. }
    destruct p, v; simpl; by rewrite Hrec. }
  destruct (plugin_undo_runs_action w1 _ (undoStack pl) a Hu1 eq_refl)
    as (Hh2 & Hu2 & _ & Hf2).
  fold w2 in Hh2, Hu2, Hf2. simpl in Hu2.
  destruct (plugin_redo_runs_action w2 _ [] a Hu2 eq_refl)
    as (Hh3 & Hu3 & _ & Hf3).
  fold w3 in Hh3, Hu3, Hf3. simpl in Hu3.
  assert (a_element a = el /\ a_property a = p /\
          a_oldValue a = read p e /\ a_newValue a = v) as (Eel & Ep & Eo & En)
    by (by rewrite Hact).
  assert (heap w2 !! el = Some (assign p (read p e) e1)) as H2.
  { rewrite Hh2, (action_undo_lookup a w1 el e1 Eel H1). by rewrite Ep, Eo. }
  assert (heap w3 !! el = Some (assign p v (assign p (read p e) e1))) as H3.
  { rewrite Hh3, (action_redo_lookup a w2 el _ Eel H2). by rewrite Ep, En. }
  split; [done|]. split; [done|]. split; [by rewrite Hu3, Hu1|].
  unfold get. rewrite H1, H2, H3. simpl.
  split; [by eexists|]. split; [by eexists|].
  split; [eexists; split; [done|]; by eapply Veq_trans|].
  by rewrite Hf3, Hf2.
Qed.

Lemma plugin_undo_redo_witness :
  let w1 := set_x 0 25 undoScene in
  (exists v2, get P_x 0%nat (UndoRedo.undo w1) = Some v2 /\ Veq v2 (VNum 10))
  /\
  (exists v3, get P_x 0%nat (UndoRedo.redo (UndoRedo.undo w1)) = Some v3 /\
              Veq v3 (VNum 25)).
Proof.
  intros w1.
  destruct (plugin_undo_redo undoScene 0 rect0 P_x (VNum 25)
              {| a_type := "property-change";
                 description := "Change x on shape e0";
                 a_element := 0%nat; a_property := P_x;
                 a_oldValue := VNum 10; a_newValue := VNum 25 |}
              {| undoStack := []; redoStack := []; maxHistory := 100 |})
    as (_ & _ & _ & _ & H2 & H3 & _).
  - vm_compute. reflexivity.
  - reflexivity.
  - simpl. lia.
  - vm_compute. apply list_elem_of_further, list_elem_of_here.
  - reflexivity.
  - split; [exact H2|exact H3].
Defined.

End History.

(** ** Bringing to the front, sending to the back *)

Section FrontBack.
Import ZOrderManager.

#[local] Set Warnings "-clear-no-such-hyp".


















End FrontBack.

(** ** Moving by drag *)

Section Drag.
Import TransformController.

#[local] Set Warnings "-clear-no-such-hyp".

Lemma movedElement_spec dx dy start e :
  let e' := movedElement dx dy start e in
  _x e' == start_x start + dx /\ _y e' == start_y start + dy /\
  subclass e' = subclass e /\ _rotation e' = _rotation e /\
  el_id e' = el_id e.
Proof.
  destruct e as [id en x y rot z vis int op sub].
  unfold movedElement, assign, write. simpl.
  guards; simpl; guards; simpl; q2p; repeat split; try lra; done.
Qed.

Lemma loop_noop (d : DragState) (body : nat -> StartProps -> World -> World)
    (els : list nat) (w : World) :
  (forall el, el ∈ els -> withStart d body w el = w) ->
  foldl (withStart d body) w els = w.
Proof.
  induction els as [|a els IH]; intros H; [done|]. simpl.
  rewrite H by left. apply IH. intros; apply H. by right.
Qed.

Lemma handleMove_frame event w d :
  dragState w = Some d ->
  dragState (handleMove event w) = Some d /\
  activeElements (handleMove event w) = activeElements w /\
  contentRoot (handleMove event w) = contentRoot w.
Proof.
  intros Hd. unfold handleMove. rewrite Hd. autorewrite with frame.
  rewrite <- Hd.
  split; [|split]; apply (loop_frame d); intros; unfold set_x, set_y.
  - by rewrite !setProperty_dragState.
  - by rewrite !setProperty_activeElements.
  - by rewrite !setProperty_contentRoot.
Qed.

Lemma handleMove_lookup event w d el e start :
  dragState w = Some d ->
  NoDup (activeElements w) ->
  el ∈ activeElements w ->
  heap w !! el = Some e ->
  elementStartProps d !! el_id e = Some start ->
  heap (handleMove event w) !! el =
  Some (movedElement ((toWorld event w).1 - startX d)
          ((toWorld event w).2 - startY d) start e).
Proof.
  intros Hd Hnd Hel He Hs. unfold handleMove. rewrite Hd, emit_heap.
  eapply (loop_lookup d _
            (movedElement ((toWorld event w).1 - startX d)
                          ((toWorld event w).2 - startY d))); try done.
  intros. by apply move_body_heap.
Qed.

Lemma handleMove_lookup_other event w d el :
  dragState w = Some d ->
  el ∉ activeElements w ->
  heap (handleMove event w) !! el = heap w !! el.
Proof.
  intros Hd Hel. unfold handleMove. rewrite Hd, emit_heap.
  eapply (loop_lookup_other d _
            (movedElement ((toWorld event w).1 - startX d)
                          ((toWorld event w).2 - startY d))); try done.
  intros. by apply move_body_heap.
Qed.

(** X11.  A move step places every affected object at its snapshot
    position plus the pointer delta since the start of the gesture,
    whatever the earlier steps did, and leaves its size and rotation and
    every other object alone; its last event is one
    ['interaction:dragMove'] with the affected objects and the delta, and
    the gesture goes on. *)
Theorem handleMove_from_snapshot (w : World) (d : DragState)
    (event : FederatedPointerEvent) :
  dragState w = Some d ->
  NoDup (activeElements w) ->
  let dx := (toWorld event w).1 - startX d in
  let dy := (toWorld event w).2 - startY d in
  dragState (handleMove event w) = Some d /\
  activeElements (handleMove event w) = activeElements w /\
  last (eventBus (handleMove event w))
    = Some (interaction_dragMove (activeElements w) dx dy) /\
  (forall el e start,
      el ∈ activeElements w ->
      heap w !! el = Some e ->
      elementStartProps d !! el_id e = Some start ->
      exists e',
        heap (handleMove event w) !! el = Some e' /\
        _x e' == start_x start + dx /\ _y e' == start_y start + dy /\
        subclass e' = subclass e /\ _rotation e' = _rotation e) /\
  (forall el, el ∉ activeElements w ->
              heap (handleMove event w) !! el = heap w !! el).
Proof.
  intros Hd Hnd dx dy.
  destruct (handleMove_frame event w d Hd) as (H1 & H2 & _).
  split; [done|]. split; [done|]. split; [|split].
  - unfold handleMove. rewrite Hd, emit_eventBus. apply last_snoc.
  - intros el e start Hel He Hs.
    exists (movedElement dx dy start e). split.
    + by apply handleMove_lookup.
    + destruct (movedElement_spec dx dy start e) as (?&?&?&?&?). done.
  - intros el Hel. by apply (handleMove_lookup_other event w d).
Qed.

Lemma handleMove_from_snapshot_witness :
  let w := startMove [0%nat] (pointer 0 0) rectScene in
  exists e',
    heap (handleMove (pointer 3 4) (handleMove (pointer 50 50) w)) !! 0%nat
      = Some e' /\
    _x e' == 13 /\ _y e' == 14.
Proof.
  intros w.
  destruct (handleMove_from_snapshot (handleMove (pointer 50 50) w)
              {| mode := mode_move; startX := 0; startY := 0;
                 handlePosition := None;
                 elementStartProps := {["e0" := rectStart]} |}
              (pointer 3 4)) as (_ & _ & _ & H & _).
  - vm_compute. reflexivity.
  - vm_compute. apply NoDup_singleton.
  - destruct (H 0%nat
                {| el_id := "e0"; engine := true; _x := 60; _y := 60;
                   _rotation := 0; _zIndex := 0; _visible := true;
                   _interactable := true; _opacity := 1;
                   subclass := ShapeElement (rectangle 100 50) |} rectStart)
      as (e' & He' & Hx & Hy & _).
    + vm_compute. apply list_elem_of_here.
    + vm_compute. reflexivity.
    + vm_compute. reflexivity.
    + exists e'. split; [exact He'|]. split; [exact Hx|exact Hy].
Defined.

(** What a loop over the affected objects leaves in the store. *)
Lemma loop_lookup_full (d : DragState)
    (body : nat -> StartProps -> World -> World)
    (f : StartProps -> BaseElement -> BaseElement) :
  (forall el start w e,
      heap w !! el = Some e ->
      heap (body el start w) = <[el := f start e]> (heap w)) ->
  forall els w el,
    NoDup els -> el ∈ els ->
    heap (foldl (withStart d body) w els) !! el =
    (λ e, match elementStartProps d !! el_id e with
          | Some start => f start e
          | None => e
          end) <$> heap w !! el.
Proof.
  intros Hbody els. induction els as [|a els IH]; intros w el Hnd Hel.
  - by apply elem_of_nil in Hel.
  - apply NoDup_cons in Hnd as [Ha Hnd]. simpl.
    apply elem_of_cons in Hel as [->|Hel].
    + rewrite (loop_lookup_other d body f Hbody) by done.
      unfold withStart.
      destruct (heap w !! a) as [e|] eqn:He; simpl; [|by rewrite He].
      destruct (elementStartProps d !! el_id e) as [start|]; [|done].
      rewrite (Hbody _ _ _ _ He). apply lookup_insert_eq.
    + rewrite IH by done.
      rewrite (withStart_lookup_ne d body f Hbody); [done|].
      intros ->. contradiction.
Qed.

(** X12.  A second move step at the same pointer position changes
    no object and records nothing: it only emits ['interaction:dragMove']
    once more.  (The pointer-move handler of every element runs for one
    pointer event.) *)
Theorem handleMove_twice (w : World) (d : DragState)
    (event : FederatedPointerEvent) :
  dragState w = Some d ->
  NoDup (activeElements w) ->
  handleMove event (handleMove event w)
  = emit (interaction_dragMove (activeElements w)
            ((toWorld event w).1 - startX d)
            ((toWorld event w).2 - startY d))
      (handleMove event w).
Proof.
  intros Hd Hnd.
  destruct (handleMove_frame event w d Hd) as (H1 & H2 & H3).
  assert (forall el, el ∈ activeElements w ->
            heap (handleMove event w) !! el =
            (λ e, match elementStartProps d !! el_id e with
                  | Some start =>
                      movedElement ((toWorld event w).1 - startX d)
                        ((toWorld event w).2 - startY d) start e
                  | None => e
                  end) <$> heap w !! el) as Hfull.
  { intros el Hel. unfold handleMove. rewrite Hd, emit_heap.
    apply (loop_lookup_full d _
             (movedElement ((toWorld event w).1 - startX d)
                           ((toWorld event w).2 - startY d))); try done.
    intros. by apply move_body_heap. }
  set (w1 := handleMove event w) in *.
  assert (toWorld event w1 = toWorld event w) as Htw
    by (unfold toWorld; by rewrite H3).
  unfold handleMove at 1. rewrite H1, H2, Htw. f_equal.
  apply loop_noop. intros el Hel. unfold withStart.
  destruct (heap w1 !! el) as [e1|] eqn:He1; [|done].
  destruct (elementStartProps d !! el_id e1) as [start|] eqn:Hs; [|done].
  rewrite (Hfull el Hel) in He1.
  destruct (heap w !! el) as [e|] eqn:He; [|done]. simpl in He1.
  injection He1 as He1.
  destruct (elementStartProps d !! el_id e) as [start'|] eqn:Hs'.
  - destruct (movedElement_spec ((toWorld event w).1 - startX d)
                ((toWorld event w).2 - startY d) start' e)
      as (Hx & Hy & _ & _ & Hid).
    rewrite He1 in Hx, Hy, Hid. rewrite Hid in Hs.
    assert (start' = start) as -> by congruence.
    assert (heap w1 !! el = Some e1) as Hw1.
    { rewrite (Hfull el Hel), He. simpl. by rewrite Hs', He1. }
    unfold set_x, set_y.
    rewrite (setProperty_noop el P_x _ w1 e1 Hw1).
    + apply (setProperty_noop el P_y _ w1 e1 Hw1).
      unfold write. apply Qeq_bool_iff in Hy. by rewrite Hy.
    + unfold write. apply Qeq_bool_iff in Hx. by rewrite Hx.
  - subst e1. congruence.
Qed.

Lemma handleMove_twice_witness :
  let w := startMove [0%nat] (pointer 0 0) rectScene in
  heap (handleMove (pointer 3 4) (handleMove (pointer 3 4) w))
  = heap (handleMove (pointer 3 4) w).
Proof.
  intros w.
  rewrite (handleMove_twice w
             {| mode := mode_move; startX := 0; startY := 0;
                handlePosition := None;
                elementStartProps := {["e0" := rectStart]} |}).
  - apply emit_heap.
  - vm_compute. reflexivity.
  - vm_compute. apply NoDup_singleton.
Defined.

Lemma snapshot_other els w id :
  forall m : gmap string StartProps,
  (forall b eb, b ∈ els -> heap w !! b = Some eb -> el_id eb ≠ id) ->
  foldl (λ m el, match heap w !! el with
                 | Some e => <[el_id e := startProps e]> m
                 | None => m
                 end) m els !! id = m !! id.
Proof.
  induction els as [|a l IH]; intros m H; [done|]. simpl.
  rewrite IH by (intros; eapply H; [by right|done]).
  destruct (heap w !! a) as [ea|] eqn:Ha; [|done].
  apply lookup_insert_ne. eapply H; [left|done].
Qed.

Lemma snapshot_lookup els w el e :
  distinctIds els w -> el ∈ els -> heap w !! el = Some e ->
  snapshot els w !! el_id e = Some (startProps e).
Proof.
  unfold snapshot. generalize (∅ : gmap string StartProps).
  induction els as [|a l IH]; intros m Hd Hel He.
  - by apply elem_of_nil in Hel.
  - simpl. destruct (decide (el ∈ l)) as [Hin|Hout].
    + apply IH; [|done..].
      intros x y ex ey Hx Hy. apply Hd; by right.
    + apply elem_of_cons in Hel as [->|Hel]; [|done].
      rewrite He. rewrite snapshot_other; [apply lookup_insert_eq|].
      intros b eb Hb Heb Hid. apply Hout.
      replace a with b; [done|].
      eapply Hd; [by right|left|done..].
Qed.

Lemma setProperty_isInteraction el p v w :
  filter isInteraction (eventBus (setProperty el p v w))
  = filter isInteraction (eventBus w).
Proof.
  rewrite setProperty_eventBus, filter_app.
  replace (filter isInteraction (setterEvents el p v w)) with (@nil Event);
    [by rewrite app_nil_r|].
  unfold setterEvents. repeat case_match; reflexivity.
Qed.

Lemma isInteraction_since w0 w evs :
  (exists pre, eventBus w = eventBus w0 ++ pre /\
               filter isInteraction pre = evs) ->
  filter isInteraction (emittedSince w0 w) = evs.
Proof.
  intros (pre & Hb & <-). by rewrite (emittedSince_app w0 w pre Hb).
Qed.

Lemma loop_eventBus_prefix (d : DragState)
    (body : nat -> StartProps -> World -> World) :
  (forall el start w,
      exists pre, eventBus (body el start w) = eventBus w ++ pre) ->
  forall els w,
    exists pre, eventBus (foldl (withStart d body) w els) = eventBus w ++ pre.
Proof.
  intros Hbody els. induction els as [|a l IH]; intros w.
  - exists []. by rewrite app_nil_r.
  - simpl. destruct (IH (withStart d body w a)) as [pre ->].
    unfold withStart. destruct (heap w !! a) as [e|]; [|by exists pre].
    destruct (elementStartProps d !! el_id e) as [start|]; [|by exists pre].
    destruct (Hbody a start w) as [pre' ->].
    exists (pre' ++ pre). by rewrite app_assoc.
Qed.

(** X13.  A drag from pointer-down to pointer-up over distinct live
    objects with distinct ids: [startMove] opens a move gesture; the
    pointer move then places every object of the gesture at the position
    it had at pointer-down plus the pointer delta, keeps its size and
    rotation and leaves every other object alone; [onPointerUp] closes
    the gesture without touching an object, after which a pointer move
    does nothing.  The interaction events of the drag are
    ['interaction:dragStart'], ['interaction:dragMove'] and
    ['interaction:dragEnd'], in this order. *)
Theorem drag_translates (w : World) (els : list nat)
    (down move : FederatedPointerEvent) :
  NoDup els -> distinctIds els w ->
  let w1 := startMove els down w in
  let w2 := onPointerMove move w1 in
  let w3 := onPointerUp w2 in
  let dx := (toWorld move w).1 - (toWorld down w).1 in
  let dy := (toWorld move w).2 - (toWorld down w).2 in
  isDragging w1 = true /\ currentMode w1 = mode_move /\
  isDragging w3 = false /\ currentMode w3 = mode_none /\
  heap w3 = heap w2 /\
  (forall el e,
      el ∈ els -> heap w !! el = Some e ->
      exists e',
        heap w2 !! el = Some e' /\
        _x e' == _x e + dx /\ _y e' == _y e + dy /\
        subclass e' = subclass e /\ _rotation e' = _rotation e) /\
  (forall el, el ∉ els -> heap w2 !! el = heap w !! el) /\
  (forall el0 rest, els = el0 :: rest ->
     filter isInteraction (emittedSince w w3) =
     [interaction_dragStart el0 (toWorld down w).1 (toWorld down w).2;
      interaction_dragMove els dx dy;
      interaction_dragEnd els]) /\
  (forall ev, onPointerMove ev w3 = w3).
Proof.
  intros Hnd Hids w1 w2 w3 dx dy.
  set (d := {| mode := mode_move; startX := (toWorld down w).1;
               startY := (toWorld down w).2; handlePosition := None;
               elementStartProps := snapshot els w |}).
  assert (dragState w1 = Some d /\ activeElements w1 = els /\
          heap w1 = heap w /\ contentRoot w1 = contentRoot w /\
          eventBus w1 = eventBus w ++
            match els with
            | el0 :: _ => [interaction_dragStart el0 (toWorld down w).1
                             (toWorld down w).2]
            | [] => []
            end) as (Hd1 & Ha1 & Hh1 & Hc1 & Hb1).
  { unfold w1, startMove. destruct els; autorewrite with frame; simpl;
      rewrite ?app_nil_r; done. }
  assert (toWorld move w1 = toWorld move w) as Htw
    by (unfold toWorld; by rewrite Hc1).
  assert (w2 = handleMove move w1) as Hw2
    by (unfold w2, onPointerMove; by rewrite Hd1).
  assert (NoDup (activeElements w1)) as Hnd1 by (by rewrite Ha1).
  destruct (handleMove_frame move w1 d Hd1) as (Hd2 & Ha2 & _).
  rewrite <- Hw2 in Hd2, Ha2.
  assert (w3 = with_gesture None []
                 (match els with
                  | _ :: _ => emit (interaction_dragEnd els) w2
                  | [] => w2
                  end)) as Hw3.
  { unfold w3, onPointerUp. rewrite Hd2, Ha2, Ha1. simpl. by destruct els. }
  split; [unfold isDragging; by rewrite Hd1|].
  split; [unfold currentMode; by rewrite Hd1|].
  split; [by rewrite Hw3|]. split; [by rewrite Hw3|].
  split; [rewrite Hw3; destruct els; simpl; by rewrite ?emit_heap|].
  split; [|split; [|split]].
  - intros el e Hel He.
    pose proof (snapshot_lookup els w el e Hids Hel He) as Hs.
    exists (movedElement dx dy (startProps e) e). split.
    + rewrite Hw2.
      rewrite (handleMove_lookup move w1 d el e (startProps e)); try done.
      * by rewrite Htw.
      * by rewrite Ha1.
      * by rewrite Hh1.
    + destruct (movedElement_spec dx dy (startProps e) e) as (?&?&?&?&?).
      done.
  - intros el Hel. rewrite Hw2.
    rewrite (handleMove_lookup_other move w1 d); [by rewrite Hh1|done|].
    by rewrite Ha1.
  - intros el0 rest Hels. apply isInteraction_since.
    assert (filter isInteraction (eventBus w2)
            = filter isInteraction (eventBus w1)
              ++ [interaction_dragMove els dx dy]) as Hb2.
    { rewrite Hw2. unfold handleMove. rewrite Hd1, emit_eventBus, filter_app.
      rewrite Ha1, Htw. f_equal.
      apply (loop_frame d _ (λ w, filter isInteraction (eventBus w))).
      intros. unfold set_x, set_y. by rewrite !setProperty_isInteraction. }
    assert (exists pre2, eventBus w2 = eventBus w1 ++ pre2) as [pre2 Hp2].
    { rewrite Hw2. unfold handleMove. rewrite Hd1, emit_eventBus.
      destruct (loop_eventBus_prefix d
                  (λ el start w0,
                     set_y el (start_y start + ((toWorld move w1).2 - startY d))
                       (set_x el (start_x start
                                  + ((toWorld move w1).1 - startX d)) w0))
                  ltac:(intros; unfold set_x, set_y;
                        rewrite !setProperty_eventBus, <- !app_assoc;
                        eexists; reflexivity)
                  (activeElements w1) w1) as [pre ->].
      rewrite <- app_assoc. eexists. reflexivity. }
    exists (match els with
            | el0 :: _ => [interaction_dragStart el0 (toWorld down w).1
                             (toWorld down w).2]
            | [] => []
            end ++ pre2 ++ [interaction_dragEnd els]).
    split.
    + rewrite Hw3, Hels. cbn [eventBus with_gesture].
      rewrite emit_eventBus, Hp2, Hb1, Hels.
      by rewrite <- !app_assoc.
    + rewrite Hp2, filter_app in Hb2. apply app_inv_head in Hb2.
      rewrite Hels in *. rewrite !filter_app, Hb2. reflexivity.
  - intros ev. unfold onPointerMove. by rewrite Hw3.
Qed.

Lemma rectScene_ids : distinctIds [0%nat] rectScene.
Proof.
  intros a b ea eb Ha Hb _ _ _.
  apply list_elem_of_singleton in Ha, Hb. congruence.
Qed.

Lemma drag_translates_witness :
  let w2 := onPointerMove (pointer 8 9)
              (startMove [0%nat] (pointer 5 5) rectScene) in
  exists e', heap w2 !! 0%nat = Some e' /\ _x e' == 13 /\ _y e' == 14.
Proof.
  intros w2.
  destruct (drag_translates rectScene [0%nat] (pointer 5 5) (pointer 8 9)
              (NoDup_singleton 0%nat) rectScene_ids)
    as (_ & _ & _ & _ & _ & H & _).
  destruct (H 0%nat rect0 (list_elem_of_here _ _) eq_refl)
    as (e' & He' & Hx & Hy & _).
  exists e'. split; [exact He'|]. split.
  - rewrite Hx. reflexivity.
  - rewrite Hy. reflexivity.
Defined.

End Drag.

(** ** Resizing with the aspect ratio kept *)

Section Constrained.
Import TransformController.

#[local] Arguments includes : simpl never.





End Constrained.

(** ** Rotating *)

Section Rotate.
Import TransformController.

(** A loop over the affected objects whose body keeps a property of the
    state that it relies on. *)
Lemma loop_lookup_inv (d : DragState)
    (body : nat -> StartProps -> World -> World)
    (f : StartProps -> BaseElement -> BaseElement) (I : World -> Prop) :
  (forall el start w e,
      I w -> heap w !! el = Some e ->
      heap (body el start w) = <[el := f start e]> (heap w)) ->
  (forall el start w, I w -> I (body el start w)) ->
  forall els w el,
    I w -> NoDup els ->
    heap (foldl (withStart d body) w els) !! el =
    if bool_decide (el ∈ els)
    then (λ e, match elementStartProps d !! el_id e with
               | Some start => f start e
               | None => e
               end) <$> heap w !! el
    else heap w !! el.
Proof.
  intros Hbody Hinv els.
  assert (forall w a, I w -> I (withStart d body w a)) as Hinv'.
  { intros w a Hw. unfold withStart. repeat case_match; auto. }
  assert (forall w a el, I w -> a ≠ el ->
            heap (withStart d body w a) !! el = heap w !! el) as Hne.
  { intros w a el Hw Hae. unfold withStart.
    destruct (heap w !! a) as [e|] eqn:He; [|done].
    destruct (elementStartProps d !! el_id e) as [start|]; [|done].
    rewrite (Hbody _ _ _ _ Hw He). by apply lookup_insert_ne. }
  induction els as [|a els IH]; intros w el Hw Hnd; [done|].
  apply NoDup_cons in Hnd as [Ha Hnd]. simpl.
  rewrite IH by auto.
  destruct (decide (el = a)) as [->|Hela].
  - rewrite (bool_decide_eq_false_2 (a ∈ els)) by done.
    rewrite (bool_decide_eq_true_2 (a ∈ a :: els)) by left.
    unfold withStart.
    destruct (heap w !! a) as [e|] eqn:He; simpl; [|by rewrite He].
    destruct (elementStartProps d !! el_id e) as [start|]; [|done].
    rewrite (Hbody _ _ _ _ Hw He). apply lookup_insert_eq.
  - rewrite Hne by (auto || congruence).
    destruct (bool_decide (el ∈ els)) eqn:E.
    + apply bool_decide_eq_true in E.
      by rewrite bool_decide_eq_true_2 by (by right).
    + apply bool_decide_eq_false in E.
      rewrite bool_decide_eq_false_2; [done|].
      intros [?|?]%elem_of_cons; done.
Qed.

Lemma rotatedElement_spec atan2 d px py start e :
  let e' := rotatedElement atan2 d px py start e in
  _x e' = _x e /\ _y e' = _y e /\ subclass e' = subclass e /\
  el_id e' = el_id e /\
  _rotation e' ==
    start_rotation start
    + (atan2 (py - (_y e + height e / 2)) (px - (_x e + width e / 2))
       - atan2 (startY d - (_y e + height e / 2))
               (startX d - (_x e + width e / 2))).
Proof.
  destruct e as [id en x y rot z vis int op sub].
  unfold rotatedElement, assign, write. simpl.
  guards; simpl; q2p; repeat split; try done; lra.
Qed.

(** X15.  A rotate step changes nothing but the rotation of the
    affected objects: position and size stay, every other object stays.
    The rotation becomes the snapshot rotation plus the angle the pointer
    has turned, since the start of the gesture, about the centre of the
    object's box ([x + width / 2], [y + height / 2]); with the pointer at
    the point where the gesture started it is the snapshot rotation. *)
Theorem handleRotate_rotation_only (w : World) (d : DragState)
    (event : FederatedPointerEvent) :
  dragState w = Some d ->
  NoDup (activeElements w) ->
  dragState (handleRotate event w) = Some d /\
  activeElements (handleRotate event w) = activeElements w /\
  (forall el e start,
      el ∈ activeElements w ->
      heap w !! el = Some e ->
      elementStartProps d !! el_id e = Some start ->
      exists e',
        heap (handleRotate event w) !! el = Some e' /\
        _x e' = _x e /\ _y e' = _y e /\ subclass e' = subclass e /\
        (let cx := _x e + width e / 2 in
         let cy := _y e + height e / 2 in
         _rotation e' ==
           start_rotation start
           + (angleBetweenPoints w cx cy (toWorld event w).1
                (toWorld event w).2
              - angleBetweenPoints w cx cy (startX d) (startY d))) /\
        (toWorld event w = (startX d, startY d) ->
         _rotation e' == start_rotation start)) /\
  (forall el, el ∉ activeElements w ->
              heap (handleRotate event w) !! el = heap w !! el).
Proof.
  intros Hd Hnd. unfold handleRotate. rewrite Hd.
  set (body := λ (el : nat) (start : StartProps) (w0 : World),
         match heap w0 !! el with
         | Some e =>
             set_rotation el
               (start_rotation start
                + (angleBetweenPoints w0 (_x e + width e / 2)
                     (_y e + height e / 2) (toWorld event w).1
                     (toWorld event w).2
                   - angleBetweenPoints w0 (_x e + width e / 2)
                       (_y e + height e / 2) (startX d) (startY d))) w0
         | None => w0
         end).
  set (f := rotatedElement (Math_atan2 (platform w)) d
              (toWorld event w).1 (toWorld event w).2).
  assert (forall el start w0 e,
            platform w0 = platform w -> heap w0 !! el = Some e ->
            heap (body el start w0) = <[el := f start e]> (heap w0)) as Hbody.
  { intros el start w0 e Hpl He. unfold body, f, rotatedElement.
    rewrite He. unfold set_rotation, angleBetweenPoints. rewrite Hpl.
    by rewrite (setProperty_heap_Some _ _ _ _ _ He). }
  assert (forall el start w0,
            platform w0 = platform w -> platform (body el start w0)
                                        = platform w) as Hinv.
  { intros el start w0 Hpl. unfold body.
    destruct (heap w0 !! el); [|done].
    unfold set_rotation. by rewrite setProperty_platform. }
  pose proof (loop_lookup_inv d body f (λ w0, platform w0 = platform w)
                Hbody Hinv (activeElements w) w) as Hloop.
  split; [|split; [|split]].
  - rewrite <- Hd. apply (loop_frame d). intros el start w0. unfold body.
    destruct (heap w0 !! el); [|done].
    unfold set_rotation. by rewrite setProperty_dragState.
  - apply (loop_frame d). intros el start w0. unfold body.
    destruct (heap w0 !! el); [|done].
    unfold set_rotation. by rewrite setProperty_activeElements.
  - intros el e start Hel He Hs.
    exists (f start e). split.
    + rewrite (Hloop el eq_refl Hnd).
      rewrite bool_decide_eq_true_2 by done. rewrite He. simpl.
      by rewrite Hs.
    + destruct (rotatedElement_spec (Math_atan2 (platform w)) d
                  (toWorld event w).1 (toWorld event w).2 start e)
        as (Hx & Hy & Hsub & _ & Hrot).
      fold f in Hx, Hy, Hsub, Hrot.
      repeat split; try done.
      intros Htw. rewrite Hrot, Htw. simpl. lra.
  - intros el Hel. rewrite (Hloop el eq_refl Hnd).
    by rewrite bool_decide_eq_false_2.
Qed.

Lemma handleRotate_rotation_only_witness :
  let w := startRotate [0%nat] (pointer 0 0) rectScene in
  exists e',
    heap (handleRotate (pointer 0 0) w) !! 0%nat = Some e' /\
    _x e' = 10 /\ _y e' = 10 /\ _rotation e' == 0.
Proof.
  intros w.
  destruct (handleRotate_rotation_only w
              {| mode := mode_rotate; startX := 0; startY := 0;
                 handlePosition := None;
                 elementStartProps := {["e0" := rectStart]} |}
              (pointer 0 0)) as (_ & _ & H & _).
  - vm_compute. reflexivity.
  - vm_compute. apply NoDup_singleton.
  - destruct (H 0%nat rect0 rectStart) as (e' & He' & Hx & Hy & _ & _ & Hr).
    + vm_compute. apply list_elem_of_here.
    + vm_compute. reflexivity.
    + vm_compute. reflexivity.
    + exists e'. split; [exact He'|]. split; [exact Hx|].
      split; [exact Hy|]. apply Hr. reflexivity.
Defined.

End Rotate.

(** ** Selecting, nudging, deleting *)

Section SelectionOps.
Import ElementManager SelectionManager.

#[local] Set Warnings "-clear-no-such-hyp".


Lemma foldl_frame {A} (body : World -> nat -> World) (proj : World -> A) :
  (forall w el, proj (body w el) = proj w) ->
  forall els w, proj (foldl body w els) = proj w.
Proof.
  intros Hbody els. induction els as [|a els IH]; intros w; [done|].
  simpl. by rewrite IH.
Qed.

Lemma set_add_elem (r el : nat) (s : list nat) :
  r ∈ set_add el s <-> r ∈ s \/ r = el.
Proof.
  unfold set_add. destruct (bool_decide (el ∈ s)) eqn:E.
  - apply bool_decide_eq_true in E. split; [by left|].
    intros [?| ->]; done.
  - rewrite elem_of_app, list_elem_of_singleton. done.
Qed.

Lemma set_add_NoDup (el : nat) (s : list nat) :
  NoDup s -> NoDup (set_add el s).
Proof.
  intros Hnd. unfold set_add. destruct (bool_decide (el ∈ s)) eqn:E; [done|].
  apply bool_decide_eq_false in E.
  apply NoDup_app. split; [done|]. split; [|apply NoDup_singleton].
  intros x Hx ->%list_elem_of_singleton. done.
Qed.

Lemma set_add_prefix (el : nat) (s : list nat) : s `prefix_of` set_add el s.
Proof.
  unfold set_add. destruct (bool_decide (el ∈ s)); [done|].
  by apply prefix_app_r.
Qed.

(** X16.  [selectAll] adds to the selection every element of the
    scene that is interactable, in scene order after what was selected;
    it removes nothing, so an element that is not interactable or not in
    the scene stays selected if it was; it touches no object and emits one
    ['selection:changed'] with the new selection. *)
Theorem selectAll_adds (w : World) :
  NoDup (selected w) ->
  (forall r, r ∈ selected (selectAll w) <->
             r ∈ selected w \/
             (r ∈ getAll w /\
              exists e, heap w !! r = Some e /\ _interactable e = true)) /\
  NoDup (selected (selectAll w)) /\
  selected w `prefix_of` selected (selectAll w) /\
  heap (selectAll w) = heap w /\
  emittedSince w (selectAll w) = [selection_changed (selected (selectAll w))].
Proof.
  intros Hnd. unfold selectAll.
  set (step := λ (w : World) (el : nat),
         match heap w !! el with
         | Some e => if _interactable e
                     then with_selected (set_add el (selected w)) w else w
         | None => w
         end).
  assert (forall w0 el, heap (step w0 el) = heap w0) as Hh
    by (intros; unfold step; repeat case_match; done).
  assert (forall w0 el, eventBus (step w0 el) = eventBus w0) as Hb
    by (intros; unfold step; repeat case_match; done).
  assert (forall l w0,
            NoDup (selected w0) ->
            (forall r, r ∈ selected (foldl step w0 l) <->
                       r ∈ selected w0 \/
                       (r ∈ l /\ exists e, heap w0 !! r = Some e /\
                                           _interactable e = true)) /\
            NoDup (selected (foldl step w0 l)) /\
            selected w0 `prefix_of` selected (foldl step w0 l)) as Hloop.
  { induction l as [|a l IH]; intros w0 Hnd0; simpl.
    - split; [|done]. intros r. split; [by left|].
      intros [?|[Hr _]]; [done|by apply elem_of_nil in Hr].
    - assert (NoDup (selected (step w0 a))) as Hnd1.
      { unfold step. repeat case_match; try done. simpl.
        by apply set_add_NoDup. }
      destruct (IH (step w0 a) Hnd1) as (H1 & H2 & H3).
      split; [|split; [done|]].
      + intros r. rewrite H1, Hh.
        assert (r ∈ selected (step w0 a) <->
                r ∈ selected w0 \/
                (r = a /\ exists e, heap w0 !! r = Some e /\
                                    _interactable e = true)) as ->.
        { unfold step. destruct (heap w0 !! a) as [e|] eqn:He.
          - destruct (_interactable e) eqn:Hi; simpl.
            + rewrite set_add_elem. split; [|intros [?|[? _]]; auto].
              intros [?| ->]; [by left|right]. split; [done|by exists e].
            + split; [by left|]. intros [?|[-> (e' & ? & ?)]]; [done|].
              congruence.
          - split; [by left|]. intros [?|[-> (e' & ? & ?)]]; [done|].
            congruence. }
        rewrite elem_of_cons. tauto.
      + etrans; [|exact H3]. unfold step. repeat case_match; try done.
        simpl. apply set_add_prefix. }
  destruct (Hloop (getAll w) w Hnd) as (H1 & H2 & H3).
  unfold getSelected, updateSelectionVisuals.
  autorewrite with frame. cbn [selected with_selectionBoxVisible heap].
  split; [done|]. split; [done|]. split; [done|].
  split; [by apply (foldl_frame step heap)|].
  apply emittedSince_app. autorewrite with frame.
  cbn [eventBus with_selectionBoxVisible selected].
  by rewrite (foldl_frame step eventBus Hb).
Qed.

Lemma selectAll_adds_witness :
  selected (selectAll rectScene) = [0%nat] /\
  NoDup (selected (selectAll rectScene)).
Proof.
  split; [vm_compute; reflexivity|].
  apply (selectAll_adds rectScene). vm_compute. constructor.
Defined.






Lemma remove_selected el w :
  selected (remove el w) =
  match heap w !! el with
  | Some e => if has (el_id e) w
              then filter (λ r, r ≠ el) (selected w) else selected w
  | None => selected w
  end.
Proof.
  unfold remove. destruct (heap w !! el) as [e|]; [|done].
  destruct (has (el_id e) w); cbn [negb]; [|done].
  by autorewrite with frame.
Qed.

Lemma remove_eventBus el w :
  eventBus (remove el w) =
  match heap w !! el with
  | Some e => if has (el_id e) w
              then eventBus w ++ [element_removed el] else eventBus w
  | None => eventBus w
  end.
Proof.
  unfold remove. destruct (heap w !! el) as [e|]; [|done].
  destruct (has (el_id e) w); cbn [negb]; [|done].
  by autorewrite with frame.
Qed.

Lemma filter_not_cons {A} `{EqDecision A} (a : A) (sel : list A)
    (l : list A) :
  filter (λ r, r ∉ sel) (filter (λ r, r ≠ a) l)
  = filter (λ r, r ∉ a :: sel) l.
Proof.
  induction l as [|b l IH]; [done|].
  destruct (decide (b ≠ a)) as [Hp|Hp].
  - rewrite (filter_cons_True (λ r, r ≠ a)) by done.
    destruct (decide (b ∉ sel)) as [Hq|Hq].
    + rewrite !filter_cons_True; [by rewrite IH|set_solver|done].
    + rewrite !filter_cons_False; [done|set_solver|done].
  - rewrite (filter_cons_False (λ r, r ≠ a)) by done.
    rewrite filter_cons_False by set_solver. done.
Qed.

Lemma filter_not_cons_snd (a : nat) (sel : list nat)
    (l : list (string * nat)) :
  filter (λ kv, kv.2 ∉ sel) (filter (λ kv, kv.2 ≠ a) l)
  = filter (λ kv, kv.2 ∉ a :: sel) l.
Proof.
  induction l as [|b l IH]; [done|].
  destruct (decide (b.2 ≠ a)) as [Hp|Hp].
  - rewrite (filter_cons_True (λ kv, kv.2 ≠ a)) by done.
    destruct (decide (b.2 ∉ sel)) as [Hq|Hq].
    + rewrite !filter_cons_True; [by rewrite IH|set_solver|done].
    + rewrite !filter_cons_False; [done|set_solver|done].
  - rewrite (filter_cons_False (λ kv, kv.2 ≠ a)) by done.
    rewrite filter_cons_False by set_solver. done.
Qed.

Lemma filter_not_snd (sel : list nat) (l : list (string * nat)) :
  (filter (λ kv, kv.2 ∉ sel) l).*2 = filter (λ r, r ∉ sel) l.*2.
Proof.
  induction l as [|[id r] l IH]; [done|].
  destruct (decide (r ∉ sel)) as [Hp|Hp].
  - rewrite filter_cons_True by done. rewrite !fmap_cons.
    rewrite filter_cons_True by done. f_equal. apply IH.
  - rewrite filter_cons_False by done. rewrite !fmap_cons.
    rewrite filter_cons_False by done. apply IH.
Qed.

(** The loop of [deleteSelected]. *)
Lemma delete_loop sel :
  forall w,
  keyedById w -> NoDup sel -> (forall r, r ∈ sel -> r ∈ getAll w) ->
  let w' := foldl (λ w el, remove el w) w sel in
  elements w' = filter (λ kv, kv.2 ∉ sel) (elements w) /\
  selected w' = filter (λ r, r ∉ sel) (selected w) /\
  eventBus w' = eventBus w ++ (element_removed <$> sel) /\
  forall r, heap w' !! r =
            if bool_decide (r ∈ sel)
            then with_engine false <$> heap w !! r else heap w !! r.
Proof.
  induction sel as [|a sel IH]; intros w Hk Hnd Hin; simpl.
  - rewrite !filter_all by (apply Forall_forall; intros; set_solver).
    by rewrite app_nil_r.
  - apply NoDup_cons in Hnd as [Ha Hnd].
    destruct (remove_elements_ref w a Hk (Hin a ltac:(left)))
      as (Hel & e & He & Hh).
    assert (forall r, r ∈ sel -> r ∈ getAll (remove a w)) as Hin'.
    { intros r Hr. unfold getAll. rewrite Hel, filter_snd.
      apply list_elem_of_filter. split; [intros ->; done|].
      apply Hin. by right. }
    destruct (IH (remove a w) (keyedById_remove w a Hk) Hnd Hin')
      as (H1 & H2 & H3 & H4).
    rewrite H1, H2, H3. clear H1 H2 H3.
    rewrite Hel, remove_selected, remove_eventBus, He, Hh.
    split; [apply filter_not_cons_snd|].
    split; [apply filter_not_cons|].
    split; [by rewrite <- app_assoc|].
    intros r. rewrite H4, remove_heap, He, Hh.
    destruct (decide (r = a)) as [->|Hne].
    + rewrite (bool_decide_eq_false_2 (a ∈ sel)) by done.
      rewrite (bool_decide_eq_true_2 (a ∈ a :: sel)) by left.
      by rewrite lookup_insert_eq, He.
    + rewrite lookup_insert_ne by done.
      destruct (bool_decide (r ∈ sel)) eqn:E.
      * apply bool_decide_eq_true in E.
        by rewrite bool_decide_eq_true_2 by (by right).
      * apply bool_decide_eq_false in E.
        rewrite bool_decide_eq_false_2; [done|].
        intros [?|?]%elem_of_cons; done.
Qed.

(** X18.  [deleteSelected], in a map keyed by id with every selected
    element in the scene: the selection ends empty, the scene loses
    exactly the selected elements and keeps the order of the others,
    every selected element is detached and no other object changes.  The
    events are one ['element:removed'] per selected element, in selection
    order, and nothing else: no ['selection:cleared'] and no
    ['selection:changed'], since the listener of ['element:removed'] has
    emptied the selection before [clearSelection] looks at it. *)
Theorem deleteSelected_removes (w : World) :
  keyedById w ->
  NoDup (selected w) ->
  (forall r, r ∈ selected w -> r ∈ getAll w) ->
  selected (deleteSelected w) = [] /\
  getAll (deleteSelected w) = filter (λ r, r ∉ selected w) (getAll w) /\
  (forall r, r ∈ selected w -> attached r (deleteSelected w) = false) /\
  (forall r, r ∉ selected w -> heap (deleteSelected w) !! r = heap w !! r) /\
  emittedSince w (deleteSelected w) = element_removed <$> selected w.
Proof.
  intros Hk Hnd Hin.
  destruct (delete_loop (selected w) w Hk Hnd Hin) as (H1 & H2 & H3 & H4).
  unfold deleteSelected, getSelected.
  set (w' := foldl (λ w el, remove el w) w (selected w)) in *.
  assert (selected w' = []) as Hs.
  { rewrite H2. apply filter_none. apply Forall_forall. tauto. }
  assert (clearSelection w' = w') as -> by (unfold clearSelection; by rewrite Hs).
  split; [done|]. split; [|split; [|split]].
  - unfold getAll. rewrite H1. apply filter_not_snd.
  - intros r Hr. unfold attached. rewrite H4, bool_decide_eq_true_2 by done.
    by destruct (heap w !! r).
  - intros r Hr. by rewrite H4, bool_decide_eq_false_2.
  - by apply emittedSince_app.
Qed.

Lemma deleteSelected_removes_witness :
  getAll (deleteSelected selectedScene) = [] /\
  emittedSince selectedScene (deleteSelected selectedScene)
    = [element_removed 0%nat].
Proof.
  destruct (deleteSelected_removes selectedScene) as (_ & H1 & _ & _ & H2).
  - split; [vm_compute; apply NoDup_singleton|].
    intros id r Hin. vm_compute in Hin.
    apply list_elem_of_singleton in Hin. injection Hin as -> ->.
    exists rect0. repeat split; reflexivity.
  - vm_compute. apply NoDup_singleton.
  - intros r Hr. vm_compute in Hr. vm_compute. exact Hr.
  - split; [rewrite H1|rewrite H2]; vm_compute; reflexivity.
Defined.

End SelectionOps.

(** ** Copying and serializing *)

Section Serialize.
Import ElementManager SerializationManager SelectionManager.

#[local] Set Warnings "-clear-no-such-hyp".
#[local] Arguments assign : simpl never.
#[local] Arguments constructed : simpl never.

Lemma assign_base_other p q v e :
  baseProperty p = true -> p ≠ q -> read q (assign p v e) = read q e.
Proof.
  intros Hp Hpq. unfold assign.
  destruct p; try discriminate; destruct v; unfold write;
    repeat case_match; simpl; try done;
    destruct q; try done.
Qed.

Lemma assign_base_subclass p v e :
  baseProperty p = true -> subclass (assign p v e) = subclass e.
Proof.
  intros Hp. unfold assign.
  destruct p; try discriminate; destruct v; unfold write;
    repeat case_match; simpl; done.
Qed.

Lemma assign_base_same p v e :
  baseProperty p = true -> wellTyped p v = true ->
  Veq (read p (assign p v e)) v.
Proof.
  intros Hp Hty. unfold assign.
  destruct p; try discriminate; destruct v; try discriminate;
    unfold write; simpl.
  all: try (destruct (Qeq_bool _ q) eqn:E; simpl;
            [by apply Qeq_bool_iff in E|reflexivity]).
  all: destruct (Bool.eqb _ b) eqn:E; simpl; [|done];
       by apply Bool.eqb_prop in E.
Qed.

Lemma Veq_num a b : Veq (VNum a) (VNum b) -> a == b.
Proof. done. Qed.

Lemma Veq_bool a b : Veq (VBool a) (VBool b) -> a = b.
Proof. done. Qed.

(** What the assignments of a [fromJSON] leave in the new object. *)
Lemma commonApplied_fields data e :
  let e' := commonApplied data e in
  _x e' == s_x data /\ _y e' == s_y data /\
  _rotation e' == s_rotation data /\ _zIndex e' == s_zIndex data /\
  _visible e' = s_visible data /\ _interactable e' = s_interactable data /\
  _opacity e' == s_opacity data /\ subclass e' = subclass e.
Proof.
  unfold commonApplied.
  repeat match goal with
  | |- _ /\ _ => split
  end.
  - apply Veq_num. change (VNum (_x ?e)) with (read P_x e).
    rewrite !assign_base_other by done. by apply assign_base_same.
  - apply Veq_num. change (VNum (_y ?e)) with (read P_y e).
    rewrite !(assign_base_other _ P_y) by done. by apply assign_base_same.
  - apply Veq_num. change (VNum (_rotation ?e)) with (read P_rotation e).
    rewrite !(assign_base_other _ P_rotation) by done.
    by apply assign_base_same.
  - apply Veq_num. change (VNum (_zIndex ?e)) with (read P_zIndex e).
    rewrite !(assign_base_other _ P_zIndex) by done.
    by apply assign_base_same.
  - apply Veq_bool. change (VBool (_visible ?e)) with (read P_visible e).
    rewrite !(assign_base_other _ P_visible) by done.
    by apply assign_base_same.
  - apply Veq_bool.
    change (VBool (_interactable ?e)) with (read P_interactable e).
    rewrite !(assign_base_other _ P_interactable) by done.
    by apply assign_base_same.
  - apply Veq_num. change (VNum (_opacity ?e)) with (read P_opacity e).
    by apply assign_base_same.
  - by rewrite !assign_base_subclass.
Qed.

Lemma standardRegistry_type e :
  standardRegistry !! el_type e =
  Some match subclass e with
       | TextElement _ _ => TextCtor
       | ImageElement _ _ => ImageCtor
       | ShapeElement _ => ShapeCtor
       end.
Proof. unfold el_type. by destruct (subclass e). Qed.

(** X19.  Deserializing what [toJSON] wrote for an element builds one
    new object and changes nothing else: the object is not attached, has
    a newly generated id (the serialized id is not taken over), and has
    the x, y, rotation, zIndex, visible, interactable and opacity of the
    element.  For a shape it has the element's shape parameters, hence
    its width and height; for a text or an image it is a text or an image
    again, with the size its display object takes. *)
Theorem deserialize_toJSON (w : World) (e : BaseElement) :
  exists e',
    deserializeElement standardRegistry (toJSON e) w
    = Built (nextRef w)
        (with_heap (<[nextRef w := e']> (heap w))
           (with_nextRef (S (nextRef w))
              (with_uidCalls (S (uidCalls w)) w))) /\
    el_id e' = generateUid (platform w) (uidCalls w) /\
    engine e' = false /\
    _x e' == _x e /\ _y e' == _y e /\ _rotation e' == _rotation e /\
    _zIndex e' == _zIndex e /\ _visible e' = _visible e /\
    _interactable e' = _interactable e /\ _opacity e' == _opacity e /\
    subclass e' =
      match subclass e with
      | TextElement _ _ =>
          TextElement (displaySize (platform w) (toJSON e)).1
                      (displaySize (platform w) (toJSON e)).2
      | ImageElement _ _ =>
          ImageElement (displaySize (platform w) (toJSON e)).1
                       (displaySize (platform w) (toJSON e)).2
      | ShapeElement params => ShapeElement params
      end.
Proof.
  set (s := match subclass e with
            | TextElement _ _ =>
                TextElement (displaySize (platform w) (toJSON e)).1
                            (displaySize (platform w) (toJSON e)).2
            | ImageElement _ _ =>
                ImageElement (displaySize (platform w) (toJSON e)).1
                             (displaySize (platform w) (toJSON e)).2
            | ShapeElement params => ShapeElement params
            end).
  set (e0 := constructed (generateUid (platform w) (uidCalls w)) s).
  exists (commonApplied (toJSON e) e0).
  destruct (commonApplied_fields (toJSON e) e0)
    as (Hx & Hy & Hr & Hz & Hv & Hi & Ho & Hs).
  destruct (commonApplied_spec (toJSON e) e0) as (_ & _ & Hid & Hen).
  split; [|repeat split; done].
  unfold deserializeElement.
  change (s_type (toJSON e)) with (el_type e).
  rewrite standardRegistry_type.
  apply fromJSON_built. unfold builtSubclass, s. simpl.
  by destruct (subclass e).
Qed.

Lemma copied_Forall2 (w : World) :
  (forall r, r ∈ selected w -> is_Some (heap w !! r)) ->
  Forall2 (λ r json, exists e, heap w !! r = Some e /\ json = toJSON e)
    (selected w) (clipboard (copySelected w)).
Proof.
  intros Hlive. unfold copySelected, getSelected. simpl.
  induction (selected w) as [|r l IH]; [constructor|].
  destruct (Hlive r ltac:(left)) as [e He]. simpl. rewrite He. simpl.
  constructor; [by exists e|]. apply IH. intros; apply Hlive. by right.
Qed.

Lemma copied_known (w : World) json :
  json ∈ clipboard (copySelected w) ->
  exists e, json = toJSON e /\
            standardRegistry !! s_type json =
            Some match subclass e with
                 | TextElement _ _ => TextCtor
                 | ImageElement _ _ => ImageCtor
                 | ShapeElement _ => ShapeCtor
                 end.
Proof.
  unfold copySelected, getSelected. simpl.
  intros (r & _ & Hr)%list_elem_of_omap.
  destruct (heap w !! r) as [e|]; [|done]. injection Hr as <-.
  exists e. split; [done|]. apply standardRegistry_type.
Qed.

Lemma copied_entriesOk (w : World) :
  entriesOk standardRegistry (clipboard (copySelected w)).
Proof.
  intros json Hin Hreg.
  destruct (copied_known w json Hin) as (e & -> & He).
  rewrite He in Hreg. simpl.
  destruct (subclass e); try discriminate. by eexists.
Qed.

(** X20.  [copySelected] writes one clipboard entry for every selected
    object, in selection order, the entry being the object's [toJSON];
    store, scene, selection and bus stay as they are.  Every entry has a
    type the standard registry knows, and a shape entry carries its shape
    parameters, so a paste skips none of them. *)
Theorem copySelected_entries (w : World) :
  (forall r, r ∈ selected w -> is_Some (heap w !! r)) ->
  Forall2 (λ r json, exists e, heap w !! r = Some e /\ json = toJSON e)
    (selected w) (clipboard (copySelected w)) /\
  entriesOk standardRegistry (clipboard (copySelected w)) /\
  filter (λ json, is_Some (standardRegistry !! s_type json))
    (clipboard (copySelected w)) = clipboard (copySelected w) /\
  copySelected w = with_clipboard (clipboard (copySelected w)) w.
Proof.
  intros Hlive.
  split; [by apply copied_Forall2|].
  split; [apply copied_entriesOk|]. split; [|done].
  apply filter_all. apply Forall_forall. intros json Hin.
  destruct (copied_known w json Hin) as (e & _ & ->). by eexists.
Qed.

Lemma copySelected_entries_witness :
  Forall2 (λ r json, exists e, heap selectedScene !! r = Some e /\
                               json = toJSON e)
    [0%nat] (clipboard (copySelected selectedScene)).
Proof.
  apply (copySelected_entries selectedScene).
  intros r Hr. vm_compute in Hr. apply list_elem_of_singleton in Hr.
  subst r. vm_compute. by eexists.
Defined.

End Serialize.

(** ** Copy and paste together *)

Section CopyPaste.
Import ElementManager SerializationManager SelectionManager.

#[local] Set Warnings "-clear-no-such-hyp".
#[local] Arguments assign : simpl never.
#[local] Arguments commonApplied : simpl never.
#[local] Arguments constructed : simpl never.
#[local] Arguments pasteEntries : simpl never.

(** One turn of the paste loop on an entry that deserializes, with every
    field of the new object. *)
Lemma paste_turn_fields registry json rest w ctor s :
  registry !! s_type json = Some ctor ->
  builtSubclass (platform w) ctor
    (pasted (generateUid (platform w) (uidCalls w)) json) = Some s ->
  generateUid (platform w) (S (uidCalls w)) ∉ (elements w).*1 ->
  nextRef w ∉ selected w ->
  exists w2 e,
    pasteEntries registry (json :: rest) w = pasteEntries registry rest w2 /\
    platform w2 = platform w /\
    nextRef w2 = S (nextRef w) /\
    uidCalls w2 = S (S (uidCalls w)) /\
    selected w2 = selected w ++ [nextRef w] /\
    elements w2 = elements w ++ [(el_id e, nextRef w)] /\
    heap w2 = <[nextRef w := e]> (heap w) /\
    el_id e = generateUid (platform w) (S (uidCalls w)) /\
    pastedFrom json e /\ subclass e = s.
Proof.
  intros Hreg Hs Hfresh Hsel.
  set (data := pasted (generateUid (platform w) (uidCalls w)) json) in *.
  set (w1 := with_uidCalls (S (uidCalls w)) w).
  set (e0 := commonApplied data
               (constructed (generateUid (platform w1) (uidCalls w1)) s)).
  destruct (commonApplied_spec data
              (constructed (generateUid (platform w1) (uidCalls w1)) s))
    as (_ & _ & Hid & Hen).
  destruct (commonApplied_fields data
              (constructed (generateUid (platform w1) (uidCalls w1)) s))
    as (Hx & Hy & Hr & Hz & Hv & Hi & Ho & Hsub).
  fold e0 in Hx, Hy, Hr, Hz, Hv, Hi, Ho, Hsub, Hid, Hen.
  change (el_id e0 = generateUid (platform w) (S (uidCalls w))) in Hid.
  change (engine e0 = false) in Hen.
  change (subclass e0 = s) in Hsub.
  set (wb := with_heap (<[nextRef w1 := e0]> (heap w1))
               (with_nextRef (S (nextRef w1))
                  (with_uidCalls (S (uidCalls w1)) w1))).
  assert (heap wb !! nextRef w = Some e0) as Hb by apply lookup_insert_eq.
  assert (el_id e0 ∉ (elements wb).*1) as Hb' by (by rewrite Hid).
  exists (addToSelection (nextRef w) (ElementManager.add (nextRef w) wb)),
         (with_engine true e0).
  split.
  - unfold pasteEntries; fold pasteEntries.
    fold data. fold w1. unfold deserializeElement.
    change (s_type data) with (s_type json). rewrite Hreg.
    rewrite (fromJSON_built ctor data w1 s Hs). reflexivity.
  - destruct (addToSelection_frame (nextRef w)
                (ElementManager.add (nextRef w) wb))
      as (-> & -> & -> & -> & -> & ->).
    rewrite (add_fresh _ _ _ Hb Hb'). autorewrite with frame.
    unfold set_add. rewrite bool_decide_eq_false_2 by done.
    repeat split; try done.
    unfold wb. cbn [heap with_heap]. apply insert_insert_eq.
Qed.

(** The loop of [pasteClipboard], with every field of the new objects. *)
Lemma pasteEntries_fields (registry : gmap string ElementConstructor)
    entries :
  forall w B,
  entriesOk registry entries ->
  (uidCalls w + 2 * length entries <= B)%nat ->
  uidsFresh w (uidCalls w) B ->
  Forall (λ r, (r < nextRef w)%nat) (selected w) ->
  selected (pasteEntries registry entries w)
    = selected w ++ (pastedObjects registry entries (nextRef w)).*1 /\
  ElementManager.getAll (pasteEntries registry entries w)
    = ElementManager.getAll w
      ++ (pastedObjects registry entries (nextRef w)).*1 /\
  (forall r, (r < nextRef w)%nat ->
             heap (pasteEntries registry entries w) !! r = heap w !! r) /\
  (forall r json,
      (r, json) ∈ pastedObjects registry entries (nextRef w) ->
      exists e k id ctor,
        heap (pasteEntries registry entries w) !! r = Some e /\
        pastedFrom json e /\
        (uidCalls w <= k < B)%nat /\
        el_id e = generateUid (platform w) k /\
        registry !! s_type json = Some ctor /\
        builtSubclass (platform w) ctor (pasted id json)
          = Some (subclass e)).
Proof.
  induction entries as [|json rest IH]; intros w B Hok Hb Hfresh Hsel.
  - unfold pasteEntries. simpl. rewrite !app_nil_r.
    repeat split; try done. intros r json H. by apply elem_of_nil in H.
  - assert (entriesOk registry rest) as Hok'
      by (intros j Hj; apply Hok; by right).
    simpl in Hb. destruct Hfresh as [Hnew Hinj].
    destruct (registry !! s_type json) as [ctor|] eqn:Hreg.
    + destruct (builtSubclass_ok registry (platform w) json
                  (generateUid (platform w) (uidCalls w)) ctor Hreg
                  (Hok json ltac:(left))) as [s Hs].
      assert (generateUid (platform w) (S (uidCalls w)) ∉ (elements w).*1)
        as Hid by (apply Hnew; lia).
      assert (nextRef w ∉ selected w) as Hns.
      { intros Hin. rewrite Forall_forall in Hsel.
        specialize (Hsel _ Hin). simpl in Hsel. lia. }
      destruct (paste_turn_fields registry json rest w ctor s Hreg Hs Hid Hns)
        as (w2 & e & -> & Hpl & Hnr & Hu & Hs2 & Hel & Hh & Heid
            & Hfrom & Hsub).
      destruct (IH w2 B Hok') as (IH1 & IH2 & IH3 & IH4).
      { rewrite Hu. lia. }
      { unfold uidsFresh. rewrite Hu, Hpl, Hel. split.
        - intros k Hk. rewrite fmap_app. simpl. rewrite Heid.
          intros [Hin|Hin%list_elem_of_singleton]%elem_of_app.
          + apply (Hnew k); [lia|done].
          + apply Hinj in Hin; lia.
        - intros j k Hj Hk. apply Hinj; lia. }
      { rewrite Hs2, Hnr. apply Forall_app. split.
        - eapply Forall_impl; [exact Hsel|]. simpl. intros; lia.
        - constructor; [lia|constructor]. }
      simpl. rewrite Hreg. simpl. rewrite Hnr in *.
      split; [by rewrite IH1, Hs2, <- app_assoc|].
      split.
      { rewrite IH2. unfold ElementManager.getAll. rewrite Hel.
        by rewrite fmap_app, <- app_assoc. }
      split.
      { intros r Hr. rewrite IH3 by lia. rewrite Hh.
        apply lookup_insert_ne. lia. }
      intros r j [Heq|Hin]%elem_of_cons.
      * injection Heq as -> ->.
        exists e, (S (uidCalls w)), (generateUid (platform w) (uidCalls w)),
               ctor.
        rewrite IH3 by lia. rewrite Hh, lookup_insert_eq, Hsub.
        split; [done|]. split; [exact Hfrom|]. split; [lia|].
        split; [done|]. split; done.
      * destruct (IH4 r j Hin)
          as (e' & k & id & c & He' & Hf' & Hk & Hk' & Hc' & Hb').
        exists e', k, id, c. rewrite Hpl in Hk', Hb'. rewrite Hu in Hk.
        split; [done|]. split; [exact Hf'|]. split; [lia|].
        split; [done|]. split; done.
    + rewrite (paste_skip _ _ _ _ Hreg).
      destruct (IH (with_uidCalls (S (uidCalls w)) w) B Hok')
        as (IH1 & IH2 & IH3 & IH4).
      { simpl. lia. }
      { split.
        - intros k Hk. apply Hnew. simpl in Hk. lia.
        - intros j k Hj Hk. simpl in Hj, Hk. apply Hinj; lia. }
      { done. }
      simpl. rewrite Hreg.
      repeat split; try done.
      intros r j Hin.
      destruct (IH4 r j Hin)
        as (e' & k & id & c & He' & Hf' & Hk & Hk' & Hc' & Hb').
      exists e', k, id, c. simpl in Hk.
      split; [done|]. split; [exact Hf'|]. split; [lia|].
      split; [done|]. split; done.
Qed.

Lemma pastedObjects_known (registry : gmap string ElementConstructor)
    entries :
  forall next,
  (forall json, json ∈ entries -> is_Some (registry !! s_type json)) ->
  pastedObjects registry entries next
  = zip (seq next (length entries)) entries.
Proof.
  induction entries as [|json rest IH]; intros next Hk; [done|].
  simpl. destruct (Hk json ltac:(left)) as [ctor ->].
  f_equal. apply IH. intros; apply Hk. by right.
Qed.

(** X21.  Copy and then paste, with the standard registry, a
    selection of live objects that is not empty, and identifiers from
    [generateUid] that are new: every selected object gets one duplicate,
    the duplicates are the new selection and are added to the scene after
    the elements it had, in the order of the objects copied, and no
    object that existed changes.  A duplicate is attached, has an id that
    is new to the scene, is moved by (20, 20) and has the rotation,
    zIndex, visible, interactable and opacity of its original; the
    duplicate of a shape has the original's shape parameters, the
    duplicate of a text or an image is a text or an image. *)
Theorem copy_paste_duplicates (w : World) :
  serializationManager w = Some standardRegistry ->
  selected w ≠ [] ->
  (forall r, r ∈ selected w -> is_Some (heap w !! r)) ->
  uidsFresh w (uidCalls w) (uidCalls w + 2 * length (selected w)) ->
  let w' := pasteClipboard (copySelected w) in
  selected w' = seq (nextRef w) (length (selected w)) /\
  getAll w' = getAll w ++ seq (nextRef w) (length (selected w)) /\
  (forall r, (r < nextRef w)%nat -> heap w' !! r = heap w !! r) /\
  (forall i r e,
      selected w !! i = Some r -> heap w !! r = Some e ->
      exists e',
        heap w' !! (nextRef w + i)%nat = Some e' /\
        engine e' = true /\
        (el_id e' ∉ (elements w).*1) /\
        _x e' == _x e + 20 /\ _y e' == _y e + 20 /\
        _rotation e' == _rotation e /\ _zIndex e' == _zIndex e /\
        _visible e' = _visible e /\ _interactable e' = _interactable e /\
        _opacity e' == _opacity e /\
        match subclass e with
        | ShapeElement params => subclass e' = ShapeElement params
        | TextElement _ _ => exists wd ht, subclass e' = TextElement wd ht
        | ImageElement _ _ => exists wd ht, subclass e' = ImageElement wd ht
        end).
Proof.
  intros Hsm Hne Hlive Hfresh w'.
  pose proof (copied_Forall2 w Hlive) as Hcopy.
  pose proof (Forall2_length _ _ _ Hcopy) as Hlen.
  set (w0 := copySelected w) in *.
  assert (clipboard w0 ≠ []) as Hclip.
  { intros Hnil. rewrite Hnil in Hlen. by destruct (selected w). }
  assert (forall json, json ∈ clipboard w0 ->
            is_Some (standardRegistry !! s_type json)) as Hknown.
  { intros json Hin. destruct (copied_known w json Hin) as (e & _ & ->).
    by eexists. }
  assert (w' = pasteEntries standardRegistry (clipboard w0)
                 (clearSelection w0)) as Hw'.
  { unfold w', pasteClipboard.
    change (serializationManager w0) with (serializationManager w).
    rewrite Hsm. by destruct (clipboard w0). }
  destruct (clearSelection_frame w0) as (Hs & Hh & Hpl & Hnr & Hu & Hel).
  change (heap w0) with (heap w) in Hh.
  change (platform w0) with (platform w) in Hpl.
  change (nextRef w0) with (nextRef w) in Hnr.
  change (uidCalls w0) with (uidCalls w) in Hu.
  change (elements w0) with (elements w) in Hel.
  destruct (pasteEntries_fields standardRegistry (clipboard w0)
              (clearSelection w0)
              (uidCalls w + 2 * length (selected w))
              (copied_entriesOk w))
    as (H1 & H2 & H3 & H4).
  { rewrite Hu, Hlen. lia. }
  { unfold uidsFresh. by rewrite Hu, Hpl, Hel. }
  { rewrite Hs. constructor. }
  rewrite <- Hw' in H1, H2, H3, H4. rewrite Hnr in H1, H2, H3, H4.
  rewrite (pastedObjects_known _ _ _ Hknown) in H1, H2, H4.
  rewrite fst_zip in H1, H2 by (rewrite length_seq; lia).
  rewrite <- Hlen in H1, H2. rewrite Hs in H1.
  split; [done|]. split.
  { rewrite H2. unfold getAll. by rewrite Hel. }
  split; [intros r Hr; rewrite H3 by done; by rewrite Hh|].
  intros i r e Hi He.
  destruct (Forall2_lookup_l _ _ _ _ _ Hcopy Hi) as (json & Hj & e0 & He0 & ->).
  assert (e0 = e) as -> by congruence.
  assert (((nextRef w + i)%nat, toJSON e) ∈
          zip (seq (nextRef w) (length (clipboard w0))) (clipboard w0))
    as Hin.
  { apply list_elem_of_lookup. exists i. apply lookup_zip_with_Some.
    exists (nextRef w + i)%nat, (toJSON e). split; [done|]. split; [|done].
    apply lookup_seq. split; [done|]. by apply lookup_lt_Some in Hj. }
  destruct (H4 _ _ Hin)
    as (e' & k & id & ctor & He' & Hfrom & Hk & Hid & Hreg & Hbuilt).
  destruct Hfrom as (Hen & Hx & Hy & Hr & Hz & Hv & Hit & Ho).
  exists e'. split; [done|]. split; [done|]. split.
  { rewrite Hid, Hpl. apply Hfresh. lia. }
  simpl in *. repeat (split; [done|]).
  change (s_type (toJSON e)) with (el_type e) in Hreg.
  rewrite standardRegistry_type in Hreg. injection Hreg as <-.
  unfold builtSubclass in Hbuilt.
  destruct (subclass e) eqn:Hsub; simpl in Hbuilt;
    rewrite ?Hsub in Hbuilt; simpl in Hbuilt; injection Hbuilt as <-;
    eauto.
Qed.

Lemma selectedScene_uids :
  uidsFresh selectedScene (uidCalls selectedScene)
    (uidCalls selectedScene + 2 * length (selected selectedScene)).
Proof.
  change (uidsFresh selectedScene 1 3).
  assert (forall k, (1 <= k < 3)%nat -> k = 1 \/ k = 2)%nat
    as Hcases by (intros; lia).
  split.
  - intros k Hk.
    destruct (Hcases k Hk) as [->| ->];
      apply (bool_decide_unpack _); vm_compute; exact I.
  - intros j k Hj Hk.
    destruct (Hcases j Hj) as [->| ->];
      destruct (Hcases k Hk) as [->| ->];
      vm_compute; intros H; first [reflexivity | discriminate H].
Qed.

Lemma copy_paste_duplicates_witness :
  selected (pasteClipboard (copySelected selectedScene)) = [1%nat] /\
  getAll (pasteClipboard (copySelected selectedScene)) = [0; 1]%nat.
Proof.
  destruct (copy_paste_duplicates selectedScene) as (H1 & H2 & _).
  - reflexivity.
  - vm_compute. discriminate.
  - intros r Hr. vm_compute in Hr. apply list_elem_of_singleton in Hr.
    subst r. vm_compute. by eexists.
  - exact selectedScene_uids.
  - split; [exact H1|exact H2].
Defined.

End CopyPaste.

(** ** Numbers: clamping and the fill mask *)

Section Numbers.

Lemma clamp_cases value min max :
  min <= max ->
  (value <= min /\ clamp value min max == min) \/
  (min <= value <= max /\ clamp value min max == value) \/
  (max <= value /\ clamp value min max == max).
Proof.
  intros Hmm. unfold clamp.
  destruct (Qlt_le_dec value min) as [H1|H1].
  - left. split; [lra|].
    rewrite (Q.max_r value min) by lra. by apply Q.min_l.
  - destruct (Qlt_le_dec max value) as [H2|H2].
    + right. right. split; [lra|].
      rewrite (Q.max_l value min) by lra. apply Q.min_r. lra.
    + right. left. split; [lra|].
      rewrite (Q.max_l value min) by lra. by apply Q.min_l.
Qed.

(** X22.  [clamp], for bounds in order: the result lies between the
    bounds; a value between them is returned as it is, a value below is
    raised to the lower and a value above is cut to the upper bound;
    clamping twice is clamping once.  With the bounds out of order the
    result is the upper bound, whatever the value. *)
Theorem clamp_range (value min max : Q) :
  (min <= max ->
   min <= clamp value min max <= max /\
   (min <= value <= max -> clamp value min max == value) /\
   (value <= min -> clamp value min max == min) /\
   (max <= value -> clamp value min max == max) /\
   clamp (clamp value min max) min max == clamp value min max)
  /\ (max < min -> clamp value min max == max).
Proof.
  split.
  - intros Hmm.
    destruct (clamp_cases value min max Hmm) as [[H E]|[[H E]|[H E]]];
      (split; [rewrite E; lra|]);
      (split; [intros; rewrite E; lra|]);
      (split; [intros; rewrite E; lra|]);
      (split; [intros; rewrite E; lra|]).
    all: destruct (clamp_cases (clamp value min max) min max Hmm)
           as [[H' E']|[[H' E']|[H' E']]]; rewrite E'; lra.
  - intros Hlt. unfold clamp. apply Q.min_r.
    pose proof (Q.le_max_r value min). lra.
Qed.

Lemma clamp_range_witness :
  clamp 150 0 100 == 100 /\ clamp (-3) 0 100 == 0 /\ clamp 40 0 100 == 40.
Proof.
  destruct (proj1 (clamp_range 150 0 100) ltac:(lra)) as (_ & _ & _ & H1 & _).
  destruct (proj1 (clamp_range (-3) 0 100) ltac:(lra)) as (_ & _ & H2 & _).
  destruct (proj1 (clamp_range 40 0 100) ltac:(lra)) as (_ & H3 & _).
  split; [apply H1; lra|]. split; [apply H2; lra|apply H3; lra].
Defined.



End Numbers.

(** ** Snapping to the grid *)

Section Grid.
Import TransformController.











End Grid.

(** ** Serializing the scene *)

Section Persist.
Import ElementManager ZOrderManager SerializationManager.

Lemma omap_toJSON_sorted w l :
  StronglySorted (leZ (zIndex w)) l ->
  StronglySorted (λ a b, s_zIndex a <= s_zIndex b)
    (omap (λ el, toJSON <$> heap w !! el) l).
Proof.
  induction 1 as [|a l Hs IH Hall]; simpl; [constructor|].
  destruct (heap w !! a) as [e|] eqn:He; simpl; [|done].
  constructor; [done|].
  apply Forall_forall. intros j Hj.
  apply list_elem_of_omap in Hj as (r & Hr & Hfr).
  destruct (heap w !! r) as [e'|] eqn:He'; simplify_eq/=.
  rewrite Forall_forall in Hall. specialize (Hall r Hr).
  unfold leZ, zIndex in Hall. by rewrite He, He' in Hall.
Qed.

Lemma omap_toJSON_ids w (l : list (string * nat)) :
  (forall id r, (id, r) ∈ l ->
                exists e, heap w !! r = Some e /\ el_id e = id) ->
  s_id <$> omap (λ el, toJSON <$> heap w !! el) l.*2 = l.*1.
Proof.
  induction l as [|[id r] l IH]; intros H; [done|]. simpl.
  destruct (H id r) as (e & -> & <-); [left|]. simpl.
  f_equal. apply IH. intros id' r' Hin. apply H. by right.
Qed.

(** X26.  In a map keyed by id, the state [serialize] writes has
    version 1 and the canvas size, and its elements are the [toJSON] of
    every element of the map, each id once, in ascending order of
    zIndex. *)
Theorem serialize_sorted (size : Q * Q) (w : World) :
  keyedById w ->
  let st := serialize size w in
  ws_version st = 1 /\ ws_width st = size.1 /\ ws_height st = size.2 /\
  StronglySorted (λ a b, s_zIndex a <= s_zIndex b) (ws_elements st) /\
  s_id <$> ws_elements st ≡ₚ (elements w).*1 /\
  (forall id r e,
      (id, r) ∈ elements w -> heap w !! r = Some e ->
      toJSON e ∈ ws_elements st).
Proof.
  intros [Hnd Hk] st. repeat split.
  - apply omap_toJSON_sorted, sortByZ_sorted.
  - unfold st, serialize. cbn [ws_elements].
    rewrite sortByZ_perm. unfold getAll.
    rewrite omap_toJSON_ids; [done|].
    intros id r Hin. destruct (Hk id r Hin) as (e & ? & ? & _). eauto.
  - intros id r e Hin He. unfold st, serialize. cbn [ws_elements].
    apply list_elem_of_omap. exists r. split; [|by rewrite He].
    rewrite sortByZ_perm. unfold getAll.
    apply list_elem_of_fmap. by exists (id, r).
Qed.

Lemma serialize_sorted_witness :
  s_id <$> ws_elements (serialize (400, 400) rectScene) ≡ₚ ["e0"%string].
Proof.
  apply (serialize_sorted (400, 400) rectScene).
  apply rectScene_keyed.
Defined.

End Persist.

(** ** The marquee *)

Section Marquee.
Import SelectionManager.



End Marquee.

(** ** Selecting one element *)

Section Selecting.
Import SelectionManager.

Lemma clearSelection_selected w : selected (clearSelection w) = [].
Proof.
  unfold clearSelection. destruct (selected w) eqn:E; [done|].
  by autorewrite with frame.
Qed.

Lemma clearSelection_eventBus w :
  eventBus (clearSelection w) =
  eventBus w ++ match selected w with [] => [] | _ => [selection_cleared] end.
Proof.
  unfold clearSelection. destruct (selected w); [by rewrite app_nil_r|].
  by rewrite emit_eventBus.
Qed.

Lemma addToSelection_selected el w :
  selected (addToSelection el w) = set_add el (selected w).
Proof.
  unfold addToSelection, updateSelectionVisuals. by autorewrite with frame.
Qed.

Lemma deselect_selected el w :
  selected (deselect el w) = set_delete el (selected w).
Proof.
  unfold deselect, updateSelectionVisuals. by autorewrite with frame.
Qed.

(** X28.  [select] leaves the element as the whole selection and
    touches no object; it emits ['selection:cleared'] if something was
    selected before, and then ['selection:changed'] with the element.
    [deselect] of an element that [addToSelection] has just added to a
    selection without it gives the selection back as it was. *)
Theorem select_replaces (w : World) (el : nat) :
  selected (select el w) = [el] /\
  heap (select el w) = heap w /\
  elements (select el w) = elements w /\
  emittedSince w (select el w) =
    match selected w with [] => [] | _ => [selection_cleared] end
    ++ [selection_changed [el]] /\
  (el ∉ selected w ->
   selected (deselect el (addToSelection el w)) = selected w).
Proof.
  assert (selected (select el w) = [el]) as Hsel.
  { unfold select. by rewrite addToSelection_selected,
                              clearSelection_selected. }
  split; [done|]. split; [|split; [|split]].
  - unfold select, addToSelection, updateSelectionVisuals.
    autorewrite with frame. cbn [heap with_selectionBoxVisible with_selected].
    unfold clearSelection. destruct (selected w); [done|].
    by autorewrite with frame.
  - unfold select, addToSelection, updateSelectionVisuals.
    autorewrite with frame.
    cbn [elements with_selectionBoxVisible with_selected].
    unfold clearSelection. destruct (selected w); [done|].
    by autorewrite with frame.
  - apply emittedSince_app. unfold select, addToSelection at 1.
    rewrite emit_eventBus. unfold updateSelectionVisuals, getSelected.
    cbn [eventBus selected with_selectionBoxVisible with_selected].
    rewrite clearSelection_selected, clearSelection_eventBus.
    by rewrite <- app_assoc.
  - intros Hel. rewrite deselect_selected, addToSelection_selected.
    unfold set_add, set_delete.
    rewrite bool_decide_eq_false_2 by done.
    rewrite filter_app, filter_cons_False by (intros H; by apply H).
    rewrite filter_nil, app_nil_r. apply filter_all.
    apply Forall_forall. intros x Hx ->. done.
Qed.

Lemma select_replaces_witness :
  selected (deselect 0 (addToSelection 0 rectScene)) = selected rectScene.
Proof.
  apply (select_replaces rectScene 0).
  vm_compute. apply not_elem_of_nil.
Defined.

End Selecting.
